(** * BuildXL Linux sandbox: the ptrace tracer and the access observer

    A shallow embedding of
      - [Public/Src/Sandbox/Linux/PTraceSandbox.cpp]  (the syscall tracer), and
      - [Public/Src/Sandbox/Linux/bxl_observer.cpp]   (path resolution, the
        access cache and the report transport),
    followed by the properties proved of them.

    Conventions.  Machine integers are [Z] with the C++ conversions written
    out ([to_int32], [to_int64], [to_uint64]); a register is its unsigned
    64-bit value.  Paths handed around as [std::string] are [string]; the
    buffer that [resolve_path] rewrites in place is a [list ascii] (the bytes
    before the terminating NUL) together with the scan index.  Calls into
    collaborators whose code is elsewhere (the policy engine, the kernel) are
    recorded in an effect log or taken as variables of a section. *)

From Stdlib Require Import ZArith Lia String Ascii List Bool.
From stdpp Require Import base gmap sets list strings.

Open Scope Z_scope.

(** ** Platform constants (Linux, x86-64 headers) *)

Module Linux.
Definition PATH_MAX : Z := 4096.
Definition PIPE_BUF : Z := 4096.

(* <fcntl.h> *)
Definition O_ACCMODE : Z := 3.
Definition O_WRONLY : Z := 1.
Definition O_RDWR : Z := 2.
Definition O_CREAT : Z := 64.       (* 0100 *)
Definition O_TRUNC : Z := 512.      (* 01000 *)
Definition O_NOFOLLOW : Z := 131072. (* 0400000 *)
Definition AT_FDCWD : Z := -100.
Definition AT_REMOVEDIR : Z := 512. (* 0x200 *)

(* <sys/stat.h> *)
Definition S_IFMT : Z := 61440.     (* 0170000 *)
Definition S_IFDIR : Z := 16384.    (* 0040000 *)
Definition S_IFREG : Z := 32768.    (* 0100000 *)
Definition S_IFLNK : Z := 40960.    (* 0120000 *)
Definition S_IFSOCK : Z := 49152.   (* 0140000 *)
Definition S_IFIFO : Z := 4096.     (* 0010000 *)

Definition S_ISDIR (m : Z) : bool := Z.land m S_IFMT =? S_IFDIR.
Definition S_ISREG (m : Z) : bool := Z.land m S_IFMT =? S_IFREG.
Definition S_ISLNK (m : Z) : bool := Z.land m S_IFMT =? S_IFLNK.

(* <signal.h>, <sys/ptrace.h>, <sys/wait.h> *)
Definition SIGTRAP : Z := 5.
Definition PTRACE_EVENT_FORK : Z := 1.
Definition PTRACE_EVENT_VFORK : Z := 2.
Definition PTRACE_EVENT_CLONE : Z := 3.
Definition PTRACE_EVENT_EXIT : Z := 6.
Definition PTRACE_EVENT_SECCOMP : Z := 7.

Definition WTERMSIG (status : Z) : Z := Z.land status 127.
Definition WEXITSTATUS (status : Z) : Z := Z.shiftr (Z.land status 65280) 8.
Definition WSTOPSIG (status : Z) : Z := WEXITSTATUS status.
Definition WIFEXITED (status : Z) : bool := WTERMSIG status =? 0.
(* ((signed char) ((status & 0x7f) + 1) >> 1) > 0 *)
Definition WIFSIGNALED (status : Z) : bool :=
  let c := Z.land status 127 + 1 in
  let sc := if c <? 128 then c else c - 256 in
  Z.shiftr sc 1 >? 0.
Definition WIFSTOPPED (status : Z) : bool := Z.land status 255 =? 127.
End Linux.

(** ** C++ integer conversions and truth values *)

Definition to_uint64 (z : Z) : Z := z mod 2 ^ 64.

Definition to_int64 (z : Z) : Z :=
  let m := z mod 2 ^ 64 in if m <? 2 ^ 63 then m else m - 2 ^ 64.

Definition to_int32 (z : Z) : Z :=
  let m := z mod 2 ^ 32 in if m <? 2 ^ 31 then m else m - 2 ^ 32.

Definition to_uint32 (z : Z) : Z := z mod 2 ^ 32.

(** An integer used as a condition: non-zero is true. *)
Definition c_true (z : Z) : bool := negb (z =? 0).

(** The value of [a == b] as an operand of integer arithmetic. *)
Definition c_eq (a b : Z) : Z := if a =? b then 1 else 0.

(** ** Event types

    [es_event_type_t] is declared outside the two files; these are the
    enumerators the two files name. *)

Inductive es_event_type_t : Set :=
| ES_EVENT_TYPE_NOTIFY_FORK
| ES_EVENT_TYPE_NOTIFY_EXEC
| ES_EVENT_TYPE_NOTIFY_EXIT
| ES_EVENT_TYPE_NOTIFY_TRUNCATE
| ES_EVENT_TYPE_NOTIFY_SETATTRLIST
| ES_EVENT_TYPE_NOTIFY_SETEXTATTR
| ES_EVENT_TYPE_NOTIFY_DELETEEXTATTR
| ES_EVENT_TYPE_NOTIFY_SETFLAGS
| ES_EVENT_TYPE_NOTIFY_SETOWNER
| ES_EVENT_TYPE_NOTIFY_SETMODE
| ES_EVENT_TYPE_NOTIFY_WRITE
| ES_EVENT_TYPE_NOTIFY_UTIMES
| ES_EVENT_TYPE_NOTIFY_SETTIME
| ES_EVENT_TYPE_NOTIFY_SETACL
| ES_EVENT_TYPE_NOTIFY_GETATTRLIST
| ES_EVENT_TYPE_NOTIFY_GETEXTATTR
| ES_EVENT_TYPE_NOTIFY_LISTEXTATTR
| ES_EVENT_TYPE_NOTIFY_ACCESS
| ES_EVENT_TYPE_NOTIFY_STAT
| ES_EVENT_TYPE_NOTIFY_CREATE
| ES_EVENT_TYPE_NOTIFY_OPEN
| ES_EVENT_TYPE_NOTIFY_UNLINK
| ES_EVENT_TYPE_NOTIFY_LINK
| ES_EVENT_TYPE_NOTIFY_READLINK
| ES_EVENT_TYPE_AUTH_SETOWNER.

Definition es_event_code (e : es_event_type_t) : nat :=
  match e with
  | ES_EVENT_TYPE_NOTIFY_FORK => 0 | ES_EVENT_TYPE_NOTIFY_EXEC => 1
  | ES_EVENT_TYPE_NOTIFY_EXIT => 2 | ES_EVENT_TYPE_NOTIFY_TRUNCATE => 3
  | ES_EVENT_TYPE_NOTIFY_SETATTRLIST => 4 | ES_EVENT_TYPE_NOTIFY_SETEXTATTR => 5
  | ES_EVENT_TYPE_NOTIFY_DELETEEXTATTR => 6 | ES_EVENT_TYPE_NOTIFY_SETFLAGS => 7
  | ES_EVENT_TYPE_NOTIFY_SETOWNER => 8 | ES_EVENT_TYPE_NOTIFY_SETMODE => 9
  | ES_EVENT_TYPE_NOTIFY_WRITE => 10 | ES_EVENT_TYPE_NOTIFY_UTIMES => 11
  | ES_EVENT_TYPE_NOTIFY_SETTIME => 12 | ES_EVENT_TYPE_NOTIFY_SETACL => 13
  | ES_EVENT_TYPE_NOTIFY_GETATTRLIST => 14 | ES_EVENT_TYPE_NOTIFY_GETEXTATTR => 15
  | ES_EVENT_TYPE_NOTIFY_LISTEXTATTR => 16 | ES_EVENT_TYPE_NOTIFY_ACCESS => 17
  | ES_EVENT_TYPE_NOTIFY_STAT => 18 | ES_EVENT_TYPE_NOTIFY_CREATE => 19
  | ES_EVENT_TYPE_NOTIFY_OPEN => 20 | ES_EVENT_TYPE_NOTIFY_UNLINK => 21
  | ES_EVENT_TYPE_NOTIFY_LINK => 22 | ES_EVENT_TYPE_NOTIFY_READLINK => 23
  | ES_EVENT_TYPE_AUTH_SETOWNER => 24
  end%nat.

Definition es_event_of_code (n : nat) : option es_event_type_t :=
  match n with
  | 0 => Some ES_EVENT_TYPE_NOTIFY_FORK | 1 => Some ES_EVENT_TYPE_NOTIFY_EXEC
  | 2 => Some ES_EVENT_TYPE_NOTIFY_EXIT | 3 => Some ES_EVENT_TYPE_NOTIFY_TRUNCATE
  | 4 => Some ES_EVENT_TYPE_NOTIFY_SETATTRLIST | 5 => Some ES_EVENT_TYPE_NOTIFY_SETEXTATTR
  | 6 => Some ES_EVENT_TYPE_NOTIFY_DELETEEXTATTR | 7 => Some ES_EVENT_TYPE_NOTIFY_SETFLAGS
  | 8 => Some ES_EVENT_TYPE_NOTIFY_SETOWNER | 9 => Some ES_EVENT_TYPE_NOTIFY_SETMODE
  | 10 => Some ES_EVENT_TYPE_NOTIFY_WRITE | 11 => Some ES_EVENT_TYPE_NOTIFY_UTIMES
  | 12 => Some ES_EVENT_TYPE_NOTIFY_SETTIME | 13 => Some ES_EVENT_TYPE_NOTIFY_SETACL
  | 14 => Some ES_EVENT_TYPE_NOTIFY_GETATTRLIST | 15 => Some ES_EVENT_TYPE_NOTIFY_GETEXTATTR
  | 16 => Some ES_EVENT_TYPE_NOTIFY_LISTEXTATTR | 17 => Some ES_EVENT_TYPE_NOTIFY_ACCESS
  | 18 => Some ES_EVENT_TYPE_NOTIFY_STAT | 19 => Some ES_EVENT_TYPE_NOTIFY_CREATE
  | 20 => Some ES_EVENT_TYPE_NOTIFY_OPEN | 21 => Some ES_EVENT_TYPE_NOTIFY_UNLINK
  | 22 => Some ES_EVENT_TYPE_NOTIFY_LINK | 23 => Some ES_EVENT_TYPE_NOTIFY_READLINK
  | 24 => Some ES_EVENT_TYPE_AUTH_SETOWNER
  | _ => None
  end%nat.

#[global] Instance es_event_eq_dec : EqDecision es_event_type_t.
Proof. solve_decision. Defined.

#[global] Instance es_event_countable : Countable es_event_type_t.
Proof.
  apply (inj_countable es_event_code es_event_of_code).
  intros []; reflexivity.
Defined.

(** ** The semantic access event ([IOEvent])

    The class is declared elsewhere; the two constructors the files call are
    kept apart, each with the arguments it is given (the action type
    [ES_ACTION_TYPE_NOTIFY] and the literal [false] flag, which are the same
    at every call, are left out).  An argument a call leaves to the default
    of a declaration that is not in the two files is [None]. *)

Inductive IOEvent : Type :=
| IOEvent_path (eventType : es_event_type_t) (path executable : string)
               (mode : Z) (secondPath : string) (error : Z)
| IOEvent_proc (pid cpid ppid : Z) (eventType : es_event_type_t)
               (src dst executable : string) (mode : Z) (error : option Z).

Definition GetEventType (e : IOEvent) : es_event_type_t :=
  match e with
  | IOEvent_path t _ _ _ _ _ => t
  | IOEvent_proc _ _ _ t _ _ _ _ _ => t
  end.

Definition GetSrcPath (e : IOEvent) : string :=
  match e with
  | IOEvent_path _ p _ _ _ _ => p
  | IOEvent_proc _ _ _ _ s _ _ _ _ => s
  end.

Definition GetDstPath (e : IOEvent) : string :=
  match e with
  | IOEvent_path _ _ _ _ d _ => d
  | IOEvent_proc _ _ _ _ _ d _ _ _ => d
  end.

(** ** The tracer ([PTraceSandbox.cpp]) *)

(** Calls the tracer makes into the observer, the kernel and the message
    queue, in the order they are made. *)
Inductive effect : Type :=
| report_access_event (syscallName : string) (event : IOEvent)
    (checkCache : option bool)
| report_access_path (syscallName : string) (eventType : es_event_type_t)
    (pathname : string) (mode flags error : Z) (checkCache : bool) (associatedPid : Z)
| report_access_at (syscallName : string) (eventType : es_event_type_t) (dirfd : Z)
    (pathname : string) (oflags : Z) (getModeWithFd : bool) (associatedPid error : Z)
| ExitReport (pid : Z)
| disable_fd_table
| ptrace_SYSCALL (pid sig : Z)
| ptrace_CONT (pid : Z)
| HandleSysCallGeneric (pid syscallNumber : Z)
| mq_send_exitnotification (pid : Z).

(** [std::tuple<pid_t, pid_t, std::string>]: pid, parent pid, exe path. *)
Definition tracee : Type := Z * Z * string.
Definition tracee_pid (t : tracee) : Z := t.1.1.
Definition tracee_ppid (t : tracee) : Z := t.1.2.
Definition tracee_exe (t : tracee) : string := t.2.

Record PTraceSandbox : Type := mkPTraceSandbox {
  m_traceePid : Z;
  m_traceeTable : list tracee;
  effects : list effect
}.

(** What the tracer reads from its own process. *)
Record tracer_env : Type := {
  getpid : Z;
  GetProgramPath : string
}.

Definition emit (e : effect) (s : PTraceSandbox) : PTraceSandbox :=
  mkPTraceSandbox (m_traceePid s) (m_traceeTable s) (effects s ++ [e]).

Definition set_table (t : list tracee) (s : PTraceSandbox) : PTraceSandbox :=
  mkPTraceSandbox (m_traceePid s) t (effects s).

Definition set_traceePid (p : Z) (s : PTraceSandbox) : PTraceSandbox :=
  mkPTraceSandbox p (m_traceeTable s) (effects s).

(** *** Calls that may not return

    [report_access], [SendExitReport] and the system call handlers end in
    [BxlObserver::SendReport] and [Send], which leave the process through
    [_fatal] when a report does not fit [PIPE_BUF] or the reports file cannot
    be opened or written; [normalize_path_at] has [_fatal] exits of its own,
    and the handlers of mkdir, mkdirat and rmdir wait for the tracee.  A
    debug message is a report too.  Whether such a call returns is not the
    tracer's to decide: [returns] tells it, from the calls made so far.  A
    call that returns is added to the log of the tracer; one that does not
    ends the run, in the state the tracer had when it made the call. *)
Inductive observer_call : Type :=
| Report (e : effect)          (* report_access, SendExitReport, a handler *)
| Debug (format : string).     (* BXL_LOG_DEBUG *)

Record observer : Type := {
  LogDebugEnabled : bool;
  returns : list effect -> observer_call -> bool
}.

Inductive outcome (A : Type) : Type :=
| Done (a : A) (s : PTraceSandbox)                     (* returned *)
| NotReturned (c : observer_call) (s : PTraceSandbox)  (* _fatal inside c, or c blocks *)
| Exit_ (code : Z) (s : PTraceSandbox).                (* _exit(code) *)
Arguments Done {A} a s.
Arguments NotReturned {A} c s.
Arguments Exit_ {A} code s.

Definition tracer (A : Type) : Type := PTraceSandbox -> outcome A.

Definition tracer_ret {A : Type} (a : A) : tracer A := fun s => Done a s.

Definition tracer_bind {A B : Type} (m : tracer A) (k : A -> tracer B) : tracer B :=
  fun s =>
    match m s with
    | Done a s' => k a s'
    | NotReturned c s' => NotReturned c s'
    | Exit_ code s' => Exit_ code s'
    end.

Declare Scope tracer_scope.
Delimit Scope tracer_scope with tracer.
Notation "'let*' x ':=' m 'in' k" := (tracer_bind m (fun x => k))
  (at level 10, x name, m at level 100, k at level 200) : tracer_scope.
Notation "m ';;;' k" := (tracer_bind m (fun _ => k))
  (at level 100, k at level 200, right associativity) : tracer_scope.

Definition get {A : Type} (f : PTraceSandbox -> A) : tracer A := fun s => Done (f s) s.

Definition modify (f : PTraceSandbox -> PTraceSandbox) : tracer unit :=
  fun s => Done tt (f s).

(** A request whose result the tracer does not look at: [ptrace],
    [mq_send], [disable_fd_table]. *)
Definition request (e : effect) : tracer unit := modify (emit e).

(** A call into the observer. *)
Definition call (m_bxl : observer) (e : effect) : tracer unit :=
  fun s =>
    if returns m_bxl (effects s) (Report e) then Done tt (emit e s)
    else NotReturned (Report e) s.

(** [BXL_LOG_DEBUG], a macro of the observer's header, hands the message to
    [BxlObserver::LogDebug], which sends it as a report when debug logging is
    on and does nothing otherwise. *)
Definition BXL_LOG_DEBUG (m_bxl : observer) (format : string) : tracer unit :=
  fun s =>
    if LogDebugEnabled m_bxl && negb (returns m_bxl (effects s) (Debug format))
    then NotReturned (Debug format) s
    else Done tt s.

Definition _exit {A : Type} (code : Z) : tracer A := fun s => Exit_ code s.

(** [BxlObserver::SendExitReport]: pid 0 stands for the caller's own pid;
    the report goes through [SendReport]. *)
Definition SendExitReport (m_bxl : observer) (env : tracer_env) (pid : Z) : tracer unit :=
  call m_bxl (ExitReport (if pid =? 0 then getpid env else pid)).

Definition Handleexit (m_bxl : observer) (env : tracer_env) : tracer unit :=
  (let* pid := get m_traceePid in
   SendExitReport m_bxl env pid)%tracer.

(** [AllTraceesHaveExited]: the erase/remove_if idiom drops every record whose
    pid is [m_traceePid]. *)
Definition AllTraceesHaveExited (m_bxl : observer) (env : tracer_env) : tracer bool :=
  (BXL_LOG_DEBUG m_bxl "[PTrace] Removing process '%d' from ptrace tracee table." ;;;
   Handleexit m_bxl env ;;;
   modify (fun s =>
             set_table
               (List.filter (fun item => negb (tracee_pid item =? m_traceePid s))
                            (m_traceeTable s)) s) ;;;
   let* shouldExit := get (fun s => (length (m_traceeTable s) =? 0)%nat) in
   (if shouldExit then SendExitReport m_bxl env (getpid env) else tracer_ret tt) ;;;
   tracer_ret shouldExit)%tracer.

(** [FindParentProcess]: [std::find_if] on the pid; [None] is [end()]. *)
Definition FindParentProcess (s : PTraceSandbox) (pid : Z) : option tracee :=
  List.find (fun item => tracee_pid item =? pid) (m_traceeTable s).

(** [HandleChildProcess]; [newPid] is what PTRACE_GETEVENTMSG stores. *)
Definition HandleChildProcess (env : tracer_env) (syscall : string) (newPid : Z)
    (s : PTraceSandbox) : PTraceSandbox :=
  let maybeParent := FindParentProcess s newPid in
  let '(traceeppid, exePath) :=
    match maybeParent with
    | Some parent => (tracee_ppid parent, tracee_exe parent)
    | None => (0, GetProgramPath env)
    end in
  let event :=
    IOEvent_proc (m_traceePid s) newPid traceeppid ES_EVENT_TYPE_NOTIFY_FORK
                 exePath "" exePath 0 (Some 0) in
  let s := emit (report_access_event syscall event None) s in
  let s := set_table (m_traceeTable s ++ [(newPid, m_traceePid s, exePath)]) s in
  let s := emit (ptrace_SYSCALL newPid 0) s in
  emit (ptrace_SYSCALL (m_traceePid s) 0) s.

(** One return of [wait]: the pid, the status word, and what the tracer would
    read from the stopped tracee (the event message, the ORIG_RAX register). *)
Record wait_result : Type := {
  w_pid : Z;
  w_status : Z;
  w_eventmsg : Z;
  w_orig_rax : Z
}.

Definition is_event (status ev : Z) : bool :=
  Z.shiftr status 8 =? Z.lor Linux.SIGTRAP (Z.shiftl ev 8).

(** [HandleChildProcess] with the calls that may not return: the report of
    the fork and the debug message after the new record.  When both return
    the tracer is left as [HandleChildProcess] above leaves it. *)
Definition HandleChildProcess_outcome (m_bxl : observer) (env : tracer_env)
    (syscall : string) (newPid : Z) : tracer unit :=
  (let* maybeParent := get (fun s => FindParentProcess s newPid) in
   let '(traceeppid, exePath) :=
     match maybeParent with
     | Some parent => (tracee_ppid parent, tracee_exe parent)
     | None => (0, GetProgramPath env)
     end in
   let* pid := get m_traceePid in
   let event :=
     IOEvent_proc pid newPid traceeppid ES_EVENT_TYPE_NOTIFY_FORK
                  exePath "" exePath 0 (Some 0) in
   call m_bxl (report_access_event syscall event None) ;;;
   modify (fun s => set_table (m_traceeTable s ++ [(newPid, m_traceePid s, exePath)]) s) ;;;
   BXL_LOG_DEBUG m_bxl "[PTrace] Added new tracee with PID '%d'" ;;;
   request (ptrace_SYSCALL newPid 0) ;;;
   request (ptrace_SYSCALL pid 0))%tracer.

Inductive loop_control : Type := Continue | Break.

(** One iteration of the [while (true)] loop of [AttachToProcess].  The
    handler of a seccomp stop is one call: the handlers read the stopped
    tracee and report, and none of them writes [m_traceePid] or the registry
    or sends on the message queue. *)
Definition loop_body (m_bxl : observer) (env : tracer_env) (w : wait_result)
  : tracer loop_control :=
  let status := w_status w in
  (modify (set_traceePid (w_pid w)) ;;;
   if Linux.WIFEXITED status then
     BXL_LOG_DEBUG m_bxl "[PTrace] Child process %d exited with status '%d'" ;;;
     let* done := AllTraceesHaveExited m_bxl env in
     tracer_ret (if done then Break else Continue)
   else if Linux.WIFSIGNALED status then
     BXL_LOG_DEBUG m_bxl "[PTrace] Child process %d exited with signal '%d'" ;;;
     let* done := AllTraceesHaveExited m_bxl env in
     tracer_ret (if done then Break else Continue)
   else if negb (Linux.WIFSTOPPED status) then
     BXL_LOG_DEBUG m_bxl "[PTrace] wait() returned bad status '%d'" ;;;
     _exit (-1)
   else if is_event status Linux.PTRACE_EVENT_CLONE then
     HandleChildProcess_outcome m_bxl env "clone" (to_int32 (w_eventmsg w)) ;;;
     tracer_ret Continue
   else if is_event status Linux.PTRACE_EVENT_FORK then
     HandleChildProcess_outcome m_bxl env "fork" (to_int32 (w_eventmsg w)) ;;;
     tracer_ret Continue
   else if is_event status Linux.PTRACE_EVENT_VFORK then
     HandleChildProcess_outcome m_bxl env "vfork" (to_int32 (w_eventmsg w)) ;;;
     tracer_ret Continue
   else if is_event status Linux.PTRACE_EVENT_EXIT then
     BXL_LOG_DEBUG m_bxl "[PTrace] Tracee %d exited with exit code '%d'" ;;;
     let* shouldExit := AllTraceesHaveExited m_bxl env in
     let* pid := get m_traceePid in
     request (ptrace_SYSCALL pid 0) ;;;
     tracer_ret (if shouldExit then Break else Continue)
   else if is_event status Linux.PTRACE_EVENT_SECCOMP then
     let* pid := get m_traceePid in
     call m_bxl (HandleSysCallGeneric pid (to_int32 (w_orig_rax w))) ;;;
     request (ptrace_CONT pid) ;;;
     tracer_ret Continue
   else if Linux.WIFSTOPPED status && negb (c_true (Z.land (Linux.WSTOPSIG status) 128)) then
     let* pid := get m_traceePid in
     request (ptrace_SYSCALL pid (Linux.WSTOPSIG status)) ;;;
     tracer_ret Continue
   else
     let* pid := get m_traceePid in
     request (ptrace_SYSCALL pid 0) ;;;
     tracer_ret Continue)%tracer.

Inductive session : Type :=
| Finished (s : PTraceSandbox)     (* AttachToProcess returned *)
| Waiting (s : PTraceSandbox)      (* blocked in wait(): no further status change *)
| Exited (code : Z) (s : PTraceSandbox)              (* _exit(code) *)
| InCall (c : observer_call) (s : PTraceSandbox).    (* c has not returned *)

Definition ended (o : outcome unit) : session :=
  match o with
  | Done _ s => Finished s
  | NotReturned c s => InCall c s
  | Exit_ code s => Exited code s
  end.

(** What follows the loop: the exit notification to the daemon and a debug
    message with the result of [mq_send]. *)
Definition notify_daemon (m_bxl : observer) (env : tracer_env) : tracer unit :=
  (request (mq_send_exitnotification (getpid env)) ;;;
   BXL_LOG_DEBUG m_bxl "[PTrace] Exit notification result '%d', errno '%d'")%tracer.

Fixpoint main_loop (m_bxl : observer) (env : tracer_env) (ws : list wait_result)
    (s : PTraceSandbox) : session :=
  match ws with
  | [] => Waiting s
  | w :: ws' =>
      match loop_body m_bxl env w s with
      | Done Continue s' => main_loop m_bxl env ws' s'
      | Done Break s' => ended (notify_daemon m_bxl env s')
      | NotReturned c s' => InCall c s'
      | Exit_ code s' => Exited code s'
      end
  end.

(** [AttachToProcess]: seize and interrupt the tracee ([_exit(-1)] when either
    fails), seed the registry, run the loop, then notify the daemon. *)
Definition AttachToProcess (m_bxl : observer) (env : tracer_env)
    (seize_ok interrupt_ok : bool)
    (traceePid parentPid : Z) (exe : string) (ws : list wait_result) : session :=
  let attach :=
    (BXL_LOG_DEBUG m_bxl "[PTrace] Starting tracer PID '%d' to trace PID '%d'" ;;;
     (if negb seize_ok then
        BXL_LOG_DEBUG m_bxl "[PTrace] PTRACE_SEIZE failed with error: '%s'" ;;;
        _exit (-1)
      else tracer_ret tt) ;;;
     (if negb interrupt_ok then
        BXL_LOG_DEBUG m_bxl "[PTrace] PTRACE_INTERRUPT failed with error: '%s'" ;;;
        _exit (-1)
      else tracer_ret tt) ;;;
     modify (set_traceePid traceePid) ;;;
     modify (fun s => set_table (m_traceeTable s ++ [(traceePid, parentPid, exe)]) s) ;;;
     request disable_fd_table ;;;
     let* pid := get m_traceePid in
     request (ptrace_SYSCALL pid 0))%tracer in
  match attach (mkPTraceSandbox 0 [] []) with
  | Done _ s => main_loop m_bxl env ws s
  | NotReturned c s => InCall c s
  | Exit_ code s => Exited code s
  end.

Definition session_state (r : session) : PTraceSandbox :=
  match r with Finished s | Waiting s | Exited _ s | InCall _ s => s end.

(** *** Registers and memory of the stopped tracee *)

Record tracee_state : Type := {
  peekuser : Z -> Z;    (* PTRACE_PEEKUSER at a byte offset of the user area *)
  peektext : Z -> Z     (* PTRACE_PEEKTEXT at an address: a long, -1 on failure *)
}.

(** <sys/reg.h>, x86-64. *)
Definition R10 : Z := 7.
Definition R9 : Z := 8.
Definition R8 : Z := 9.
Definition RAX : Z := 10.
Definition RDX : Z := 12.
Definition RSI : Z := 13.
Definition RDI : Z := 14.
Definition sizeof_long : Z := 8.

Definition GetArgumentAddr (index : Z) : Z :=
  let addr := sizeof_long in
  match index with
  | 0 => addr * RAX
  | 1 => addr * RDI
  | 2 => addr * RSI
  | 3 => addr * RDX
  | 4 => addr * R10
  | 5 => addr * R8
  | 6 => addr * R9
  | _ => 0
  end.

Definition ReadArgumentLong (t : tracee_state) (argumentIndex : Z) : Z :=
  to_uint64 (peekuser t (GetArgumentAddr argumentIndex)).

(** [GetErrno]: the conditional has type [unsigned long] (its third operand
    is), and the function returns [int]. *)
Definition GetErrno (t : tracee_state) : Z :=
  let returnValue := to_int64 (ReadArgumentLong t 0) in
  to_int32 (if returnValue =? 0 then 0
            else to_uint64 (18446744073709551615 - to_uint64 returnValue)).

(** *** ReadArgumentString

    [char argument[PATH_MAX + 1]] is filled from index 0 upwards, so it is
    kept as the bytes stored so far (newest first) with the index
    [currentStringLength]; a store at an index above [PATH_MAX] leaves the
    array and ends the run with [StoreOutOfBounds]. *)

Inductive read_result : Type :=
| ReadDone (argument : list Z)        (* the bytes stored before the final NUL *)
| StoreOutOfBounds (index : Z)
| ReadOutOfFuel.

Inductive word_result : Type :=
| WordOutOfBounds (index : Z)
| WordDone (stored : list Z) (currentStringLength : Z) (finishedReadingArgument : bool).

(** Byte [i] of a long in memory (little endian). *)
Definition byte_of_long (w i : Z) : Z := Z.land (Z.shiftr w (8 * i)) 255.

Definition in_argument (index : Z) : bool :=
  (0 <=? index) && (index <=? Linux.PATH_MAX).

(** The [for] loop over the [sizeof(long)] bytes of one word; [n] bytes are
    left, [i] is the index of the next one. *)
Fixpoint read_word (n : nat) (w i : Z) (nullTerminated : bool) (length : Z)
    (stored : list Z) (currentStringLength : Z) : word_result :=
  match n with
  | O => WordDone stored currentStringLength false
  | S n' =>
      let ch := byte_of_long w i in
      if negb (in_argument currentStringLength) then WordOutOfBounds currentStringLength
      else
        let stored := ch :: stored in
        let currentStringLength := currentStringLength + 1 in
        if (nullTerminated && (ch =? 0))
           || ((length >? 0) && (currentStringLength =? length))
        then WordDone stored currentStringLength true
        else read_word n' w (i + 1) nullTerminated length stored currentStringLength
  end.

(** The [while (true)] loop; the closing [argument[currentStringLength] = 0]
    is a store like the others. *)
Fixpoint read_words (fuel : nat) (t : tracee_state) (addrRegValue : Z)
    (nullTerminated : bool) (length : Z) (stored : list Z)
    (currentStringLength : Z) : read_result :=
  match fuel with
  | O => ReadOutOfFuel
  | S fuel' =>
      let addrMemoryLocation := peektext t addrRegValue in
      if addrMemoryLocation =? -1 then
        if in_argument currentStringLength then ReadDone (rev stored)
        else StoreOutOfBounds currentStringLength
      else
        match read_word 8 addrMemoryLocation 0 nullTerminated length
                        stored currentStringLength with
        | WordOutOfBounds i => StoreOutOfBounds i
        | WordDone stored currentStringLength true =>
            if in_argument currentStringLength then ReadDone (rev stored)
            else StoreOutOfBounds currentStringLength
        | WordDone stored currentStringLength false =>
            read_words fuel' t (to_uint64 (addrRegValue + sizeof_long))
                       nullTerminated length stored currentStringLength
        end
  end.

(** Every word read stores at least one byte, so [PATH_MAX + 2] words are
    more than the loop can read before it finishes or leaves the array. *)
Definition ReadArgumentString (t : tracee_state) (argumentIndex : Z)
    (nullTerminated : bool) (length : Z) : read_result :=
  let addr := GetArgumentAddr argumentIndex in
  let addrRegValue := to_uint64 (peekuser t addr) in
  read_words (Z.to_nat (Linux.PATH_MAX + 2)) t addrRegValue nullTerminated length [] 0.

(** *** Syscall handlers

    A handler is given what its [ReadArgumentLong] and [ReadArgumentString]
    calls returned (and, for the open family, the normalized path). *)

Definition ReportOpen (get_mode : string -> Z) (env : tracer_env)
    (path : string) (oflag : Z) (syscallName : string)
    (s : PTraceSandbox) : PTraceSandbox :=
  let pathMode := get_mode path in
  let pathExists := negb (pathMode =? 0) in
  let isCreate :=
    negb pathExists && c_true (Z.land oflag (Z.lor Linux.O_CREAT Linux.O_TRUNC)) in
  (* [==] binds tighter than [&]: oflag & (O_ACCMODE == O_WRONLY) *)
  let isWrite :=
    pathExists &&
    (c_true (Z.land oflag (Z.lor Linux.O_CREAT Linux.O_TRUNC)) &&
     (c_true (Z.land oflag (c_eq Linux.O_ACCMODE Linux.O_WRONLY))
      || c_true (Z.land oflag (c_eq Linux.O_ACCMODE Linux.O_RDWR)))) in
  let event :=
    IOEvent_path
      (if isCreate then ES_EVENT_TYPE_NOTIFY_CREATE
       else if isWrite then ES_EVENT_TYPE_NOTIFY_WRITE
       else ES_EVENT_TYPE_NOTIFY_OPEN)
      path (GetProgramPath env) pathMode "" 0 in
  emit (report_access_event syscallName event None) s.

Definition Handlecreat (get_mode : string -> Z) (env : tracer_env)
    (path : string) (s : PTraceSandbox) : PTraceSandbox :=
  let oflag := Z.lor (Z.lor Linux.O_CREAT Linux.O_WRONLY) Linux.O_TRUNC in
  ReportOpen get_mode env path oflag "creat" s.

Definition Handleopen (get_mode : string -> Z) (env : tracer_env)
    (path : string) (arg2 : Z) (s : PTraceSandbox) : PTraceSandbox :=
  ReportOpen get_mode env path (to_int32 arg2) "open" s.

Definition Handleopenat (get_mode : string -> Z) (env : tracer_env)
    (path : string) (arg3 : Z) (s : PTraceSandbox) : PTraceSandbox :=
  ReportOpen get_mode env path (to_int32 arg3) "openat" s.

(** [path[0] != 0] on a [std::string]. *)
Definition first_char_not_nul (path : string) : bool :=
  match path with
  | EmptyString => false
  | String c _ => negb (Ascii.eqb c Ascii.zero)
  end.

Definition Handleunlink (path : string) (s : PTraceSandbox) : PTraceSandbox :=
  if first_char_not_nul path then
    emit (report_access_path "unlink" ES_EVENT_TYPE_NOTIFY_UNLINK path 0
            Linux.O_NOFOLLOW 0 true (m_traceePid s)) s
  else s.

(** [dirfd] and [flags] are [unsigned long] ([auto] of [ReadArgumentLong]);
    [AT_FDCWD] is converted to [unsigned long] for the comparison, and
    [dirfd] to [int] for the call. *)
Definition Handleunlinkat (dirfd : Z) (path : string) (flags : Z)
    (s : PTraceSandbox) : PTraceSandbox :=
  if negb (dirfd =? to_uint64 Linux.AT_FDCWD) && first_char_not_nul path then
    let oflags := if c_true (Z.land flags Linux.AT_REMOVEDIR) then 0
                  else Linux.O_NOFOLLOW in
    emit (report_access_at "unlinkat" ES_EVENT_TYPE_NOTIFY_UNLINK (to_int32 dirfd)
            path oflags false (m_traceePid s) 0) s
  else s.

(** ** The observer ([bxl_observer.cpp]) *)

(** *** Access reports and the policy collaborator *)

Inductive FileOperation : Set :=
| kOpProcessTreeCompleted
| kOpDebugMessage
| kOpFirstAllowWriteCheckInProcess
| kOpStaticallyLinkedProcess
| kOpProcessExit
| kOpOther (code : Z).

#[global] Instance FileOperation_eq_dec : EqDecision FileOperation.
Proof. solve_decision. Defined.

Record AccessReport : Type := mkAccessReport {
  operation : FileOperation;
  report_pid : Z;
  rootPid : Z;
  requestedAccess : Z;
  status : Z;
  reportExplicitly : Z;
  error : Z;
  pipId : Z;
  path : string;
  isDirectory : Z;
  shouldReport : bool
}.

Record AccessReportGroup : Type := {
  firstReport : AccessReport;
  secondReport : AccessReport
}.

(** [AccessCheckResult]; [Invalid] is [sNotChecked]. *)
Inductive AccessCheckResult : Type :=
| Invalid
| Checked (access : Z) (deny : bool) (reportLevel : Z).

Definition sNotChecked : AccessCheckResult := Invalid.

(** What the observer reads from its process and its collaborators:
    [get_mode] stats a path (0 when that fails), [try_lock_for] is whether the
    cache mutex is acquired within the millisecond, and
    [CheckAccessAndBuildReport] is the policy engine. *)
Record observer_env : Type := {
  obs_getpid : Z;
  obs_getppid : Z;
  progFullPath_ : string;
  IsEnabled : bool;
  try_lock_for : bool;
  get_mode : string -> Z;
  CheckAccessAndBuildReport : IOEvent -> AccessCheckResult * AccessReportGroup
}.

Record BxlObserver : Type := mkBxlObserver {
  disposed_ : bool;
  cache_ : gmap es_event_type_t (gset string);
  checked : list IOEvent      (* events handed to the policy engine, oldest first *)
}.

(** *** IsCacheHit *)

(** The [switch] that computes [key].  The second group of labels assigns
    [ES_EVENT_TYPE_NOTIFY_STAT] and, having no [break], runs on into
    [default], which assigns [event]. *)
Definition cache_key (event : es_event_type_t) : es_event_type_t :=
  match event with
  | ES_EVENT_TYPE_NOTIFY_TRUNCATE
  | ES_EVENT_TYPE_NOTIFY_SETATTRLIST
  | ES_EVENT_TYPE_NOTIFY_SETEXTATTR
  | ES_EVENT_TYPE_NOTIFY_DELETEEXTATTR
  | ES_EVENT_TYPE_NOTIFY_SETFLAGS
  | ES_EVENT_TYPE_NOTIFY_SETOWNER
  | ES_EVENT_TYPE_NOTIFY_SETMODE
  | ES_EVENT_TYPE_NOTIFY_WRITE
  | ES_EVENT_TYPE_NOTIFY_UTIMES
  | ES_EVENT_TYPE_NOTIFY_SETTIME
  | ES_EVENT_TYPE_NOTIFY_SETACL =>
      ES_EVENT_TYPE_NOTIFY_WRITE
  | ES_EVENT_TYPE_NOTIFY_GETATTRLIST
  | ES_EVENT_TYPE_NOTIFY_GETEXTATTR
  | ES_EVENT_TYPE_NOTIFY_LISTEXTATTR
  | ES_EVENT_TYPE_NOTIFY_ACCESS
  | ES_EVENT_TYPE_NOTIFY_STAT =>
      let key := ES_EVENT_TYPE_NOTIFY_STAT in
      let key := event in
      key
  | _ => event
  end.

Definition set_cache (c : gmap es_event_type_t (gset string)) (o : BxlObserver)
  : BxlObserver :=
  mkBxlObserver (disposed_ o) c (checked o).

Definition IsCacheHit (env : observer_env) (event : es_event_type_t)
    (path secondPath : string) (o : BxlObserver) : bool * BxlObserver :=
  if disposed_ o
     || (0 <? String.length secondPath)%nat
     || bool_decide (event = ES_EVENT_TYPE_NOTIFY_FORK)
     || bool_decide (event = ES_EVENT_TYPE_NOTIFY_EXEC)
     || bool_decide (event = ES_EVENT_TYPE_NOTIFY_EXIT)
  then (false, o)
  else
    let key := cache_key event in
    if negb (try_lock_for env) then (false, o)
    else
      match cache_ o !! key with
      | None => (false, set_cache (<[key := {[path]}]> (cache_ o)) o)
      | Some set =>
          (* !it->second.insert(path).second *)
          (bool_decide (path ∈ set),
           set_cache (<[key := {[path]} ∪ set]> (cache_ o)) o)
      end.

(** *** is_non_file, create_access *)

Definition is_non_file (mode : Z) : bool :=
  negb (mode =? 0) && negb (Linux.S_ISDIR mode) && negb (Linux.S_ISREG mode)
  && negb (Linux.S_ISLNK mode).

(** [create_access(syscallName, event, reportGroup, checkCache)]; the report
    group the policy engine fills is returned ([None]: left as constructed). *)
Definition create_access_event (env : observer_env) (syscallName : string)
    (event : IOEvent) (checkCache : bool) (o : BxlObserver)
  : AccessCheckResult * option AccessReportGroup * BxlObserver :=
  let eventType := GetEventType event in
  let '(hit, o) :=
    if checkCache then IsCacheHit env eventType (GetSrcPath event) (GetDstPath event) o
    else (false, o) in
  if hit then (sNotChecked, None, o)
  else if IsEnabled env then
    let '(result, group) := CheckAccessAndBuildReport env event in
    (result, Some group, mkBxlObserver (disposed_ o) (cache_ o) (checked o ++ [event]))
  else (sNotChecked, None, o).

(** [create_access_internal]; a null [secondPath] is [None]. *)
Definition create_access_internal (env : observer_env) (syscallName : string)
    (eventType : es_event_type_t) (reportPath : string) (secondPath : option string)
    (mode : Z) (checkCache : bool) (o : BxlObserver)
  : AccessCheckResult * option AccessReportGroup * BxlObserver :=
  let secondPath := match secondPath with None => EmptyString | Some p => p end in
  let '(hit, o) :=
    if checkCache then IsCacheHit env eventType reportPath secondPath o
    else (false, o) in
  if hit then (sNotChecked, None, o)
  else
    let mode := if mode =? 0 then get_mode env reportPath else mode in
    if is_non_file mode then (sNotChecked, None, o)
    else
      let execPath :=
        if bool_decide (eventType = ES_EVENT_TYPE_NOTIFY_EXEC) then reportPath
        else progFullPath_ env in
      let event :=
        IOEvent_proc (obs_getpid env) 0 (obs_getppid env) eventType
                     reportPath secondPath execPath mode None in
      create_access_event env syscallName event false o.

(** *** Send, SendReport *)

Inductive fatal : Set :=
| open_not_found            (* syscall 'open' not found *)
| buffer_exceeds_PIPE_BUF   (* Cannot atomically send a buffer ... *)
| cannot_open_reports       (* Could not open file *)
| short_write               (* Wrote only %ld bytes out of %ld *)
| message_truncated.        (* Message truncated to fit PIPE_BUF *)

(** What one [write] to the report sink was asked to carry: the length
    prefix, the path text the message was built from, and the byte count. *)
Record wire : Type := mkWire {
  wire_prefix : Z;
  wire_path : string;
  wire_bufsiz : Z
}.

Inductive result : Type :=
| Returns (b : bool) (written : list wire)
| Fatal (why : fatal)
| Undefined.       (* an array of non-positive size *)

Record sink_env : Type := {
  real_open_found : bool;      (* the [real_open] pointer is not null *)
  real_open_result : Z;        (* the descriptor, -1 on failure *)
  real_write_result : Z -> Z   (* the return of [write] for a byte count *)
}.

(** [Send]; [bufsiz] is [size_t], [numWritten] is [ssize_t] and is converted
    to [size_t] for the comparison with [bufsiz]. *)
Definition Send (env : sink_env) (buf : Z * string) (bufsiz : Z) : result :=
  if negb (real_open_found env) then Fatal open_not_found
  else if bufsiz >? Linux.PIPE_BUF then Fatal buffer_exceeds_PIPE_BUF
  else
    let logFd := real_open_result env in
    if logFd =? -1 then Fatal cannot_open_reports
    else
      let numWritten := real_write_result env bufsiz in
      if to_uint64 numWritten <? bufsiz then Fatal short_write
      else Returns true [mkWire buf.1 buf.2 bufsiz].

(** [strncpy(truncatedMessage, report.path, n)] into a zeroed array. *)
Definition strncpy_path (p : string) (n : Z) : string :=
  substring 0 (Z.to_nat n) p.

Section SendReport.
(** [BuildReport] is declared elsewhere: it formats the report with the
    given path text into at most [maxMessageLength] bytes and returns the
    length the full text has. *)
Variable BuildReport : Z -> AccessReport -> string -> Z.

Definition SendReport (env : sink_env) (report : AccessReport)
    (isDebugMessage : bool) : result :=
  if bool_decide (operation report = kOpProcessTreeCompleted) then Returns true []
  else
    let PrefixLength := 4 in
    let maxMessageLength := Linux.PIPE_BUF - PrefixLength in
    let numWritten := BuildReport maxMessageLength report (path report) in
    if numWritten >=? maxMessageLength then
      if negb isDebugMessage then Fatal message_truncated
      else
        let truncatedSize := Linux.PATH_MAX - (numWritten - maxMessageLength) in
        if truncatedSize <=? 0 then Undefined
        else
          let truncatedMessage := strncpy_path (path report) (truncatedSize - 1) in
          let numWritten := BuildReport maxMessageLength report truncatedMessage in
          Send env (to_uint32 numWritten, truncatedMessage)
               (to_uint64 (Z.min (numWritten + PrefixLength) Linux.PIPE_BUF))
    else
      Send env (to_uint32 numWritten, path report)
           (to_uint64 (Z.min (numWritten + PrefixLength) Linux.PIPE_BUF)).
End SendReport.

(** *** resolve_path

    The buffer is the bytes before its NUL ([fullpath]) and the scan pointer
    is an index into it ([pFullpath]; the NUL is at index [length fullpath]).
    Stores that leave [readlinkBuf] or the caller's array, and a scan that
    runs off the front of the buffer, end the run with a memory fault. *)

Definition slash : ascii := "/"%char.
Definition dot : ascii := "."%char.

Definition is_char (c : ascii) (o : option ascii) : bool :=
  match o with
  | Some c' => Ascii.eqb c' c
  | None => false
  end.

(** The terminating NUL. *)
Definition is_nul (o : option ascii) : bool :=
  match o with
  | Some _ => false
  | None => true
  end.

(** [find_prev_slash]: step back, then test, until a slash is read; the
    result is the index of the last slash before [p]. *)
Fixpoint find_prev_slash (s : list ascii) (p : nat) : option nat :=
  match p with
  | O => None
  | S p' => if is_char slash (s !! p') then Some p' else find_prev_slash s p'
  end.

(** [shift_left(str, n)] with [str] at index [from]: the tail from [from]
    (with its NUL) moves [n] places down. *)
Definition shift_left (s : list ascii) (from n : nat) : list ascii :=
  take (from - n) s ++ drop from s.

Inductive memory_fault : Set :=
| scan_before_buffer        (* find_prev_slash found no slash *)
| readlinkBuf_store         (* a store past readlinkBuf[PATH_MAX - 1] *)
| readlinkBuf_load          (* readlinkBuf[-1] *)
| fullpath_store.           (* a store past the caller's array *)

Record resolve_state : Type := mkResolve {
  fullpath : list ascii;
  pFullpath : nat;
  visited : gset (list ascii);
  readlink_reports : list (list ascii)   (* report_access_internal("_readlink", ...) *)
}.

Inductive resolve_step : Type :=
| Again (st : resolve_state)      (* continue *)
| Stop (st : resolve_state)       (* break *)
| Faulted (why : memory_fault).

Inductive resolve_result : Type :=
| Resolved (path : list ascii) (reports : list (list ascii))
| MemoryFault (why : memory_fault)
| ResolveOutOfFuel.

Section resolve_path.
(** [real_readlink]: the target when the path names a symbolic link. *)
Variable real_readlink : list ascii -> option (list ascii).
(** The size of the array the caller passes as [fullpath]. *)
Variable capacity : nat.
Variable followFinalSymlink : bool.

Definition PATH_MAX_nat : nat := Z.to_nat Linux.PATH_MAX.

(** The [readlink] of the loop body: made at a slash, and at the final NUL
    when the last component is to be followed, on the text before the scan
    pointer; [None] is the -1 that [nReadlinkBuf] starts with and that a
    failed call returns. *)
Definition readlink_at (st : resolve_state) : option (list ascii) :=
  let s := fullpath st in
  let p := pFullpath st in
  let ch := s !! p in
  if is_char slash ch || (is_nul ch && followFinalSymlink)
  then real_readlink (take p s) else None.

(** The part of the loop body after the dot-segment cases. *)
Definition resolve_link (st : resolve_state) : resolve_step :=
  let s := fullpath st in
  let p := pFullpath st in
  let ch := s !! p in
  let nReadlinkBuf := readlink_at st in
  match nReadlinkBuf with
  | None =>
      if is_nul ch then Stop st
      else Again (mkResolve s (S p) (visited st) (readlink_reports st))
  | Some target =>
      let readlinkBuf := take PATH_MAX_nat target in
      let n := length readlinkBuf in
      if (PATH_MAX_nat <=? n)%nat then Faulted readlinkBuf_store
      else
        let prefix := take p s in
        if bool_decide (prefix ∈ visited st)
        then Stop (mkResolve prefix p (visited st) (readlink_reports st))
        else
          let visited' := {[prefix]} ∪ visited st in
          let reports' := readlink_reports st ++ [prefix] in
          if (n =? 0)%nat then Faulted readlinkBuf_load
          else
            let rest :=
              if is_char slash (last readlinkBuf) && is_char slash ch
              then drop (S p) s else drop p s in
            if (PATH_MAX_nat <? n + length rest + 1)%nat then Faulted readlinkBuf_store
            else
              let readlinkBuf := readlinkBuf ++ rest in
              if is_char slash (head readlinkBuf) then
                if (capacity <? length readlinkBuf + 1)%nat then Faulted fullpath_store
                else Again (mkResolve readlinkBuf 1 visited' reports')
              else
                match find_prev_slash s p with
                | None => Faulted scan_before_buffer
                | Some q =>
                    if (capacity <? S q + length readlinkBuf + 1)%nat
                    then Faulted fullpath_store
                    else Again (mkResolve (take (S q) s ++ readlinkBuf) (S q)
                                          visited' reports')
                end
  end.

(** One iteration of the [while (true)] loop. *)
Definition resolve_body (st : resolve_state) : resolve_step :=
  let s := fullpath st in
  let p := pFullpath st in
  let moved s' p' := Again (mkResolve s' p' (visited st) (readlink_reports st)) in
  if is_char slash (s !! p) then
    match find_prev_slash s p with
    | None => Faulted scan_before_buffer
    | Some pPrevSlash =>
        let parentDirLen := (p - pPrevSlash - 1)%nat in
        if (parentDirLen =? 0)%nat then
          moved (shift_left s (S p) 1) p
        else if (parentDirLen =? 1)%nat && is_char dot (s !! (p - 1)%nat) then
          moved (shift_left s (S p) 2) (p - 1)%nat
        else if (parentDirLen =? 2)%nat && is_char dot (s !! (p - 1)%nat)
                && is_char dot (s !! (p - 2)%nat) then
          match (if (0 <? pPrevSlash)%nat then find_prev_slash s pPrevSlash
                 else Some pPrevSlash) with
          | None => Faulted scan_before_buffer
          | Some pPrevSlash =>
              let shiftLen := (p - pPrevSlash)%nat in
              moved (shift_left s (S p) shiftLen) (S pPrevSlash)
          end
        else resolve_link st
    end
  else resolve_link st.

Fixpoint resolve_loop (fuel : nat) (st : resolve_state) : resolve_result :=
  match fuel with
  | O => ResolveOutOfFuel
  | S fuel' =>
      match resolve_body st with
      | Again st' => resolve_loop fuel' st'
      | Stop st' => Resolved (fullpath st') (readlink_reports st')
      | Faulted why => MemoryFault why
      end
  end.

(** [resolve_path]; a path that does not start with a slash is logged and
    left as it is. *)
Definition resolve_path (fuel : nat) (path : list ascii) : resolve_result :=
  if negb (is_char slash (head path)) then Resolved path []
  else resolve_loop fuel (mkResolve path 1 ∅ []).
End resolve_path.


(** ** Inputs and abbreviations used in the statements *)

Definition regular_file_0644 : Z := Z.lor Linux.S_IFREG 420.

Definition with_return_register (rax : Z) : tracee_state :=
  {| peekuser := fun off => if off =? sizeof_long * RAX then rax else 0;
     peektext := fun _ => -1 |}.

Definition tracee_with_string (pointer : Z) (mem : Z -> Z) : tracee_state :=
  {| peekuser := fun _ => pointer; peektext := mem |}.

(** Eight bytes [A]. *)
Definition AAAAAAAA : Z := 4702111234474983745.

Definition mutation_event (e : es_event_type_t) : bool :=
  match e with
  | ES_EVENT_TYPE_NOTIFY_TRUNCATE | ES_EVENT_TYPE_NOTIFY_SETATTRLIST
  | ES_EVENT_TYPE_NOTIFY_SETEXTATTR | ES_EVENT_TYPE_NOTIFY_DELETEEXTATTR
  | ES_EVENT_TYPE_NOTIFY_SETFLAGS | ES_EVENT_TYPE_NOTIFY_SETOWNER
  | ES_EVENT_TYPE_NOTIFY_SETMODE | ES_EVENT_TYPE_NOTIFY_WRITE
  | ES_EVENT_TYPE_NOTIFY_UTIMES | ES_EVENT_TYPE_NOTIFY_SETTIME
  | ES_EVENT_TYPE_NOTIFY_SETACL => true
  | _ => false
  end.

Definition never_cached (e : es_event_type_t) : bool :=
  match e with
  | ES_EVENT_TYPE_NOTIFY_FORK | ES_EVENT_TYPE_NOTIFY_EXEC
  | ES_EVENT_TYPE_NOTIFY_EXIT => true
  | _ => false
  end.

Definition quiet_env : observer_env :=
  {| obs_getpid := 4001; obs_getppid := 4000; progFullPath_ := "/usr/bin/tool";
     IsEnabled := true; try_lock_for := true;
     get_mode := fun _ => 0;
     CheckAccessAndBuildReport := fun e =>
       (Checked 1 false 1,
        let r := mkAccessReport (kOpOther 0) 4001 4001 1 0 1 0 0 (GetSrcPath e) 0 true in
        {| firstReport := r; secondReport := r |}) |}.

Definition fresh_observer : BxlObserver := mkBxlObserver false ∅ [].


(** The event [create_access_internal] builds for a path and a mode. *)
Definition access_event (env : observer_env) (eventType : es_event_type_t)
    (reportPath : string) (secondPath : option string) (m : Z) : IOEvent :=
  IOEvent_proc (obs_getpid env) 0 (obs_getppid env) eventType reportPath
    (default EmptyString secondPath)
    (if bool_decide (eventType = ES_EVENT_TYPE_NOTIFY_EXEC) then reportPath
     else progFullPath_ env) m None.

(** The cache step of [create_access_internal]: the answer and the observer
    after it. *)
Definition cache_consulted (env : observer_env) (eventType : es_event_type_t)
    (reportPath : string) (secondPath : option string) (checkCache : bool)
    (o : BxlObserver) : bool * BxlObserver :=
  if checkCache then IsCacheHit env eventType reportPath (default EmptyString secondPath) o
  else (false, o).

(** A report sink whose [open] succeeds and whose [write] returns what the
    given function says. *)
Definition sink_writing (written : Z -> Z) : sink_env :=
  {| real_open_found := true; real_open_result := 3; real_write_result := written |}.

(** A formatter in the style of [snprintf]: a fixed header, then the path. *)
Definition header_and_path (header : Z) (max : Z) (r : AccessReport) (text : string) : Z :=
  header + Z.of_nat (String.length text).

Definition debug_report (text : string) : AccessReport :=
  mkAccessReport kOpDebugMessage 4001 4001 1 0 0 0 0 text 0 true.

Definition access_report (text : string) : AccessReport :=
  mkAccessReport (kOpOther 7) 4001 4001 1 0 1 0 0 text 0 true.

(** [n] bytes [a]. *)
Definition long_text (n : nat) : string := string_of_list_ascii (repeat "a"%char n).

(** A status with which [wait] reports the end of a tracee: exited, killed
    by a signal, or stopped at PTRACE_EVENT_EXIT. *)
Definition is_exit_status (status : Z) : bool :=
  Linux.WIFEXITED status
  || Linux.WIFSIGNALED status
  || (Linux.WIFSTOPPED status && is_event status Linux.PTRACE_EVENT_EXIT).

Definition is_exit_of (pid : Z) (w : wait_result) : bool := w_pid w =? pid.

Definition is_exitnotification (e : effect) : bool :=
  match e with
  | mq_send_exitnotification _ => true
  | _ => false
  end.

(** The reports: what goes to the reports file, not to a tracee or to the
    daemon. *)
Definition is_report (e : effect) : bool :=
  match e with
  | report_access_event _ _ _ | report_access_path _ _ _ _ _ _ _ _
  | report_access_at _ _ _ _ _ _ _ _ | ExitReport _ => true
  | _ => false
  end.

(** The number of exit notifications sent on the message queue. *)
Definition exitnotifications (es : list effect) : nat :=
  length (List.filter is_exitnotification es).

(** Stop of [pid] at PTRACE_EVENT_CLONE; the event message is the new pid. *)
Definition clone_stop (pid msg : Z) : wait_result :=
  {| w_pid := pid;
     w_status := Z.lor (Z.shiftl (Z.lor Linux.SIGTRAP (Z.shiftl Linux.PTRACE_EVENT_CLONE 8)) 8) 127;
     w_eventmsg := msg;
     w_orig_rax := 56 |}.

(** Stop of [pid] at PTRACE_EVENT_EXIT, and its exit with status 0. *)
Definition exit_stop (pid : Z) : wait_result :=
  {| w_pid := pid;
     w_status := Z.lor (Z.shiftl (Z.lor Linux.SIGTRAP (Z.shiftl Linux.PTRACE_EVENT_EXIT 8)) 8) 127;
     w_eventmsg := 0;
     w_orig_rax := 231 |}.

Definition exited (pid : Z) : wait_result :=
  {| w_pid := pid; w_status := 0; w_eventmsg := 0; w_orig_rax := 0 |}.

(** Every byte. *)
Definition all_ascii : list ascii := List.map ascii_of_nat (seq 0 256).

(** The strings of at most [n] bytes: what a buffer of that size can hold. *)
Fixpoint words_upto (n : nat) : list (list ascii) :=
  match n with
  | O => [[]]
  | S n' => [] :: flat_map (fun w => List.map (fun c => c :: w) all_ascii) (words_upto n')
  end.

Definition bounded_paths (n : nat) : gset (list ascii) := list_to_set (words_upto n).

(** The scan pointer is within the string or on its NUL, and the string is
    at most [n] bytes long. *)
Definition scan_in_bounds (n : nat) (st : resolve_state) : Prop :=
  (pFullpath st <= length (fullpath st) <= n)%nat.

(** What is left of a scan that meets no symbolic link. *)
Definition scan_measure (st : resolve_state) : nat :=
  (2 * length (fullpath st) - pFullpath st)%nat.

(** The strings of at most [n] bytes that are not yet in the visited set. *)
Definition unvisited (n : nat) (st : resolve_state) : nat :=
  size (bounded_paths n ∖ visited st).

(** One iteration either shortens the scan or visits a new link. *)
Definition progress (n : nat) (st st' : resolve_state) : Prop :=
  scan_in_bounds n st'
  /\ ((visited st' = visited st /\ (scan_measure st' < scan_measure st)%nat)
      \/ (unvisited n st' < unvisited n st)%nat).

Definition chars (s : string) : list ascii := list_ascii_of_string s.

(** A file system whose only symbolic link is [/x], which points to [/x]. *)
Definition self_link (p : list ascii) : option (list ascii) :=
  if bool_decide (p = chars "/x") then Some (chars "/x") else None.

(** A file system whose only symbolic link is [/d/x], which points to [x]:
    to itself, by a relative path. *)
Definition relative_self_link (p : list ascii) : option (list ascii) :=
  if bool_decide (p = chars "/d/x") then Some (chars "x") else None.

(** A file system whose only symbolic link is [/l]; its target is a slash
    followed by 199 letters, 200 bytes in all. *)
Definition long_target : list ascii := slash :: repeat "b"%char 199.

Definition long_link (p : list ascii) : option (list ascii) :=
  if bool_decide (p = chars "/l") then Some long_target else None.

(** [/l/] followed by 3999 letters: a path of 4002 bytes. *)
Definition path_through_long_link : list ascii := chars "/l/" ++ repeat "a"%char 3999.
From Stdlib Require Import DecimalString.

(** * The rest of the observer and of the tracer *)

(** ** Sequences of cache look-ups *)

(** The path is in the set the cache holds for the key. *)
Definition cached (o : BxlObserver) (key : es_event_type_t) (p : string) : Prop :=
  p ∈ default ∅ (cache_ o !! key).

(** The arguments of one call of [IsCacheHit]. *)
Definition cache_call : Type := es_event_type_t * string * string.

(** The observer after a sequence of calls of [IsCacheHit]. *)
Definition IsCacheHit_calls (env : observer_env) (calls : list cache_call)
    (o : BxlObserver) : BxlObserver :=
  fold_left (fun o c => (IsCacheHit env c.1.1 c.1.2 c.2 o).2) calls o.

(** The arguments of one call of [create_access_internal] that consults the
    cache and has no second path: the event type, the path and the mode. *)
Definition access_call : Type := es_event_type_t * string * Z.

(** The observer after a sequence of such calls. *)
Definition create_access_calls (env : observer_env) (syscallName : string)
    (calls : list access_call) (o : BxlObserver) : BxlObserver :=
  fold_left
    (fun o c => (create_access_internal env syscallName c.1.1 c.1.2 None c.2 true o).2)
    calls o.

(** What the cache tells accesses apart by: the key of the event and the
    path. *)
Definition cache_entry (event : IOEvent) : es_event_type_t * string :=
  (cache_key (GetEventType event), GetSrcPath event).

(** The events the cache applies to. *)
Definition cacheable (event : IOEvent) : bool :=
  negb (never_cached (GetEventType event)).


(** What a sequence of calls keeps: the cacheable events handed to the
    policy engine differ in key or path, and each of them is in the cache. *)
Definition deduplicated (o : BxlObserver) : Prop :=
  NoDup (List.map cache_entry (List.filter cacheable (checked o)))
  /\ forall ev, ev ∈ checked o -> cacheable ev = true ->
                cached o (cache_key (GetEventType ev)) (GetSrcPath ev).

(** ** SendReport for a report group *)

Section SendReportGroup.
Variable BuildReport : Z -> AccessReport -> string -> Z.
(** The default of [isDebugMessage] in the declaration of [SendReport]. *)
Variable isDebugMessage_default : bool.

(** [SendReport(const AccessReportGroup&)]: [result &= SendReport(...)] for
    each member whose [shouldReport] is set; a fatal send ends the process. *)
Definition SendReportGroup (env : sink_env) (report : AccessReportGroup) : result :=
  let first :=
    if shouldReport (firstReport report)
    then SendReport BuildReport env (firstReport report) isDebugMessage_default
    else Returns true [] in
  match first with
  | Returns result written =>
      let second :=
        if shouldReport (secondReport report)
        then SendReport BuildReport env (secondReport report) isDebugMessage_default
        else Returns true [] in
      match second with
      | Returns b written' => Returns (result && b) (written ++ written')
      | stopped => stopped
      end
  | stopped => stopped
  end.
End SendReportGroup.

(** ** Symbolic-link resolution: invariants and canonical paths *)

(** What every iteration of the loop of [resolve_path] keeps: the buffer
    starts with a slash, the scan pointer is inside the text and past that
    slash, and the [_readlink] reports are the visited prefixes, each once. *)
Definition resolve_invariant (st : resolve_state) : Prop :=
  is_char slash (fullpath st !! 0%nat) = true
  /\ (1 <= pFullpath st <= length (fullpath st))%nat
  /\ NoDup (readlink_reports st)
  /\ (forall x, x ∈ readlink_reports st <-> x ∈ visited st).

(** A path component that the loop leaves alone: not empty, without a
    slash, and neither [.] nor [..]. *)
Definition plain_component (c : list ascii) : Prop :=
  c <> [] /\ (slash ∉ c) /\ c <> [dot] /\ c <> [dot; dot].

(** The absolute path with the given components: a slash before each. *)
Definition join_components (comps : list (list ascii)) : list ascii :=
  concat (List.map (cons slash) comps).

(** A file system without symbolic links. *)
Definition no_links (p : list ascii) : option (list ascii) := None.

(** What the loop does with the component before a slash: an empty one and
    [.] are dropped, [..] drops the component before it, any other is
    kept. *)
Definition collapse (done : list (list ascii)) (c : list ascii) : list (list ascii) :=
  if bool_decide (c = []) || bool_decide (c = [dot]) then done
  else if bool_decide (c = [dot; dot]) then removelast done
  else done ++ [c].

(** The path [resolve_path] makes of a path without symbolic links: the
    components before the last are collapsed from left to right, the last is
    left as it is. *)
Fixpoint collapsed (done : list (list ascii)) (c : list ascii)
    (more : list (list ascii)) : list ascii :=
  match more with
  | [] => join_components done ++ slash :: c
  | c' :: more' => collapsed (collapse done c) c' more'
  end.


(** ** LogDebug *)

Definition MAXPATHLEN : Z := Linux.PATH_MAX.



Section LogDebug.
Variable BuildReport : Z -> AccessReport -> string -> Z.
(** [(int)RequestedAccess::Read] and [FileAccessStatus_Allowed], declared
    elsewhere. *)
Variable RequestedAccess_Read : Z.
Variable FileAccessStatus_Allowed : Z.

End LogDebug.


(** ** The processes traced by force, and the statically linked ones *)

Definition semicolon : ascii := ";"%char.

(** The loop of the constructor over the value of the environment variable:
    [rest] is the text from [end] on, [current] the text between [start] and
    [end]; at a semicolon the text between the two is added to the list and
    [start] moves past it, and the text left at the NUL is added last. *)
Fixpoint split_names (rest current : string) (names : list string) : list string :=
  match rest with
  | EmptyString => names ++ [current]
  | String c rest' =>
      if Ascii.eqb c semicolon
      then split_names rest' EmptyString (names ++ [current])
      else split_names rest' (current ++ String c EmptyString) names
  end.

(** [forcedPTraceProcessNames_] as the constructor leaves it; [None] is an
    unset variable. *)
Definition forcedPTraceProcessNames_ (forcedprocesses : option string) : list string :=
  match forcedprocesses with
  | None | Some EmptyString => []
  | Some value => split_names value EmptyString []
  end.

Record ptrace_env : Type := {
  (* CheckUnconditionallyEnableLinuxPTraceSandbox(pip_->GetFamExtraFlags()) *)
  unconditionally_enabled : bool;
  (* CheckEnableLinuxPTraceSandbox(pip_->GetFamExtraFlags()) *)
  enabled : bool;
  forced_names : list string;          (* forcedPTraceProcessNames_ *)
  basename : string -> string;
  st_mtim_tv_sec : string -> Z;        (* of the lstat of the path *)
  is_statically_linked : string -> bool
}.

Definition IsPTraceForced (env : ptrace_env) (path : string) : bool :=
  if (length (forced_names env) =? 0)%nat then false
  else bool_decide (basename env path ∈ forced_names env).

(** [std::find_if] over [staticallyLinkedProcessCache_]: the first entry
    with the key. *)
Definition find_process (key : string) (cache : list (string * bool))
  : option (string * bool) :=
  List.find (fun item => String.eqb item.1 key) cache.

(** [std::to_string] of a [long]: decimal, with a minus sign when
    negative. *)
Definition to_string (value : Z) : string :=
  NilZero.string_of_int (Z.to_int value).

(** The key of the cache: the modification time, a colon, the path. *)
Definition process_key (env : ptrace_env) (path : string) : string :=
  (to_string (st_mtim_tv_sec env path) ++ ":" ++ path)%string.

Section statically_linked.
Variable BuildReport : Z -> AccessReport -> string -> Z.
Variable isDebugMessage_default : bool.
(** [(int) RequestedAccess::Read], [FileAccessStatus_Allowed] and
    [(int) ReportLevel::Report], declared elsewhere. *)
Variable RequestedAccess_Read : Z.
Variable FileAccessStatus_Allowed : Z.
Variable ReportLevel_Report : Z.

(** The report both branches build; [strlcpy] keeps what fits the array. *)
Definition statically_linked_report (pid rootPid pipId : Z) (path : string)
  : AccessReport :=
  mkAccessReport kOpStaticallyLinkedProcess pid rootPid RequestedAccess_Read
    FileAccessStatus_Allowed ReportLevel_Report 0 pipId
    (substring 0 (Z.to_nat (MAXPATHLEN - 1)) path) 0 true.

(** What a call leaves behind: its answer, the cache, and what was written
    to the report sink; a fatal send ends the process. *)
Inductive checked_process : Type :=
| Answered (answer : bool) (cache : list (string * bool)) (written : list wire)
| Ended (why : fatal)
| UndefinedSend.

(** [check_and_report_statically_linked_process(const char *path)]. *)
Definition check_and_report_statically_linked_process (env : ptrace_env)
    (sink : sink_env) (pid rootPid pipId : Z) (path : string)
    (staticallyLinkedProcessCache_ : list (string * bool)) : checked_process :=
  let cache := staticallyLinkedProcessCache_ in
  let send (answer : bool) (cache : list (string * bool)) :=
    match SendReport BuildReport sink (statically_linked_report pid rootPid pipId path)
            isDebugMessage_default with
    | Returns _ written => Answered answer cache written
    | Fatal why => Ended why
    | Undefined => UndefinedSend
    end in
  if unconditionally_enabled env then Answered true cache []
  else if negb (enabled env) then Answered false cache []
  else if IsPTraceForced env path then send true cache
  else
    let key := process_key env path in
    match find_process key cache with
    | Some maybeProcess => Answered maybeProcess.2 cache []
    | None =>
        let isStaticallyLinked := is_statically_linked env path in
        if isStaticallyLinked then send true (cache ++ [(key, true)])
        else Answered false (cache ++ [(key, false)]) []
    end.
End statically_linked.

(** A name that holds no semicolon. *)
Definition without_semicolon (name : string) : Prop :=
  semicolon ∉ list_ascii_of_string name.

(** The number of semicolons of a text. *)
Definition semicolons (text : string) : nat :=
  length (filter (fun c => c = semicolon) (list_ascii_of_string text)).

(** A pip with the ptrace sandbox enabled and no forced names, and an
    executable last modified at the given second. *)
Definition busybox_env (linked : bool) : ptrace_env :=
  {| unconditionally_enabled := false; enabled := true; forced_names := [];
     basename := fun p => p; st_mtim_tv_sec := fun _ => 1700000000;
     is_statically_linked := fun _ => linked |}.

(** ** The file descriptor table *)

Module FdTable.

Record fd_state : Type := mkFdState {
  useFdTable_ : bool;
  fdTable_ : list (list ascii)     (* std::string fdTable_[MAX_FD] *)
}.

(** What [fd_to_path] returns, with the table as it leaves it.  The local
    array [path] is zeroed and has [PATH_MAX] bytes: if [readlink] fills it
    there is no NUL for the conversion to [std::string] to stop at. *)
Inductive fd_path : Type :=
| FdPath (path : list ascii) (st : fd_state)
| PathNotTerminated.

Definition disable_fd_table (st : fd_state) : fd_state :=
  mkFdState false (fdTable_ st).

(** The [sprintf] of [read_path_for_fd]. *)
Definition procPath (fd associatedPid : Z) : list ascii :=
  chars (if associatedPid =? 0
         then ("/proc/self/fd/" ++ to_string fd)%string
         else ("/proc/" ++ to_string associatedPid ++ "/fd/" ++ to_string fd)%string).

Section fd_table.
(** The size of the table, declared elsewhere. *)
Variable MAX_FD : Z.
(** [real_readlink]: the target of a link, of which [bufsiz] bytes are
    copied; [None] is the return of -1. *)
Variable real_readlink : list ascii -> option (list ascii).

Definition read_path_for_fd (fd : Z) (bufsiz : nat) (associatedPid : Z)
  : option (list ascii) :=
  option_map (take bufsiz) (real_readlink (procPath fd associatedPid)).

Definition reset_fd_table_entry (fd : Z) (st : fd_state) : fd_state :=
  if (0 <=? fd) && (fd <? MAX_FD)
  then mkFdState (useFdTable_ st) (<[Z.to_nat fd := []]> (fdTable_ st))
  else st.

Definition reset_fd_table (st : fd_state) : fd_state :=
  mkFdState (useFdTable_ st) (replicate (Z.to_nat MAX_FD) []).

(** [fd_to_path]; an entry is read only for [0 <= fd < MAX_FD]. *)
Definition fd_to_path (fd associatedPid : Z) (st : fd_state) : fd_path :=
  let read (store : bool) :=
    match read_path_for_fd fd PATH_MAX_nat associatedPid with
    | None => FdPath [] st
    | Some path =>
        if (length path <? PATH_MAX_nat)%nat then
          FdPath path
            (if store && useFdTable_ st
             then mkFdState (useFdTable_ st) (<[Z.to_nat fd := path]> (fdTable_ st))
             else st)
        else PathNotTerminated
    end in
  if (fd <? 0) || (fd >=? MAX_FD) then read false
  else
    let entry := default [] (fdTable_ st !! Z.to_nat fd) in
    if useFdTable_ st && (0 <? length entry)%nat then FdPath entry st
    else read true.
End fd_table.
End FdTable.

(** ** normalize_path_at *)

Inductive normalize_result : Type :=
| NormalizedTo (path : list ascii) (readlink_reports : list (list ascii))
               (st : FdTable.fd_state)
| NormalizeFatal                      (* no working directory, or an empty one *)
| NormalizeFault (why : memory_fault)
| NormalizeNotTerminated
| NormalizeOutOfFuel.

Section normalize_path_at.
Variable MAX_FD : Z.
Variable real_readlink : list ascii -> option (list ascii).
(** [getcurrentworkingdirectory]: the text it leaves in the buffer, [None]
    when it returns false. *)
Variable getcurrentworkingdirectory : Z -> option (list ascii).

(** The text [fullpath] holds before [resolve_path] runs on it; the array
    has [PATH_MAX] bytes and [strcpy] does not look at its size. *)
Definition normalize_fullpath (dirfd : Z) (pathname : list ascii) (associatedPid : Z)
    (st : FdTable.fd_state) : normalize_result + (list ascii * FdTable.fd_state) :=
  let fits (text : list ascii) := (length text + 1 <=? PATH_MAX_nat)%nat in
  if negb (is_char slash (head pathname)) then
    let directory :=
      if dirfd =? Linux.AT_FDCWD then
        match getcurrentworkingdirectory associatedPid with
        | None => inl NormalizeFatal
        | Some cwd => inr (cwd, st)
        end
      else
        match FdTable.fd_to_path MAX_FD real_readlink dirfd associatedPid st with
        | FdTable.PathNotTerminated => inl NormalizeNotTerminated
        | FdTable.FdPath dirPath st =>
            if fits dirPath then inr (dirPath, st)
            else inl (NormalizeFault fullpath_store)
        end in
    match directory with
    | inl stopped => inl stopped
    | inr (directory, st) =>
        if (length directory <=? 0)%nat then inl NormalizeFatal
        else
          let fullpath := directory ++ slash :: pathname in
          if fits fullpath then inr (fullpath, st)
          else inl (NormalizeFault fullpath_store)
    end
  else
    if fits pathname then inr (pathname, st)
    else inl (NormalizeFault fullpath_store).

(** [normalize_path_at]; a null [pathname] is [None]. *)
Definition normalize_path_at (fuel : nat) (dirfd : Z) (pathname : option (list ascii))
    (oflags : Z) (associatedPid : Z) (st : FdTable.fd_state) : normalize_result :=
  match pathname with
  | None =>
      match FdTable.fd_to_path MAX_FD real_readlink dirfd associatedPid st with
      | FdTable.FdPath path st => NormalizedTo path [] st
      | FdTable.PathNotTerminated => NormalizeNotTerminated
      end
  | Some pathname =>
      match normalize_fullpath dirfd pathname associatedPid st with
      | inl stopped => stopped
      | inr (fullpath, st) =>
          let followFinalSymlink := Z.land oflags Linux.O_NOFOLLOW =? 0 in
          match resolve_path real_readlink PATH_MAX_nat followFinalSymlink fuel fullpath with
          | Resolved path reports => NormalizedTo path reports st
          | MemoryFault why => NormalizeFault why
          | ResolveOutOfFuel => NormalizeOutOfFuel
          end
      end
  end.
End normalize_path_at.

(** A table of eight descriptors in which descriptor 3 is [/work]. *)
Definition work_table : FdTable.fd_state :=
  FdTable.mkFdState true ([[]; []; []; chars "/work"; []; []; []; []]).

(** A table of eight empty entries. *)
Definition empty_table : FdTable.fd_state :=
  FdTable.mkFdState true (replicate 8 []).

(** A [/proc] in which descriptor 3 of the process itself is [/work]. *)
Definition proc_self_fd_3 (p : list ascii) : option (list ascii) :=
  if bool_decide (p = chars "/proc/self/fd/3") then Some (chars "/work") else None.

(** The relative path with the given components: a slash between them. *)
Definition relative_path (comps : list (list ascii)) : list ascii :=
  tail (join_components comps).

(** Where a relative path starts: the working directory for [AT_FDCWD], the
    path of the descriptor otherwise. *)
Definition starts_at (MAX_FD : Z) (real_readlink : list ascii -> option (list ascii))
    (getcurrentworkingdirectory : Z -> option (list ascii))
    (dirfd associatedPid : Z) (st : FdTable.fd_state)
    (directory : list ascii) (st' : FdTable.fd_state) : Prop :=
  if dirfd =? Linux.AT_FDCWD
  then getcurrentworkingdirectory associatedPid = Some directory /\ st' = st
  else FdTable.fd_to_path MAX_FD real_readlink dirfd associatedPid st
       = FdTable.FdPath directory st'.






(** ** EnumerateDirectory and the rename handlers *)

(** What the loop reads of a [struct dirent]. *)
Record dirent : Type := {
  d_name : string;
  is_DT_DIR : bool      (* d_type == DT_DIR *)
}.

(** The [while ((ent = real_readdir(dir)) != NULL)] loop over the entries of
    [currentDirectory]; the stack has its top first. *)
Definition read_entries (recursive : bool) (currentDirectory : string)
    (entries : list dirent) (directoriesToEnumerate filesAndDirectories : list string)
  : list string * list string :=
  fold_left
    (fun '(directoriesToEnumerate, filesAndDirectories) ent =>
       let fileOrDirectory := d_name ent in
       if String.eqb fileOrDirectory "." || String.eqb fileOrDirectory ".."
       then (directoriesToEnumerate, filesAndDirectories)
       else
         let fullPath := (currentDirectory ++ "/" ++ fileOrDirectory)%string in
         (if is_DT_DIR ent && recursive
          then fullPath :: directoriesToEnumerate else directoriesToEnumerate,
          filesAndDirectories ++ [fullPath]))
    entries (directoriesToEnumerate, filesAndDirectories).

Section EnumerateDirectory.
(** [real_opendir] and the entries [real_readdir] then gives; [None] is the
    null pointer of a failed [opendir]. *)
Variable real_opendir : string -> option (list dirent).

(** The [while (!directoriesToEnumerate.empty())] loop; the answer is the
    returned flag and [filesAndDirectories]. *)
Fixpoint enumerate_loop (fuel : nat) (recursive : bool)
    (directoriesToEnumerate filesAndDirectories : list string)
  : option (bool * list string) :=
  match fuel with
  | O => None
  | S fuel' =>
      match directoriesToEnumerate with
      | [] => Some (true, filesAndDirectories)
      | currentDirectory :: directoriesToEnumerate =>
          match real_opendir currentDirectory with
          | Some entries =>
              let '(directoriesToEnumerate, filesAndDirectories) :=
                read_entries recursive currentDirectory entries
                             directoriesToEnumerate filesAndDirectories in
              enumerate_loop fuel' recursive directoriesToEnumerate filesAndDirectories
          | None => Some (false, filesAndDirectories)
          end
      end
  end.

Definition EnumerateDirectory (fuel : nat) (rootDirectory : string) (recursive : bool)
  : option (bool * list string) :=
  enumerate_loop fuel recursive [rootDirectory] [rootDirectory].

(** [fileOrDirectory.replace(0, n, newStr)]: the first [n] characters (all
    of them when there are fewer) give way to [newStr]. *)
Definition replace_prefix (n : nat) (newStr fileOrDirectory : string) : string :=
  (newStr ++ substring n (String.length fileOrDirectory - n) fileOrDirectory)%string.

(** The body of the [for] loop of [HandleRenameGeneric]. *)
Definition report_renamed (get_mode : string -> Z) (env : tracer_env)
    (syscall oldStr newStr : string) (s : PTraceSandbox) (fileOrDirectory : string)
  : PTraceSandbox :=
  let mode := get_mode fileOrDirectory in
  let s := emit (report_access_path syscall ES_EVENT_TYPE_NOTIFY_UNLINK fileOrDirectory
                   mode Linux.O_NOFOLLOW 0 true (m_traceePid s)) s in
  let fileOrDirectory := replace_prefix (String.length oldStr) newStr fileOrDirectory in
  ReportOpen get_mode env fileOrDirectory Linux.O_CREAT syscall s.

(** [HandleRenameGeneric], given the two normalized paths; [None] when the
    enumeration runs out of fuel. *)
Definition HandleRenameGeneric (fuel : nat) (get_mode : string -> Z) (env : tracer_env)
    (syscall oldStr newStr : string) (s : PTraceSandbox) : option PTraceSandbox :=
  let mode := get_mode oldStr in
  if Linux.S_ISDIR mode then
    match EnumerateDirectory fuel oldStr true with
    | None => None
    | Some (enumerateResult, filesAndDirectories) =>
        if enumerateResult
        then Some (fold_left (report_renamed get_mode env syscall oldStr newStr)
                             filesAndDirectories s)
        else Some s
    end
  else
    let mode := get_mode oldStr in
    let s := emit (report_access_path syscall ES_EVENT_TYPE_NOTIFY_UNLINK oldStr mode
                     Linux.O_NOFOLLOW 0 true (m_traceePid s)) s in
    Some (ReportOpen get_mode env newStr Linux.O_CREAT syscall s).
End EnumerateDirectory.

(** The two reports the rename of one entry makes: the unlink of the source
    and the creation, or the open when it exists, of the destination. *)
Definition rename_reports (get_mode : string -> Z) (env : tracer_env)
    (syscall oldStr newStr : string) (pid : Z) (suffix : string) : list effect :=
  let source := (oldStr ++ suffix)%string in
  let destination := (newStr ++ suffix)%string in
  [report_access_path syscall ES_EVENT_TYPE_NOTIFY_UNLINK source (get_mode source)
     Linux.O_NOFOLLOW 0 true pid;
   report_access_event syscall
     (IOEvent_path
        (if get_mode destination =? 0 then ES_EVENT_TYPE_NOTIFY_CREATE
         else ES_EVENT_TYPE_NOTIFY_OPEN)
        destination (GetProgramPath env) (get_mode destination) "" 0) None].

(** A directory [/out] with a file and a subdirectory that holds a file. *)
Definition out_tree (directory : string) : option (list dirent) :=
  if String.eqb directory "/out" then
    Some [ {| d_name := "."; is_DT_DIR := true |};
           {| d_name := ".."; is_DT_DIR := true |};
           {| d_name := "a.o"; is_DT_DIR := false |};
           {| d_name := "sub"; is_DT_DIR := true |} ]
  else if String.eqb directory "/out/sub" then
    Some [ {| d_name := "b.o"; is_DT_DIR := false |} ]
  else None.

(** The path is the root directory followed by some text. *)
Definition under (rootDirectory fileOrDirectory : string) : Prop :=
  exists suffix, fileOrDirectory = (rootDirectory ++ suffix)%string.

(** The entries [.] and [..], which the loop skips. *)
Definition is_dots (ent : dirent) : bool :=
  String.eqb (d_name ent) "." || String.eqb (d_name ent) "..".

(** ** The seccomp filter and the dispatch on the system call number *)

(** <asm/unistd_64.h>: the numbers of the system calls the tracer names. *)
Module NR.
Definition __NR_execveat : Z := 322.
Definition __NR_execve : Z := 59.
Definition __NR_stat : Z := 4.
Definition __NR_lstat : Z := 6.
Definition __NR_fstat : Z := 5.
Definition __NR_newfstatat : Z := 262.
Definition __NR_access : Z := 21.
Definition __NR_faccessat : Z := 269.
Definition __NR_creat : Z := 85.
Definition __NR_open : Z := 2.
Definition __NR_openat : Z := 257.
Definition __NR_write : Z := 1.
Definition __NR_writev : Z := 20.
Definition __NR_pwritev : Z := 296.
Definition __NR_pwritev2 : Z := 328.
Definition __NR_pwrite64 : Z := 18.
Definition __NR_truncate : Z := 76.
Definition __NR_ftruncate : Z := 77.
Definition __NR_rmdir : Z := 84.
Definition __NR_rename : Z := 82.
Definition __NR_renameat : Z := 264.
Definition __NR_link : Z := 86.
Definition __NR_linkat : Z := 265.
Definition __NR_unlink : Z := 87.
Definition __NR_unlinkat : Z := 263.
Definition __NR_symlink : Z := 88.
Definition __NR_symlinkat : Z := 266.
Definition __NR_readlink : Z := 89.
Definition __NR_readlinkat : Z := 267.
Definition __NR_utime : Z := 132.
Definition __NR_utimes : Z := 235.
Definition __NR_utimensat : Z := 280.
Definition __NR_futimesat : Z := 261.
Definition __NR_mkdir : Z := 83.
Definition __NR_mkdirat : Z := 258.
Definition __NR_mknod : Z := 133.
Definition __NR_mknodat : Z := 259.
Definition __NR_chmod : Z := 90.
Definition __NR_fchmod : Z := 91.
Definition __NR_fchmodat : Z := 268.
Definition __NR_chown : Z := 92.
Definition __NR_fchown : Z := 93.
Definition __NR_lchown : Z := 94.
Definition __NR_fchownat : Z := 260.
Definition __NR_sendfile : Z := 40.
Definition __NR_copy_file_range : Z := 326.
Definition __NR_name_to_handle_at : Z := 303.
End NR.

(** <linux/bpf_common.h>, <linux/filter.h>, <linux/seccomp.h>. *)
Module BPF.
Definition BPF_LD : Z := 0.
Definition BPF_JMP : Z := 5.
Definition BPF_RET : Z := 6.
Definition BPF_W : Z := 0.
Definition BPF_ABS : Z := 32.
Definition BPF_JEQ : Z := 16.
Definition BPF_K : Z := 0.
Definition SECCOMP_RET_TRACE : Z := 2146435072.   (* 0x7ff00000 *)
Definition SECCOMP_RET_ALLOW : Z := 2147418112.   (* 0x7fff0000 *)

Record sock_filter : Type := {
  code : Z;   (* __u16 *)
  jt : Z;     (* __u8 *)
  jf : Z;     (* __u8 *)
  k : Z       (* __u32 *)
}.

Definition BPF_STMT (code k : Z) : sock_filter :=
  {| code := code; jt := 0; jf := 0; k := k |}.
Definition BPF_JUMP (code k jt jf : Z) : sock_filter :=
  {| code := code; jt := jt; jf := jf; k := k |}.

(** [struct seccomp_data]. *)
Record seccomp_data : Type := {
  nr : Z;                      (* int *)
  arch : Z;                    (* __u32 *)
  instruction_pointer : Z;     (* __u64 *)
  args : list Z                (* __u64 args[6] *)
}.

(** [offsetof(struct seccomp_data, nr)]. *)
Definition offsetof_nr : Z := 0.

(** The 32-bit word of the data at a byte offset, as [BPF_LD+BPF_W+BPF_ABS]
    loads it. *)
Definition load_word (data : seccomp_data) (offset : Z) : option Z :=
  let low (v : Z) := Z.land v 4294967295 in
  let high (v : Z) := Z.land (Z.shiftr v 32) 4294967295 in
  if offset =? 0 then Some (to_uint32 (nr data))
  else if offset =? 4 then Some (arch data)
  else if offset =? 8 then Some (low (instruction_pointer data))
  else if offset =? 12 then Some (high (instruction_pointer data))
  else if (16 <=? offset) && (offset <? 64) && (offset mod 4 =? 0) then
    let arg := nth (Z.to_nat ((offset - 16) / 8)) (args data) 0 in
    Some (if (offset - 16) mod 8 =? 0 then low arg else high arg)
  else None.

(** How the kernel runs a filter, for the three instructions this one is
    made of: a load of a word of the data into the accumulator, a jump on
    the equality of the accumulator and a constant, which skips [jt] or [jf]
    instructions, and a return of a constant.  [skip] instructions are
    passed over first; [None] is a program the kernel refuses. *)
Fixpoint run (prog : list sock_filter) (skip : nat) (A : Z) (data : seccomp_data)
  : option Z :=
  match prog with
  | [] => None
  | insn :: rest =>
      match skip with
      | S skip' => run rest skip' A data
      | O =>
          if code insn =? BPF_LD + BPF_W + BPF_ABS then
            match load_word data (k insn) with
            | Some word => run rest 0 word data
            | None => None
            end
          else if code insn =? BPF_JMP + BPF_JEQ + BPF_K then
            run rest (Z.to_nat (if A =? k insn then jt insn else jf insn)) A data
          else if code insn =? BPF_RET + BPF_K then Some (k insn)
          else None
      end
  end.
End BPF.

Module Seccomp.
Import NR BPF.

Definition TRACE_SYSCALL (number : Z) : list sock_filter :=
  [ BPF_JUMP (BPF_JMP + BPF_JEQ + BPF_K) number 0 1;
    BPF_STMT (BPF_RET + BPF_K) SECCOMP_RET_TRACE ].

(** The [filter] array of [ExecuteWithPTraceSandbox]. *)
Definition filter : list sock_filter :=
  [ BPF_STMT (BPF_LD + BPF_W + BPF_ABS) offsetof_nr ]
  ++ TRACE_SYSCALL __NR_execveat
  ++ TRACE_SYSCALL __NR_execve
  ++ TRACE_SYSCALL __NR_stat
  ++ TRACE_SYSCALL __NR_lstat
  ++ TRACE_SYSCALL __NR_fstat
  ++ TRACE_SYSCALL __NR_newfstatat
  ++ TRACE_SYSCALL __NR_access
  ++ TRACE_SYSCALL __NR_faccessat
  ++ TRACE_SYSCALL __NR_creat
  ++ TRACE_SYSCALL __NR_open
  ++ TRACE_SYSCALL __NR_openat
  ++ TRACE_SYSCALL __NR_write
  ++ TRACE_SYSCALL __NR_writev
  ++ TRACE_SYSCALL __NR_pwritev
  ++ TRACE_SYSCALL __NR_pwritev2
  ++ TRACE_SYSCALL __NR_pwrite64
  ++ TRACE_SYSCALL __NR_truncate
  ++ TRACE_SYSCALL __NR_ftruncate
  ++ TRACE_SYSCALL __NR_rmdir
  ++ TRACE_SYSCALL __NR_rename
  ++ TRACE_SYSCALL __NR_renameat
  ++ TRACE_SYSCALL __NR_link
  ++ TRACE_SYSCALL __NR_linkat
  ++ TRACE_SYSCALL __NR_unlink
  ++ TRACE_SYSCALL __NR_unlinkat
  ++ TRACE_SYSCALL __NR_symlink
  ++ TRACE_SYSCALL __NR_symlinkat
  ++ TRACE_SYSCALL __NR_readlink
  ++ TRACE_SYSCALL __NR_readlinkat
  ++ TRACE_SYSCALL __NR_utime
  ++ TRACE_SYSCALL __NR_utimes
  ++ TRACE_SYSCALL __NR_utimensat
  ++ TRACE_SYSCALL __NR_futimesat
  ++ TRACE_SYSCALL __NR_mkdir
  ++ TRACE_SYSCALL __NR_mkdirat
  ++ TRACE_SYSCALL __NR_mknod
  ++ TRACE_SYSCALL __NR_mknodat
  ++ TRACE_SYSCALL __NR_chmod
  ++ TRACE_SYSCALL __NR_fchmod
  ++ TRACE_SYSCALL __NR_fchmodat
  ++ TRACE_SYSCALL __NR_chown
  ++ TRACE_SYSCALL __NR_fchown
  ++ TRACE_SYSCALL __NR_lchown
  ++ TRACE_SYSCALL __NR_fchownat
  ++ TRACE_SYSCALL __NR_sendfile
  ++ TRACE_SYSCALL __NR_copy_file_range
  ++ TRACE_SYSCALL __NR_name_to_handle_at
  ++ [ BPF_STMT (BPF_RET + BPF_K) SECCOMP_RET_ALLOW ].

(** The handlers, by the name of their system call. *)
Inductive handler : Set :=
| Handleexecveat
| Handleexecve
| Handlestat
| Handlelstat
| Handlefstat
| Handlenewfstatat
| Handleaccess
| Handlefaccessat
| Handlecreat
| Handleopen
| Handleopenat
| Handlewrite
| Handlewritev
| Handlepwritev
| Handlepwritev2
| Handlepwrite64
| Handletruncate
| Handleftruncate
| Handlermdir
| Handlerename
| Handlerenameat
| Handlelink
| Handlelinkat
| Handleunlink
| Handleunlinkat
| Handlesymlink
| Handlesymlinkat
| Handlereadlink
| Handlereadlinkat
| Handleutime
| Handleutimes
| Handleutimensat
| Handlefutimesat
| Handlemkdir
| Handlemkdirat
| Handlemknod
| Handlemknodat
| Handlechmod
| Handlefchmod
| Handlefchmodat
| Handlechown
| Handlefchown
| Handlelchown
| Handlefchownat
| Handlesendfile
| Handlecopy_file_range
| Handlename_to_handle_at.

(** [case __NR_name: Handlename(); break]: the labels are distinct, so the
    first one that matches is the one taken. *)
Definition CHECK_AND_CALL_HANDLER (syscallNumber number : Z) (h : handler)
    (otherwise : option handler) : option handler :=
  if syscallNumber =? number then Some h else otherwise.

(** The [switch] of [HandleSysCallGeneric]: the handler called, [None] for
    the [default] label, which only logs. *)
Definition HandleSysCallGeneric (syscallNumber : Z) : option handler :=
  CHECK_AND_CALL_HANDLER syscallNumber __NR_execveat Handleexecveat (
  CHECK_AND_CALL_HANDLER syscallNumber __NR_execve Handleexecve (
  CHECK_AND_CALL_HANDLER syscallNumber __NR_stat Handlestat (
  CHECK_AND_CALL_HANDLER syscallNumber __NR_lstat Handlelstat (
  CHECK_AND_CALL_HANDLER syscallNumber __NR_fstat Handlefstat (
  CHECK_AND_CALL_HANDLER syscallNumber __NR_newfstatat Handlenewfstatat (
  CHECK_AND_CALL_HANDLER syscallNumber __NR_access Handleaccess (
  CHECK_AND_CALL_HANDLER syscallNumber __NR_faccessat Handlefaccessat (
  CHECK_AND_CALL_HANDLER syscallNumber __NR_creat Handlecreat (
  CHECK_AND_CALL_HANDLER syscallNumber __NR_open Handleopen (
  CHECK_AND_CALL_HANDLER syscallNumber __NR_openat Handleopenat (
  CHECK_AND_CALL_HANDLER syscallNumber __NR_write Handlewrite (
  CHECK_AND_CALL_HANDLER syscallNumber __NR_writev Handlewritev (
  CHECK_AND_CALL_HANDLER syscallNumber __NR_pwritev Handlepwritev (
  CHECK_AND_CALL_HANDLER syscallNumber __NR_pwritev2 Handlepwritev2 (
  CHECK_AND_CALL_HANDLER syscallNumber __NR_pwrite64 Handlepwrite64 (
  CHECK_AND_CALL_HANDLER syscallNumber __NR_truncate Handletruncate (
  CHECK_AND_CALL_HANDLER syscallNumber __NR_ftruncate Handleftruncate (
  CHECK_AND_CALL_HANDLER syscallNumber __NR_rmdir Handlermdir (
  CHECK_AND_CALL_HANDLER syscallNumber __NR_rename Handlerename (
  CHECK_AND_CALL_HANDLER syscallNumber __NR_renameat Handlerenameat (
  CHECK_AND_CALL_HANDLER syscallNumber __NR_link Handlelink (
  CHECK_AND_CALL_HANDLER syscallNumber __NR_linkat Handlelinkat (
  CHECK_AND_CALL_HANDLER syscallNumber __NR_unlink Handleunlink (
  CHECK_AND_CALL_HANDLER syscallNumber __NR_unlinkat Handleunlinkat (
  CHECK_AND_CALL_HANDLER syscallNumber __NR_symlink Handlesymlink (
  CHECK_AND_CALL_HANDLER syscallNumber __NR_symlinkat Handlesymlinkat (
  CHECK_AND_CALL_HANDLER syscallNumber __NR_readlink Handlereadlink (
  CHECK_AND_CALL_HANDLER syscallNumber __NR_readlinkat Handlereadlinkat (
  CHECK_AND_CALL_HANDLER syscallNumber __NR_utime Handleutime (
  CHECK_AND_CALL_HANDLER syscallNumber __NR_utimes Handleutimes (
  CHECK_AND_CALL_HANDLER syscallNumber __NR_utimensat Handleutimensat (
  CHECK_AND_CALL_HANDLER syscallNumber __NR_futimesat Handlefutimesat (
  CHECK_AND_CALL_HANDLER syscallNumber __NR_mkdir Handlemkdir (
  CHECK_AND_CALL_HANDLER syscallNumber __NR_mkdirat Handlemkdirat (
  CHECK_AND_CALL_HANDLER syscallNumber __NR_mknod Handlemknod (
  CHECK_AND_CALL_HANDLER syscallNumber __NR_mknodat Handlemknodat (
  CHECK_AND_CALL_HANDLER syscallNumber __NR_chmod Handlechmod (
  CHECK_AND_CALL_HANDLER syscallNumber __NR_fchmod Handlefchmod (
  CHECK_AND_CALL_HANDLER syscallNumber __NR_fchmodat Handlefchmodat (
  CHECK_AND_CALL_HANDLER syscallNumber __NR_chown Handlechown (
  CHECK_AND_CALL_HANDLER syscallNumber __NR_fchown Handlefchown (
  CHECK_AND_CALL_HANDLER syscallNumber __NR_lchown Handlelchown (
  CHECK_AND_CALL_HANDLER syscallNumber __NR_fchownat Handlefchownat (
  CHECK_AND_CALL_HANDLER syscallNumber __NR_sendfile Handlesendfile (
  CHECK_AND_CALL_HANDLER syscallNumber __NR_copy_file_range Handlecopy_file_range (
  CHECK_AND_CALL_HANDLER syscallNumber __NR_name_to_handle_at Handlename_to_handle_at (
  None))))))))))))))))))))))))))))))))))))))))))))))).

(** The numbers the filter names, in its order. *)
Definition traced : list Z :=
  [ __NR_execveat;
    __NR_execve;
    __NR_stat;
    __NR_lstat;
    __NR_fstat;
    __NR_newfstatat;
    __NR_access;
    __NR_faccessat;
    __NR_creat;
    __NR_open;
    __NR_openat;
    __NR_write;
    __NR_writev;
    __NR_pwritev;
    __NR_pwritev2;
    __NR_pwrite64;
    __NR_truncate;
    __NR_ftruncate;
    __NR_rmdir;
    __NR_rename;
    __NR_renameat;
    __NR_link;
    __NR_linkat;
    __NR_unlink;
    __NR_unlinkat;
    __NR_symlink;
    __NR_symlinkat;
    __NR_readlink;
    __NR_readlinkat;
    __NR_utime;
    __NR_utimes;
    __NR_utimensat;
    __NR_futimesat;
    __NR_mkdir;
    __NR_mkdirat;
    __NR_mknod;
    __NR_mknodat;
    __NR_chmod;
    __NR_fchmod;
    __NR_fchmodat;
    __NR_chown;
    __NR_fchown;
    __NR_lchown;
    __NR_fchownat;
    __NR_sendfile;
    __NR_copy_file_range;
    __NR_name_to_handle_at ].
End Seccomp.

(** ** The memory of a tracee that holds a string *)

(** The byte at an address of a memory that holds [bytes] from [pointer] on
    and zeros elsewhere. *)
Definition byte_at (pointer : Z) (bytes : list Z) (address : Z) : Z :=
  if address <? pointer then 0 else nth (Z.to_nat (address - pointer)) bytes 0.

(** The number whose bytes, lowest first, are the given ones. *)
Definition le_word (bytes : list Z) : Z :=
  fold_right (fun b acc => b + 256 * acc) 0 bytes.

(** What [PTRACE_PEEKTEXT] returns at an address of that memory: the eight
    bytes from the address on as a [long]. *)
Definition memory_holding (pointer : Z) (bytes : list Z) (address : Z) : Z :=
  to_int64 (le_word (List.map (fun i => byte_at pointer bytes (address + i))
                              [0; 1; 2; 3; 4; 5; 6; 7])).


(** ** Resuming a stopped tracee *)

(** The requests that set a stopped tracee running again. *)
Definition resumes (pid : Z) (e : effect) : bool :=
  match e with
  | ptrace_SYSCALL p _ => p =? pid
  | ptrace_CONT p => p =? pid
  | _ => false
  end.

(** A signal-delivery stop of process 4001 with SIGUSR1. *)
Definition sigusr1_stop : wait_result :=
  {| w_pid := 4001; w_status := 2687; w_eventmsg := 0; w_orig_rax := 0 |}.

(** An observer all of whose calls return, with debug logging on. *)
Definition returning : observer :=
  {| LogDebugEnabled := true; returns := fun _ _ => true |}.
(** * Properties *)

(** ** The open family (C1) *)

Lemma c_eq_accmode_wronly : c_eq Linux.O_ACCMODE Linux.O_WRONLY = 0.
Proof. reflexivity. Qed.

Lemma c_eq_accmode_rdwr : c_eq Linux.O_ACCMODE Linux.O_RDWR = 0.
Proof. reflexivity. Qed.

(** Whatever the flags and the mode of the path, [ReportOpen] reports create
    or open: the write branch is dead, because both tests of the access mode
    mask [oflag] with the value of a comparison that is false. *)
Lemma ReportOpen_create_or_open get_mode env path oflag syscallName s :
  ReportOpen get_mode env path oflag syscallName s =
  emit (report_access_event syscallName
          (IOEvent_path
             (if (get_mode path =? 0)
                 && c_true (Z.land oflag (Z.lor Linux.O_CREAT Linux.O_TRUNC))
              then ES_EVENT_TYPE_NOTIFY_CREATE else ES_EVENT_TYPE_NOTIFY_OPEN)
             path (GetProgramPath env) (get_mode path) "" 0) None) s.
Proof.
  unfold ReportOpen.
  rewrite c_eq_accmode_wronly, c_eq_accmode_rdwr, Z.land_0_r.
  change (c_true 0) with false.
  rewrite !orb_false_r, !andb_false_r, negb_involutive.
  reflexivity.
Qed.

(** C1, where the code departs from the specification: [openat] of
    [/work/rel/file], which exists as a regular file, with flags
    [O_CREAT|O_WRONLY].  The specification classifies the access as write;
    the event [ReportOpen] hands to the observer is an open.  (For a path
    that does not exist it is a create, as specified.) *)
Theorem openat_existing_creat_wronly_reports_open :
  let env := {| getpid := 4000; GetProgramPath := "/usr/bin/tool" |} in
  let s := mkPTraceSandbox 4001 [(4001, 1, "/usr/bin/tool")] [] in
  let flags := Z.lor Linux.O_CREAT Linux.O_WRONLY in
  effects (Handleopenat (fun _ => regular_file_0644) env "/work/rel/file" flags s)
  = [report_access_event "openat"
       (IOEvent_path ES_EVENT_TYPE_NOTIFY_OPEN "/work/rel/file" "/usr/bin/tool"
                     regular_file_0644 "" 0) None]
  /\ effects (Handleopenat (fun _ => 0) env "/work/rel/file" flags s)
  = [report_access_event "openat"
       (IOEvent_path ES_EVENT_TYPE_NOTIFY_CREATE "/work/rel/file" "/usr/bin/tool"
                     0 "" 0) None].
Proof. split; reflexivity. Qed.

(** ** GetErrno (C5) *)

Lemma ReadArgumentLong_return rax :
  ReadArgumentLong (with_return_register rax) 0 = to_uint64 rax.
Proof. reflexivity. Qed.

Lemma to_uint64_small z : 0 <= z < 2 ^ 64 -> to_uint64 z = z.
Proof. intros H. unfold to_uint64. apply Z.mod_small; lia. Qed.

Lemma to_uint64_negative z : - 2 ^ 64 <= z < 0 -> to_uint64 z = 2 ^ 64 + z.
Proof.
  intros H. unfold to_uint64. symmetry.
  apply Z.mod_unique with (q := -1); lia.
Qed.

Lemma to_int64_upper_half z : 2 ^ 63 <= z < 2 ^ 64 -> to_int64 z = z - 2 ^ 64.
Proof.
  intros H. unfold to_int64. rewrite Z.mod_small by lia.
  destruct (z <? 2 ^ 63) eqn:E; [apply Z.ltb_lt in E; lia | reflexivity].
Qed.

Lemma to_int32_small z : 0 <= z < 2 ^ 31 -> to_int32 z = z.
Proof.
  intros H. unfold to_int32. rewrite Z.mod_small by lia.
  destruct (z <? 2 ^ 31) eqn:E; [reflexivity | apply Z.ltb_ge in E; lia].
Qed.

(** For an error return [-e] (the register holds [2^64 - e]) the value is
    [e - 1]: subtracting from [0xffffffffffffffff] is the complement, one less
    than the negation. *)
Lemma GetErrno_error_return e :
  1 <= e <= 4095 -> GetErrno (with_return_register (2 ^ 64 - e)) = e - 1.
Proof.
  intros He. unfold GetErrno. rewrite ReadArgumentLong_return.
  rewrite (to_uint64_small (2 ^ 64 - e)) by lia.
  rewrite to_int64_upper_half by lia.
  destruct (2 ^ 64 - e - 2 ^ 64 =? 0) eqn:E; [apply Z.eqb_eq in E; lia|].
  rewrite (to_uint64_negative (2 ^ 64 - e - 2 ^ 64)) by lia.
  replace (18446744073709551615 - (2 ^ 64 + (2 ^ 64 - e - 2 ^ 64))) with (e - 1) by lia.
  rewrite to_uint64_small by lia.
  apply to_int32_small; lia.
Qed.

(** C5, where the code departs from the specification: a raw return of -2
    (ENOENT, errno 2) gives 1, not 2, and the non-negative return 5 gives -6,
    not 0; only the return 0 gives 0. *)
Theorem GetErrno_off_by_one :
  GetErrno (with_return_register (2 ^ 64 - 2)) = 1
  /\ GetErrno (with_return_register 5) = -6
  /\ GetErrno (with_return_register 0) = 0.
Proof. repeat split; vm_compute; reflexivity. Qed.

(** ** Fork, clone and vfork events (C3) *)

(** The registry is searched for the pid of the new child.  When the child
    has no record yet, the event and the child's record carry parent pid 0
    and the tracer's own program path, whatever the record of the process
    that reported the event says. *)
Lemma HandleChildProcess_fresh_child env syscall newPid s :
  forallb (fun item => negb (tracee_pid item =? newPid)) (m_traceeTable s) = true ->
  HandleChildProcess env syscall newPid s =
  mkPTraceSandbox (m_traceePid s)
    (m_traceeTable s ++ [(newPid, m_traceePid s, GetProgramPath env)])
    (effects s ++
     [report_access_event syscall
        (IOEvent_proc (m_traceePid s) newPid 0 ES_EVENT_TYPE_NOTIFY_FORK
           (GetProgramPath env) "" (GetProgramPath env) 0 (Some 0)) None;
      ptrace_SYSCALL newPid 0;
      ptrace_SYSCALL (m_traceePid s) 0]).
Proof.
  intros Hfresh. unfold HandleChildProcess, FindParentProcess.
  assert (Hfind : List.find (fun item => tracee_pid item =? newPid) (m_traceeTable s) = None).
  { revert Hfresh. generalize (m_traceeTable s). intros l. induction l as [|x l IH]; simpl.
    - reflexivity.
    - intros H. apply andb_prop in H as [Hx Hl].
      apply negb_true_iff in Hx. rewrite Hx. apply IH, Hl. }
  rewrite Hfind. destruct s as [p t e]. unfold emit, set_table. simpl.
  rewrite <- !app_assoc. reflexivity.
Qed.

(** C3, where the code departs from the specification: the process 100
    (parent 1, exe [/bin/sh]) has its record in the registry and reports a
    clone of the new child 101.  The lookup is made for 101 and misses, so the
    fork event and the child's record carry parent pid 0 and the tracer's own
    program path, not the parent pid 1 and exe [/bin/sh] of the record. *)
Theorem HandleChildProcess_ignores_reporting_record :
  let env := {| getpid := 4000; GetProgramPath := "/usr/bin/ptracerunner" |} in
  let s := mkPTraceSandbox 100 [(100, 1, "/bin/sh")] [] in
  FindParentProcess s 100 = Some (100, 1, "/bin/sh")
  /\ FindParentProcess s 101 = None
  /\ HandleChildProcess env "clone" 101 s =
     mkPTraceSandbox 100
       [(100, 1, "/bin/sh"); (101, 100, "/usr/bin/ptracerunner")]
       [report_access_event "clone"
          (IOEvent_proc 100 101 0 ES_EVENT_TYPE_NOTIFY_FORK
             "/usr/bin/ptracerunner" "" "/usr/bin/ptracerunner" 0 (Some 0)) None;
        ptrace_SYSCALL 101 0;
        ptrace_SYSCALL 100 0].
Proof. repeat split; reflexivity. Qed.

(** ** unlink and unlinkat (C6) *)

Lemma Handleunlink_effects path s :
  effects (Handleunlink path s) =
  effects s ++
  (if first_char_not_nul path
   then [report_access_path "unlink" ES_EVENT_TYPE_NOTIFY_UNLINK path 0
           Linux.O_NOFOLLOW 0 true (m_traceePid s)]
   else []).
Proof.
  unfold Handleunlink. destruct (first_char_not_nul path); simpl.
  - reflexivity.
  - symmetry. apply app_nil_r.
Qed.

(** [unlinkat] reports when the path is not empty and the register that
    holds [dirfd] is not [AT_FDCWD] as an unsigned long. *)
Lemma Handleunlinkat_effects dirfd path flags s :
  effects (Handleunlinkat dirfd path flags s) =
  effects s ++
  (if negb (dirfd =? 2 ^ 64 - 100) && first_char_not_nul path
   then [report_access_at "unlinkat" ES_EVENT_TYPE_NOTIFY_UNLINK (to_int32 dirfd) path
           (if c_true (Z.land flags Linux.AT_REMOVEDIR) then 0 else Linux.O_NOFOLLOW)
           false (m_traceePid s) 0]
   else []).
Proof.
  unfold Handleunlinkat.
  change (to_uint64 Linux.AT_FDCWD) with (2 ^ 64 - 100).
  destruct (negb (dirfd =? 2 ^ 64 - 100) && first_char_not_nul path); simpl.
  - reflexivity.
  - symmetry. apply app_nil_r.
Qed.

(** C6, where the code departs from the specification: [unlinkat] with
    [dirfd = AT_FDCWD] (the register holds -100 as a 64-bit value) and the
    non-empty path [file.o].  The unlink is to be reported for every [dirfd]
    when the path is not empty; the handler makes no call at all, while
    [unlink] of the
    same path reports, and so does [unlinkat] through a directory descriptor,
    and even [unlinkat] with [AT_FDCWD] when only the low 32 bits of the
    register hold it. *)
Theorem unlinkat_AT_FDCWD_not_reported :
  let s := mkPTraceSandbox 4001 [(4001, 1, "/usr/bin/rm")] [] in
  Handleunlinkat (to_uint64 Linux.AT_FDCWD) "file.o" 0 s = s
  /\ effects (Handleunlink "file.o" s) =
     [report_access_path "unlink" ES_EVENT_TYPE_NOTIFY_UNLINK "file.o" 0
        Linux.O_NOFOLLOW 0 true 4001]
  /\ effects (Handleunlinkat 7 "file.o" 0 s) =
     [report_access_at "unlinkat" ES_EVENT_TYPE_NOTIFY_UNLINK 7 "file.o"
        Linux.O_NOFOLLOW false 4001 0]
  /\ effects (Handleunlinkat (to_uint32 Linux.AT_FDCWD) "file.o" 0 s) =
     [report_access_at "unlinkat" ES_EVENT_TYPE_NOTIFY_UNLINK Linux.AT_FDCWD "file.o"
        Linux.O_NOFOLLOW false 4001 0].
Proof. repeat split; reflexivity. Qed.

(** ** ReadArgumentString (C2) *)

Lemma read_word_more n : forall w i nullTerminated len stored csl stored' csl',
  read_word n w i nullTerminated len stored csl = WordDone stored' csl' false ->
  0 <= csl <= Linux.PATH_MAX + 1 ->
  csl' = csl + Z.of_nat n /\ csl' <= Linux.PATH_MAX + 1.
Proof.
  induction n as [|n IH]; intros w i nt len stored csl stored' csl' H Hcsl; simpl in H.
  - inversion H; subst. lia.
  - destruct (in_argument csl) eqn:Hin; simpl in H; [|discriminate].
    destruct ((nt && (byte_of_long w i =? 0)) || ((len >? 0) && (csl + 1 =? len)));
      [discriminate|].
    unfold in_argument in Hin. apply andb_prop in Hin as [_ Hle]. apply Z.leb_le in Hle.
    apply IH in H; [|lia]. lia.
Qed.

Lemma read_words_total fuel : forall t addr nullTerminated len stored csl,
  0 <= csl <= Linux.PATH_MAX + 1 ->
  Linux.PATH_MAX + 1 - csl < 8 * Z.of_nat fuel ->
  read_words fuel t addr nullTerminated len stored csl <> ReadOutOfFuel.
Proof.
  induction fuel as [|fuel IH]; intros t addr nt len stored csl Hcsl Hfuel.
  - lia.
  - cbn [read_words].
    destruct (peektext t addr =? -1).
    + destruct (in_argument csl); discriminate.
    + destruct (read_word 8 (peektext t addr) 0 nt len stored csl)
        as [idx|st' csl' fin] eqn:Hw; [discriminate|].
      destruct fin.
      * destruct (in_argument csl'); discriminate.
      * apply read_word_more in Hw; [|lia]. destruct Hw as [-> Hle].
        apply IH; lia.
Qed.

(** The model of the loop is total: the words it is allowed to read are
    enough for every memory, so a run ends with the string or with a store
    outside the array. *)
Lemma ReadArgumentString_total t argumentIndex nullTerminated len :
  ReadArgumentString t argumentIndex nullTerminated len <> ReadOutOfFuel.
Proof.
  unfold ReadArgumentString. apply read_words_total; unfold Linux.PATH_MAX; lia.
Qed.

(** C2, where the code departs from the specification, which allows no
    store outside [argument].  With no NUL in the
    tracee's memory the loop stores at index [PATH_MAX + 1], one past the last
    element of [argument]; so it does for a string of exactly [PATH_MAX]
    bytes followed by its NUL, where the closing store is the one that leaves
    the array.  A string of [PATH_MAX - 8] bytes is read within bounds. *)
Theorem ReadArgumentString_stores_past_argument :
  ReadArgumentString (tracee_with_string 8192 (fun _ => AAAAAAAA)) 1 true 0
  = StoreOutOfBounds (Linux.PATH_MAX + 1)
  /\ ReadArgumentString
       (tracee_with_string 8192 (fun a => if a <? 8192 + 4096 then AAAAAAAA else 0))
       1 true 0
     = StoreOutOfBounds (Linux.PATH_MAX + 1)
  /\ ReadArgumentString
       (tracee_with_string 8192 (fun a => if a <? 8192 + 4088 then AAAAAAAA else 0))
       1 true 0
     = ReadDone (repeat 65 4088 ++ [0]).
Proof. repeat split; vm_compute; reflexivity. Qed.

(** ** IsCacheHit (C4) *)

(** Only the mutation events are coalesced: every other event is its own key. *)
Lemma cache_key_cases e :
  cache_key e = if mutation_event e then ES_EVENT_TYPE_NOTIFY_WRITE else e.
Proof. destruct e; reflexivity. Qed.

(** The cacheable case of [IsCacheHit]: the answer is membership of the path
    in the set of the key, and the path is in that set afterwards. *)
Lemma IsCacheHit_cacheable env e p o :
  disposed_ o = false -> try_lock_for env = true -> never_cached e = false ->
  IsCacheHit env e p "" o =
  (bool_decide (p ∈ default ∅ (cache_ o !! cache_key e)),
   set_cache (<[cache_key e := {[p]} ∪ default ∅ (cache_ o !! cache_key e)]> (cache_ o)) o).
Proof.
  intros Hd Hl He. unfold IsCacheHit. rewrite Hd, Hl. simpl.
  assert (Hgate : bool_decide (e = ES_EVENT_TYPE_NOTIFY_FORK)
                  || bool_decide (e = ES_EVENT_TYPE_NOTIFY_EXEC)
                  || bool_decide (e = ES_EVENT_TYPE_NOTIFY_EXIT) = false)
    by (destruct e; try reflexivity; discriminate He).
  rewrite Hgate.
  destruct (cache_ o !! cache_key e) as [set|] eqn:Hlook; simpl.
  - reflexivity.
  - assert (Hunion : ({[p]} ∪ ∅ : gset string) = {[p]})
      by apply (right_id_L ∅ (∪)).
    rewrite Hunion. reflexivity.
Qed.

(** Two events with one key: the second call on the same path is a hit. *)
Lemma IsCacheHit_same_key env e1 e2 p o :
  disposed_ o = false -> try_lock_for env = true ->
  never_cached e1 = false -> never_cached e2 = false ->
  cache_key e1 = cache_key e2 ->
  (IsCacheHit env e2 p "" (IsCacheHit env e1 p "" o).2).1 = true.
Proof.
  intros Hd Hl H1 H2 Hk.
  rewrite (IsCacheHit_cacheable env e1) by assumption. simpl.
  rewrite (IsCacheHit_cacheable env e2) by assumption. simpl.
  rewrite <- Hk, lookup_insert_eq. simpl.
  apply bool_decide_eq_true. set_solver.
Qed.

(** A path not yet in the set of the key is a miss. *)
Lemma IsCacheHit_new_path env e p o :
  disposed_ o = false -> try_lock_for env = true -> never_cached e = false ->
  p ∉ default ∅ (cache_ o !! cache_key e) ->
  (IsCacheHit env e p "" o).1 = false.
Proof.
  intros Hd Hl He Hp. rewrite IsCacheHit_cacheable by assumption. simpl.
  apply bool_decide_eq_false. exact Hp.
Qed.

(** C4, where the code departs from the specification: stat and access are
    both metadata reads, yet [IsCacheHit(ACCESS, "/f")] after
    [IsCacheHit(STAT, "/f")] is a miss, because each of the two keys on
    itself.  (Set-mode followed by write on the same path is a hit, and a
    second path under the write key is a miss, as specified.) *)
Theorem IsCacheHit_stat_then_access_misses :
  let r1 := IsCacheHit quiet_env ES_EVENT_TYPE_NOTIFY_STAT "/f" "" fresh_observer in
  let r2 := IsCacheHit quiet_env ES_EVENT_TYPE_NOTIFY_ACCESS "/f" "" r1.2 in
  let w1 := IsCacheHit quiet_env ES_EVENT_TYPE_NOTIFY_SETMODE "/f" "" fresh_observer in
  let w2 := IsCacheHit quiet_env ES_EVENT_TYPE_NOTIFY_WRITE "/f" "" w1.2 in
  let w3 := IsCacheHit quiet_env ES_EVENT_TYPE_NOTIFY_WRITE "/g" "" w2.2 in
  cache_key ES_EVENT_TYPE_NOTIFY_STAT = ES_EVENT_TYPE_NOTIFY_STAT
  /\ cache_key ES_EVENT_TYPE_NOTIFY_ACCESS = ES_EVENT_TYPE_NOTIFY_ACCESS
  /\ r1.1 = false /\ r2.1 = false
  /\ w1.1 = false /\ w2.1 = true /\ w3.1 = false.
Proof. repeat split; vm_compute; reflexivity. Qed.

(** ** The non-file gate of create_access (C10) *)

Lemma IsCacheHit_checked env e p q o : checked (IsCacheHit env e p q o).2 = checked o.
Proof.
  unfold IsCacheHit.
  destruct (disposed_ o || (0 <? String.length q)%nat
            || bool_decide (e = ES_EVENT_TYPE_NOTIFY_FORK)
            || bool_decide (e = ES_EVENT_TYPE_NOTIFY_EXEC)
            || bool_decide (e = ES_EVENT_TYPE_NOTIFY_EXIT)); [reflexivity|].
  destruct (negb (try_lock_for env)); [reflexivity|].
  destruct (cache_ o !! cache_key e); reflexivity.
Qed.

Lemma is_non_file_iff m :
  is_non_file m = true <->
  m <> 0 /\ Linux.S_ISDIR m = false /\ Linux.S_ISREG m = false /\ Linux.S_ISLNK m = false.
Proof.
  unfold is_non_file. rewrite !andb_true_iff, !negb_true_iff, Z.eqb_neq. tauto.
Qed.

(** Sockets and pipes are non-files; regular files, directories, symbolic
    links and mode 0 are not. *)
Lemma is_non_file_examples :
  is_non_file Linux.S_IFSOCK = true
  /\ is_non_file Linux.S_IFIFO = true
  /\ is_non_file regular_file_0644 = false
  /\ is_non_file Linux.S_IFDIR = false
  /\ is_non_file Linux.S_IFLNK = false
  /\ is_non_file 0 = false.
Proof. repeat split; reflexivity. Qed.

Lemma create_access_internal_unfold env syscallName eventType reportPath secondPath
    mode checkCache o :
  create_access_internal env syscallName eventType reportPath secondPath mode checkCache o =
  let c := cache_consulted env eventType reportPath secondPath checkCache o in
  let m := if mode =? 0 then get_mode env reportPath else mode in
  if c.1 then (sNotChecked, None, c.2)
  else if is_non_file m then (sNotChecked, None, c.2)
  else create_access_event env syscallName
         (access_event env eventType reportPath secondPath m) false c.2.
Proof.
  unfold create_access_internal, cache_consulted, access_event.
  destruct secondPath as [sp|]; simpl;
    destruct checkCache; simpl;
    try destruct (IsCacheHit env eventType reportPath _ o) as [hit o1]; simpl;
    reflexivity.
Qed.

Lemma create_access_event_unchecked env syscallName event o :
  IsEnabled env = true ->
  create_access_event env syscallName event false o =
  ((CheckAccessAndBuildReport env event).1, Some (CheckAccessAndBuildReport env event).2,
   mkBxlObserver (disposed_ o) (cache_ o) (checked o ++ [event])).
Proof.
  intros Hen. unfold create_access_event. rewrite Hen.
  destruct (CheckAccessAndBuildReport env event); reflexivity.
Qed.

(** C10.  [is_non_file] is false for mode 0.  For an access that is not a
    cache hit, with the policy engine enabled, [create_access_internal] looks
    the mode up when it is given 0 and then: returns unchecked without
    consulting the policy engine exactly when the mode is non-zero and is
    neither a directory, a regular file nor a symbolic link; otherwise hands
    the event to the policy engine, which checks the access and builds the
    report.  In particular a path whose mode is 0 (it does not exist) is
    checked and reported. *)
Theorem is_non_file_gate env syscallName eventType reportPath secondPath mode checkCache o :
  IsEnabled env = true ->
  (checkCache = true ->
   (IsCacheHit env eventType reportPath (default EmptyString secondPath) o).1 = false) ->
  let m := if mode =? 0 then get_mode env reportPath else mode in
  let event := access_event env eventType reportPath secondPath m in
  let r := create_access_internal env syscallName eventType reportPath secondPath
             mode checkCache o in
  is_non_file 0 = false
  /\ (is_non_file m = true <->
      m <> 0 /\ Linux.S_ISDIR m = false /\ Linux.S_ISREG m = false /\ Linux.S_ISLNK m = false)
  /\ (is_non_file m = true -> r.1 = (sNotChecked, None) /\ checked r.2 = checked o)
  /\ (is_non_file m = false ->
      r.1 = ((CheckAccessAndBuildReport env event).1,
             Some (CheckAccessAndBuildReport env event).2)
      /\ checked r.2 = checked o ++ [event])
  /\ (m = 0 -> checked r.2 = checked o ++ [event]).
Proof.
  intros Hen Hmiss m event r.
  assert (Hc : (cache_consulted env eventType reportPath secondPath checkCache o).1 = false
               /\ checked (cache_consulted env eventType reportPath secondPath checkCache o).2
                  = checked o).
  { unfold cache_consulted. destruct checkCache.
    - split; [apply Hmiss; reflexivity | apply IsCacheHit_checked].
    - split; reflexivity. }
  destruct Hc as [Hhit Hlog].
  assert (Hr : r = if is_non_file m
                   then (sNotChecked, None,
                         (cache_consulted env eventType reportPath secondPath checkCache o).2)
                   else create_access_event env syscallName event false
                         (cache_consulted env eventType reportPath secondPath checkCache o).2).
  { subst r. rewrite create_access_internal_unfold. cbv zeta. rewrite Hhit. reflexivity. }
  assert (Hfile : is_non_file m = false ->
      r.1 = ((CheckAccessAndBuildReport env event).1,
             Some (CheckAccessAndBuildReport env event).2)
      /\ checked r.2 = checked o ++ [event]).
  { intros Hm. rewrite Hr, Hm, create_access_event_unchecked by exact Hen. simpl.
    rewrite Hlog. split; reflexivity. }
  split; [reflexivity|]. split; [apply is_non_file_iff|]. split.
  - intros Hm. rewrite Hr, Hm. simpl. split; [reflexivity | exact Hlog].
  - split; [exact Hfile|].
    intros H0. apply Hfile. rewrite H0. reflexivity.
Qed.

(** A stat of [/work/missing], which does not exist, on a fresh observer:
    the event reaches the policy engine with mode 0. *)
Lemma is_non_file_gate_witness :
  get_mode quiet_env "/work/missing" = 0
  /\ checked (create_access_internal quiet_env "stat" ES_EVENT_TYPE_NOTIFY_STAT
                "/work/missing" None 0 true fresh_observer).2
     = [access_event quiet_env ES_EVENT_TYPE_NOTIFY_STAT "/work/missing" None 0].
Proof.
  split; [reflexivity|].
  apply (is_non_file_gate quiet_env "stat" ES_EVENT_TYPE_NOTIFY_STAT "/work/missing"
           None 0 true fresh_observer).
  - reflexivity.
  - intros _. vm_compute. reflexivity.
  - reflexivity.
Defined.

(** ** Send and SendReport (C8) *)

Lemma Send_exceeds_PIPE_BUF env buf bufsiz :
  real_open_found env = true -> Linux.PIPE_BUF < bufsiz ->
  Send env buf bufsiz = Fatal buffer_exceeds_PIPE_BUF.
Proof.
  intros Hopen Hbig. unfold Send. rewrite Hopen. simpl.
  destruct (bufsiz >? Linux.PIPE_BUF) eqn:E; [reflexivity|].
  rewrite Z.gtb_ltb in E. apply Z.ltb_ge in E. lia.
Qed.

(** A write that returns a count below the byte count is fatal. *)
Lemma Send_short_count env buf bufsiz :
  real_open_found env = true -> bufsiz <= Linux.PIPE_BUF ->
  real_open_result env <> -1 ->
  0 <= real_write_result env bufsiz < bufsiz ->
  Send env buf bufsiz = Fatal short_write.
Proof.
  intros Hopen Hsize Hfd Hshort. unfold Send. rewrite Hopen. simpl.
  destruct (bufsiz >? Linux.PIPE_BUF) eqn:E;
    [rewrite Z.gtb_ltb in E; apply Z.ltb_lt in E; lia|].
  destruct (real_open_result env =? -1) eqn:Efd; [apply Z.eqb_eq in Efd; contradiction|].
  rewrite to_uint64_small by (unfold Linux.PIPE_BUF in Hsize; lia).
  destruct (real_write_result env bufsiz <? bufsiz) eqn:Ew;
    [reflexivity | apply Z.ltb_ge in Ew; lia].
Qed.

(** A write that fails (it returns -1, nothing was written) is not: -1
    converted to [size_t] is above every byte count. *)
Lemma Send_failed_write env buf bufsiz :
  real_open_found env = true -> 0 <= bufsiz <= Linux.PIPE_BUF ->
  real_open_result env <> -1 ->
  real_write_result env bufsiz = -1 ->
  Send env buf bufsiz = Returns true [mkWire buf.1 buf.2 bufsiz].
Proof.
  intros Hopen Hsize Hfd Hfail. unfold Send. rewrite Hopen, Hfail. simpl.
  destruct (bufsiz >? Linux.PIPE_BUF) eqn:E;
    [rewrite Z.gtb_ltb in E; apply Z.ltb_lt in E; lia|].
  destruct (real_open_result env =? -1) eqn:Efd; [apply Z.eqb_eq in Efd; contradiction|].
  change (to_uint64 (-1)) with 18446744073709551615.
  destruct (18446744073709551615 <? bufsiz) eqn:Ew;
    [apply Z.ltb_lt in Ew; unfold Linux.PIPE_BUF in Hsize; lia | reflexivity].
Qed.

Section SendReport_properties.
Variable BuildReport : Z -> AccessReport -> string -> Z.

(** A report that is not a debug message and does not fit is fatal; nothing
    is written. *)
Lemma SendReport_oversized_fatal env report :
  operation report <> kOpProcessTreeCompleted ->
  Linux.PIPE_BUF - 4 <= BuildReport (Linux.PIPE_BUF - 4) report (path report) ->
  SendReport BuildReport env report false = Fatal message_truncated.
Proof.
  intros Hop Hbig. unfold SendReport.
  rewrite bool_decide_eq_false_2 by exact Hop.
  destruct (BuildReport (Linux.PIPE_BUF - 4) report (path report) >=? Linux.PIPE_BUF - 4) eqn:E.
  - reflexivity.
  - rewrite Z.geb_leb in E. apply Z.leb_gt in E. lia.
Qed.

(** A debug message that does not fit is built again from a prefix of its
    text and sent in one write of at most [PIPE_BUF] bytes. *)
Lemma SendReport_oversized_debug env report :
  let max := Linux.PIPE_BUF - 4 in
  let n := BuildReport max report (path report) in
  let text := strncpy_path (path report) (Linux.PATH_MAX - (n - max) - 1) in
  let n' := BuildReport max report text in
  let bufsiz := Z.min (n' + 4) Linux.PIPE_BUF in
  operation report <> kOpProcessTreeCompleted ->
  max <= n -> n - max < Linux.PATH_MAX -> 0 <= n' ->
  real_open_found env = true -> real_open_result env <> -1 ->
  real_write_result env bufsiz = bufsiz ->
  SendReport BuildReport env report true
  = Returns true [mkWire (to_uint32 n') text bufsiz] /\ bufsiz <= Linux.PIPE_BUF.
Proof.
  intros max n text n' bufsiz Hop Hbig Htrunc Hn' Hopen Hfd Hwrite.
  assert (Hsiz : 0 <= bufsiz <= Linux.PIPE_BUF) by (subst bufsiz; unfold Linux.PIPE_BUF; lia).
  split; [|lia].
  unfold SendReport. rewrite bool_decide_eq_false_2 by exact Hop.
  fold max. fold n.
  destruct (n >=? max) eqn:E; [|rewrite Z.geb_leb in E; apply Z.leb_gt in E; lia].
  simpl negb. cbv iota.
  destruct (Linux.PATH_MAX - (n - max) <=? 0) eqn:Et; [apply Z.leb_le in Et; lia|].
  fold text. fold n'. fold bufsiz.
  rewrite (to_uint64_small bufsiz) by (unfold Linux.PIPE_BUF in Hsiz; lia).
  unfold Send. rewrite Hopen, Hwrite. simpl.
  destruct (bufsiz >? Linux.PIPE_BUF) eqn:Eb;
    [rewrite Z.gtb_ltb in Eb; apply Z.ltb_lt in Eb; lia|].
  destruct (real_open_result env =? -1) eqn:Efd; [apply Z.eqb_eq in Efd; contradiction|].
  rewrite (to_uint64_small bufsiz) by (unfold Linux.PIPE_BUF in Hsiz; lia).
  rewrite Z.ltb_irrefl. reflexivity.
Qed.
End SendReport_properties.

(** A report whose text makes the message 4150 bytes long, with a sink in
    working order: fatal when it is not a debug message; cut to 4037 bytes of
    text and sent in one write of [PIPE_BUF] bytes when it is. *)
Lemma SendReport_oversized_examples :
  SendReport (header_and_path 60) (sink_writing (fun n => n))
    (access_report (long_text 4090)) false
  = Fatal message_truncated
  /\ SendReport (header_and_path 60) (sink_writing (fun n => n))
       (debug_report (long_text 4090)) true
     = Returns true [mkWire 4097 (long_text 4037) Linux.PIPE_BUF].
Proof.
  split.
  - apply SendReport_oversized_fatal; [discriminate | vm_compute; discriminate].
  - apply (SendReport_oversized_debug (header_and_path 60) (sink_writing (fun n => n))
             (debug_report (long_text 4090))); try reflexivity; try discriminate;
      vm_compute; try reflexivity; discriminate.
Qed.

(** C8, where the code departs from the specification: [Send] of a 100-byte
    buffer when [write] fails and returns -1, so that nothing reached the
    report sink.  [Send] is to fail fatally when fewer bytes than intended
    were written; it returns true, as if the report had been sent.  (A short
    count, here 99 of 100, is fatal, and so is a buffer of more than
    [PIPE_BUF] bytes, as specified.) *)
Theorem Send_failed_write_is_not_fatal :
  Send (sink_writing (fun _ => -1)) (96, "/f") 100 = Returns true [mkWire 96 "/f" 100]
  /\ Send (sink_writing (fun n => n - 1)) (96, "/f") 100 = Fatal short_write
  /\ Send (sink_writing (fun n => n)) (4093, "/f") 4097 = Fatal buffer_exceeds_PIPE_BUF.
Proof. repeat split; reflexivity. Qed.

(** ** The tracee registry (C7) *)

Lemma BXL_LOG_DEBUG_cases m_bxl format s :
  BXL_LOG_DEBUG m_bxl format s = Done tt s
  \/ (BXL_LOG_DEBUG m_bxl format s = NotReturned (Debug format) s
      /\ returns m_bxl (effects s) (Debug format) = false).
Proof.
  unfold BXL_LOG_DEBUG.
  destruct (LogDebugEnabled m_bxl); cbn [andb]; [|left; reflexivity].
  destruct (returns m_bxl (effects s) (Debug format)); cbn [negb]; [left|right]; auto.
Qed.

Lemma call_cases m_bxl e s :
  call m_bxl e s = Done tt (emit e s)
  \/ (call m_bxl e s = NotReturned (Report e) s
      /\ returns m_bxl (effects s) (Report e) = false).
Proof.
  unfold call. destruct (returns m_bxl (effects s) (Report e)); [left|right]; auto.
Qed.

(** One call of the tracer: it returned, or it did not. *)
Ltac tracer_step :=
  match goal with
  | |- context [BXL_LOG_DEBUG ?m ?d ?s] =>
      let H := fresh "Hrun" in
      let Hret := fresh "Hret" in
      destruct (BXL_LOG_DEBUG_cases m d s) as [H|[H Hret]];
      rewrite H; clear H; cbv beta iota
  | |- context [call ?m ?e ?s] =>
      let H := fresh "Hrun" in
      let Hret := fresh "Hret" in
      destruct (call_cases m e s) as [H|[H Hret]];
      rewrite H; clear H; cbv beta iota
  end.

Lemma exitnotifications_app es1 es2 :
  exitnotifications (es1 ++ es2) = (exitnotifications es1 + exitnotifications es2)%nat.
Proof. unfold exitnotifications. rewrite List.filter_app, length_app. reflexivity. Qed.

Lemma exitnotifications_emit e s :
  exitnotifications (effects (emit e s))
  = (exitnotifications (effects s) + (if is_exitnotification e then 1 else 0))%nat.
Proof.
  cbn [emit effects]. rewrite exitnotifications_app. unfold exitnotifications. cbn.
  destruct (is_exitnotification e); reflexivity.
Qed.

Lemma exitnotifications_reports es :
  Forall (fun e => is_report e = true) es -> exitnotifications es = 0%nat.
Proof.
  induction 1 as [|e es He _ IH]; [reflexivity|].
  unfold exitnotifications in *. cbn [List.filter].
  destruct e; try discriminate He; exact IH.
Qed.

Lemma AllTraceesHaveExited_spec m_bxl env s :
  match AllTraceesHaveExited m_bxl env s with
  | Done r s' =>
      m_traceeTable s'
      = List.filter (fun item => negb (tracee_pid item =? m_traceePid s)) (m_traceeTable s)
      /\ (r = true <-> m_traceeTable s' = [])
      /\ effects s'
         = effects s
           ++ ExitReport (if m_traceePid s =? 0 then getpid env else m_traceePid s)
              :: (if r then [ExitReport (getpid env)] else [])
      /\ m_traceePid s' = m_traceePid s
  | NotReturned c s' =>
      returns m_bxl (effects s') c = false
      /\ m_traceePid s' = m_traceePid s
      /\ exists es, effects s' = effects s ++ es /\ Forall (fun e => is_report e = true) es
  | Exit_ _ _ => False
  end.
Proof.
  unfold AllTraceesHaveExited, Handleexit, SendExitReport, tracer_bind, get, modify, tracer_ret.
  tracer_step.
  2: { split; [exact Hret|]. split; [reflexivity|]. exists []. rewrite app_nil_r. auto. }
  tracer_step.
  2: { split; [exact Hret|]. split; [reflexivity|]. exists []. rewrite app_nil_r. auto. }
  destruct s as [p t e]. cbn [emit set_table m_traceePid m_traceeTable effects].
  set (t' := List.filter (fun item => negb (tracee_pid item =? p)) t).
  destruct t' as [|x rest] eqn:Ht; cbn [length Nat.eqb].
  - tracer_step.
    + cbn [emit set_table m_traceePid m_traceeTable effects].
      split; [reflexivity|]. split; [split; reflexivity|]. split; [|reflexivity].
      rewrite <- app_assoc. destruct (getpid env =? 0); reflexivity.
    + cbn [emit set_table m_traceePid m_traceeTable effects] in *.
      split; [exact Hret|]. split; [reflexivity|].
      eexists [_]. split; [reflexivity|]. repeat constructor.
  - cbn [m_traceePid m_traceeTable effects]. repeat split; try reflexivity; discriminate.
Qed.

Lemma is_event_exit_only status :
  is_event status Linux.PTRACE_EVENT_EXIT = true ->
  is_event status Linux.PTRACE_EVENT_CLONE = false
  /\ is_event status Linux.PTRACE_EVENT_FORK = false
  /\ is_event status Linux.PTRACE_EVENT_VFORK = false.
Proof.
  unfold is_event. intros H. apply Z.eqb_eq in H. rewrite H.
  repeat split; reflexivity.
Qed.

(** [HandleChildProcess] in the loop: when its report and its debug message
    return, it leaves the tracer as the function of the same name does;
    otherwise the tracee has not been resumed. *)
Lemma HandleChildProcess_outcome_spec m_bxl env syscall newPid s :
  match HandleChildProcess_outcome m_bxl env syscall newPid s with
  | Done _ s' => s' = HandleChildProcess env syscall newPid s
  | NotReturned c s' =>
      returns m_bxl (effects s') c = false
      /\ exists es, effects s' = effects s ++ es /\ Forall (fun e => is_report e = true) es
  | Exit_ _ _ => False
  end.
Proof.
  unfold HandleChildProcess_outcome, HandleChildProcess, tracer_bind, get, request, modify,
    tracer_ret.
  destruct (FindParentProcess s newPid) as [parent|].
  all: tracer_step;
    [|split; [exact Hret|]; exists []; rewrite app_nil_r; auto].
  all: tracer_step;
    [reflexivity|].
  all: cbn [emit set_table effects] in *; split; [exact Hret|];
    eexists [_]; split; [reflexivity|]; repeat constructor.
Qed.

(** An exit observation runs [AllTraceesHaveExited] for the pid that [wait]
    returned and leaves the loop exactly when the registry is emptied. *)
Lemma loop_body_exit m_bxl env w s :
  is_exit_status (w_status w) = true ->
  match loop_body m_bxl env w s with
  | Done ctl s' =>
      ctl = (if (length (m_traceeTable s') =? 0)%nat then Break else Continue)
      /\ m_traceeTable s'
         = List.filter (fun item => negb (tracee_pid item =? w_pid w)) (m_traceeTable s)
      /\ exitnotifications (effects s') = exitnotifications (effects s)
  | NotReturned c s' =>
      returns m_bxl (effects s') c = false
      /\ exitnotifications (effects s') = exitnotifications (effects s)
  | Exit_ _ _ => False
  end.
Proof.
  intros Hexit.
  pose proof (AllTraceesHaveExited_spec m_bxl env (set_traceePid (w_pid w) s)) as Hspec.
  assert (Hall :
    match AllTraceesHaveExited m_bxl env (set_traceePid (w_pid w) s) with
    | Done r s' =>
        (if r then Break else Continue)
        = (if (length (m_traceeTable s') =? 0)%nat then Break else Continue)
        /\ m_traceeTable s'
           = List.filter (fun item => negb (tracee_pid item =? w_pid w)) (m_traceeTable s)
        /\ exitnotifications (effects s') = exitnotifications (effects s)
        /\ m_traceePid s' = w_pid w
    | NotReturned c s' =>
        returns m_bxl (effects s') c = false
        /\ exitnotifications (effects s') = exitnotifications (effects s)
    | Exit_ _ _ => False
    end).
  { destruct (AllTraceesHaveExited m_bxl env (set_traceePid (w_pid w) s)) as [r s1|c s1|]; [| |exact Hspec].
    - destruct Hspec as (Htab & Hiff & Heff & Hpid).
      cbn [set_traceePid m_traceePid m_traceeTable effects] in *.
      split; [|split; [exact Htab|split; [|exact Hpid]]].
      + destruct r.
        * rewrite (proj1 Hiff eq_refl). reflexivity.
        * destruct (m_traceeTable s1); [|reflexivity].
          exfalso. assert (false = true) by (apply Hiff; reflexivity). discriminate.
      + rewrite Heff, exitnotifications_app. destruct r; cbn; lia.
    - destruct Hspec as (Hret & _ & es & Heff & Hes).
      split; [exact Hret|]. rewrite Heff, exitnotifications_app.
      rewrite (exitnotifications_reports es Hes). cbn [set_traceePid effects]. lia. }
  clear Hspec.
  unfold loop_body, tracer_bind, get, request, modify, tracer_ret.
  destruct (Linux.WIFEXITED (w_status w)) eqn:E1.
  { tracer_step; [|auto].
    destruct (AllTraceesHaveExited m_bxl env (set_traceePid (w_pid w) s)) as [r s1|c s1|];
      [|exact Hall|exact Hall].
    destruct Hall as (H1 & H2 & H3 & _). auto. }
  destruct (Linux.WIFSIGNALED (w_status w)) eqn:E2.
  { tracer_step; [|auto].
    destruct (AllTraceesHaveExited m_bxl env (set_traceePid (w_pid w) s)) as [r s1|c s1|];
      [|exact Hall|exact Hall].
    destruct Hall as (H1 & H2 & H3 & _). auto. }
  unfold is_exit_status in Hexit. rewrite E1, E2 in Hexit. cbn [orb] in Hexit.
  apply andb_prop in Hexit as [Hstop Hev].
  rewrite Hstop. cbn [negb].
  destruct (is_event_exit_only _ Hev) as (Hc & Hf & Hv).
  rewrite Hc, Hf, Hv, Hev.
  tracer_step; [|auto].
  destruct (AllTraceesHaveExited m_bxl env (set_traceePid (w_pid w) s)) as [r s1|c s1|];
    [|exact Hall|exact Hall].
  destruct Hall as (H1 & H2 & H3 & _).
  cbv beta iota. cbn [emit m_traceeTable effects]. split; [exact H1|]. split; [exact H2|].
  rewrite exitnotifications_app, H3. cbn. lia.
Qed.

(** From a registry that is not empty, exit observations that cover every
    registered pid end the loop with the registry empty and one notification
    more than before, unless a call into the observer does not return. *)
Lemma main_loop_exits m_bxl env ws : forall s,
  forallb (fun w => is_exit_status (w_status w)) ws = true ->
  m_traceeTable s <> [] ->
  (forall item, In item (m_traceeTable s) ->
                existsb (is_exit_of (tracee_pid item)) ws = true) ->
  match main_loop m_bxl env ws s with
  | Finished s' =>
      m_traceeTable s' = []
      /\ exitnotifications (effects s') = S (exitnotifications (effects s))
  | InCall c s' =>
      returns m_bxl (effects s') c = false
      /\ (exitnotifications (effects s') <= S (exitnotifications (effects s)))%nat
  | Waiting _ | Exited _ _ => False
  end.
Proof.
  induction ws as [|w ws IH]; intros s Hall Hne Hcov.
  - destruct (m_traceeTable s) as [|item t]; [contradiction|].
    specialize (Hcov item (or_introl eq_refl)). discriminate.
  - cbn [forallb] in Hall. apply andb_prop in Hall as [Hw Hall].
    pose proof (loop_body_exit m_bxl env w s Hw) as Hbody.
    cbn [main_loop].
    destruct (loop_body m_bxl env w s) as [ctl s1|c s1|];
      [| destruct Hbody as [Hret Hcount]; split; [exact Hret | lia] | exact Hbody].
    destruct Hbody as (Hctl & Htab & Hcount). subst ctl.
    destruct (m_traceeTable s1) as [|x t1] eqn:Ht1; cbn [length Nat.eqb].
    + unfold notify_daemon, tracer_bind, request, modify.
      tracer_step; cbn [ended emit m_traceeTable effects].
      * split; [exact Ht1|]. rewrite exitnotifications_app, Hcount. cbn. lia.
      * split; [exact Hret|]. rewrite exitnotifications_app, Hcount. cbn. lia.
    + assert (Hne1 : m_traceeTable s1 <> []) by (rewrite Ht1; discriminate).
      assert (Hcov1 : forall item, In item (m_traceeTable s1) ->
                existsb (is_exit_of (tracee_pid item)) ws = true).
      { intros item Hin. rewrite Ht1, Htab in Hin.
        apply List.filter_In in Hin as [Hin Hpid].
        specialize (Hcov item Hin). cbn [existsb] in Hcov.
        apply orb_prop in Hcov as [Hhere|Hlater]; [|exact Hlater].
        unfold is_exit_of in Hhere. apply Z.eqb_eq in Hhere.
        rewrite <- Hhere, Z.eqb_refl in Hpid. discriminate. }
      specialize (IH s1 Hall Hne1 Hcov1).
      rewrite Hcount in IH. exact IH.
Qed.

(** A clone stop runs [HandleChildProcess] with the event message as the
    new pid. *)
Lemma loop_body_clone m_bxl env pid msg s :
  loop_body m_bxl env (clone_stop pid msg) s
  = match HandleChildProcess_outcome m_bxl env "clone" (to_int32 msg) (set_traceePid pid s) with
    | Done _ s' => Done Continue s'
    | NotReturned c s' => NotReturned c s'
    | Exit_ code s' => Exit_ code s'
    end.
Proof. reflexivity. Qed.

Lemma HandleChildProcess_table env syscall newPid s :
  exists exePath,
    m_traceeTable (HandleChildProcess env syscall newPid s)
    = m_traceeTable s ++ [(newPid, m_traceePid s, exePath)]
    /\ exitnotifications (effects (HandleChildProcess env syscall newPid s))
       = exitnotifications (effects s).
Proof.
  unfold HandleChildProcess.
  destruct (FindParentProcess s newPid) as [parent|];
    eexists; cbn [emit set_table m_traceeTable effects m_traceePid];
    (split; [reflexivity|]);
    rewrite !exitnotifications_app; cbn; lia.
Qed.

(** What [AttachToProcess] does before the loop, when the tracee has been
    seized and interrupted. *)
Lemma AttachToProcess_attached m_bxl env traceePid parentPid exe ws :
  let s0 := mkPTraceSandbox traceePid [(traceePid, parentPid, exe)]
              [disable_fd_table; ptrace_SYSCALL traceePid 0] in
  AttachToProcess m_bxl env true true traceePid parentPid exe ws = main_loop m_bxl env ws s0
  \/ (exists c s,
        (forall ws', AttachToProcess m_bxl env true true traceePid parentPid exe ws' = InCall c s)
        /\ returns m_bxl (effects s) c = false
        /\ effects s = []).
Proof.
  intros s0. unfold AttachToProcess, tracer_bind, get, request, modify, tracer_ret.
  cbn [negb].
  destruct (BXL_LOG_DEBUG_cases m_bxl "[PTrace] Starting tracer PID '%d' to trace PID '%d'"
              (mkPTraceSandbox 0 [] [])) as [H|[H Hret]]; rewrite H.
  - left. reflexivity.
  - right. eexists _, _. split; [reflexivity|]. split; [exact Hret | reflexivity].
Qed.

(** C7.  [AllTraceesHaveExited] keeps every record but those of the pid
    that just exited, returns true exactly when the registry is empty
    afterwards, and reports the exit of that pid and, when the registry is
    empty, the exit of the tracer's own pid; the reports and the debug
    message are calls into the observer, and the function ends inside one
    that does not return.  A session attached to one root tracee has a
    registry of size 1, and of size 2 once the root has stopped at a clone of
    a child.  When both are then observed to exit (in any order, among any
    number of exit observations), the session ends with an empty registry and
    exactly one exit notification on the message queue, or it has ended
    before that inside a call into the observer that did not return, with at
    most one notification sent; it ends in the first way whenever every call
    returns. *)
Theorem tracee_registry_lifecycle :
  (forall m_bxl env s,
     match AllTraceesHaveExited m_bxl env s with
     | Done r s' =>
         m_traceeTable s'
         = List.filter (fun item => negb (tracee_pid item =? m_traceePid s)) (m_traceeTable s)
         /\ (r = true <-> m_traceeTable s' = [])
         /\ effects s'
            = effects s
              ++ ExitReport (if m_traceePid s =? 0 then getpid env else m_traceePid s)
                 :: (if r then [ExitReport (getpid env)] else [])
         /\ m_traceePid s' = m_traceePid s
     | NotReturned c s' => returns m_bxl (effects s') c = false
     | Exit_ _ _ => False
     end)
  /\ (forall m_bxl env root parent exe msg exits,
        let child := to_int32 msg in
        let attach := AttachToProcess m_bxl env true true root parent exe in
        forallb (fun w => is_exit_status (w_status w)) exits = true ->
        existsb (is_exit_of root) exits = true ->
        existsb (is_exit_of child) exits = true ->
        match attach [] with
        | Waiting s => length (m_traceeTable s) = 1%nat
        | InCall c s => returns m_bxl (effects s) c = false
        | Finished _ | Exited _ _ => False
        end
        /\ match attach [clone_stop root msg] with
           | Waiting s => length (m_traceeTable s) = 2%nat
           | InCall c s => returns m_bxl (effects s) c = false
           | Finished _ | Exited _ _ => False
           end
        /\ match attach (clone_stop root msg :: exits) with
           | Finished s =>
               m_traceeTable s = [] /\ exitnotifications (effects s) = 1%nat
           | InCall c s =>
               returns m_bxl (effects s) c = false
               /\ (exitnotifications (effects s) <= 1)%nat
           | Waiting _ | Exited _ _ => False
           end
        /\ ((forall log c, returns m_bxl log c = true) ->
            exists s,
              attach (clone_stop root msg :: exits) = Finished s
              /\ m_traceeTable s = []
              /\ exitnotifications (effects s) = 1%nat)).
Proof.
  split.
  { intros m_bxl env s. pose proof (AllTraceesHaveExited_spec m_bxl env s) as H.
    destruct (AllTraceesHaveExited m_bxl env s); [exact H | apply H | exact H]. }
  intros m_bxl env root parent exe msg exits child attach Hall Hroot Hchild.
  assert (Hrun :
    match attach [] with
    | Waiting s => length (m_traceeTable s) = 1%nat
    | InCall c s => returns m_bxl (effects s) c = false
    | Finished _ | Exited _ _ => False
    end
    /\ match attach [clone_stop root msg] with
       | Waiting s => length (m_traceeTable s) = 2%nat
       | InCall c s => returns m_bxl (effects s) c = false
       | Finished _ | Exited _ _ => False
       end
    /\ match attach (clone_stop root msg :: exits) with
       | Finished s =>
           m_traceeTable s = [] /\ exitnotifications (effects s) = 1%nat
       | InCall c s =>
           returns m_bxl (effects s) c = false
           /\ (exitnotifications (effects s) <= 1)%nat
       | Waiting _ | Exited _ _ => False
       end).
  { subst attach.
    destruct (AttachToProcess_attached m_bxl env root parent exe [])
      as [H0|(c & s & Hin & Hret & Heff)].
    2: { rewrite !Hin. split; [exact Hret|]. split; [exact Hret|]. split; [exact Hret|].
         rewrite Heff. cbn. lia. }
    rewrite H0. cbn [main_loop m_traceeTable length]. split; [reflexivity|].
    destruct (AttachToProcess_attached m_bxl env root parent exe [clone_stop root msg])
      as [H1|(c & s & Hin & _)].
    2: { exfalso. rewrite Hin in H0. discriminate. }
    destruct (AttachToProcess_attached m_bxl env root parent exe (clone_stop root msg :: exits))
      as [H2|(c & s & Hin & _)].
    2: { exfalso. rewrite Hin in H0. discriminate. }
    rewrite H1, H2. cbn [main_loop]. rewrite loop_body_clone. fold child.
    set (s0 := mkPTraceSandbox root [(root, parent, exe)]
                 [disable_fd_table; ptrace_SYSCALL root 0]).
    pose proof (HandleChildProcess_outcome_spec m_bxl env "clone" child (set_traceePid root s0))
      as Hspec.
    destruct (HandleChildProcess_outcome m_bxl env "clone" child (set_traceePid root s0))
      as [[] s1|c s1|]; [| |contradiction].
    2: { destruct Hspec as (Hret & es & Heff & Hes). split; [exact Hret|].
         split; [exact Hret|]. rewrite Heff, exitnotifications_app.
         rewrite (exitnotifications_reports es Hes). cbn. lia. }
    subst s1.
    destruct (HandleChildProcess_table env "clone" child (set_traceePid root s0))
      as (exePath & Htab & Hcount).
    split; [rewrite Htab; reflexivity|].
    pose proof (main_loop_exits m_bxl env exits
                  (HandleChildProcess env "clone" child (set_traceePid root s0)) Hall) as Hloop.
    rewrite Hcount in Hloop. apply Hloop.
    - rewrite Htab. cbn. discriminate.
    - intros item Hin. rewrite Htab in Hin. cbn in Hin.
      destruct Hin as [<-|[<-|[]]]; assumption. }
  destruct Hrun as (H0 & H1 & H2).
  split; [exact H0|]. split; [exact H1|]. split; [exact H2|].
  intros Hreturns.
  destruct (attach (clone_stop root msg :: exits)) as [s|s|code s|c s];
    [|contradiction|contradiction|].
  - exists s. split; [reflexivity|exact H2].
  - destruct H2 as [Hret _]. rewrite Hreturns in Hret. discriminate.
Qed.

(** Root 100 clones 101; 101 stops at its exit and exits, then 100 stops at
    its exit; every call into the observer returns. *)
Lemma tracee_registry_lifecycle_witness :
  exists s,
    AttachToProcess returning {| getpid := 4000; GetProgramPath := "/usr/bin/ptracerunner" |}
      true true 100 1 "/bin/sh"
      [clone_stop 100 101; exit_stop 101; exited 101; exit_stop 100]
    = Finished s
    /\ m_traceeTable s = []
    /\ exitnotifications (effects s) = 1%nat.
Proof.
  apply (proj2 (proj2 (proj2
           (proj2 tracee_registry_lifecycle returning
              {| getpid := 4000; GetProgramPath := "/usr/bin/ptracerunner" |}
              100 1 "/bin/sh" 101 [exit_stop 101; exited 101; exit_stop 100]
              eq_refl eq_refl eq_refl))));
    reflexivity.
Defined.

(** ** resolve_path (C9) *)

Lemma in_all_ascii c : In c all_ascii.
Proof.
  unfold all_ascii. apply in_map_iff. exists (nat_of_ascii c). split.
  - apply ascii_nat_embedding.
  - apply in_seq. pose proof (nat_ascii_bounded c). lia.
Qed.

Lemma in_words_upto n : forall w, (length w <= n)%nat -> In w (words_upto n).
Proof.
  induction n as [|n IH]; intros w Hw.
  - destruct w; [left; reflexivity | cbn in Hw; lia].
  - destruct w as [|c w]; [left; reflexivity|]. right.
    apply in_flat_map. exists w. split; [apply IH; cbn in Hw; lia|].
    apply in_map_iff. exists c. split; [reflexivity | apply in_all_ascii].
Qed.

Lemma elem_of_bounded_paths n w : (length w <= n)%nat -> w ∈ bounded_paths n.
Proof.
  intros H. unfold bounded_paths.
  apply elem_of_list_to_set, list_elem_of_In, in_words_upto, H.
Qed.

Section resolve_path_termination.
Local Open Scope nat_scope.

Lemma find_prev_slash_lt s p q :
  find_prev_slash s p = Some q -> q < p.
Proof.
  induction p as [|p IH]; simpl; [discriminate|].
  destruct (is_char slash (s !! p)).
  - intros [= <-]. lia.
  - intros H. apply IH in H. lia.
Qed.

Lemma is_char_Some c (s : list ascii) p :
  is_char c (s !! p) = true -> p < length s.
Proof.
  destruct (s !! p) eqn:E; [|discriminate]. intros _.
  eapply lookup_lt_Some, E.
Qed.

Lemma is_nul_false (s : list ascii) p :
  is_nul (s !! p) = false -> p < length s.
Proof.
  destruct (s !! p) eqn:E; [|discriminate]. intros _.
  eapply lookup_lt_Some, E.
Qed.

Lemma length_shift_left (s : list ascii) from n :
  from <= length s -> n <= from ->
  length (shift_left s from n) = length s - n.
Proof.
  intros H1 H2. unfold shift_left. rewrite length_app, length_take, length_drop. lia.
Qed.

Lemma unvisited_insert (all v : gset (list ascii)) p :
  p ∈ all -> p ∉ v ->
  size (all ∖ ({[p]} ∪ v)) < size (all ∖ v).
Proof.
  intros Hin Hnot. apply subset_size.
  apply strict_spec_alt. split.
  - intros x. rewrite !elem_of_difference, elem_of_union. tauto.
  - intros Heq. assert (Hp : p ∈ all ∖ v) by (apply elem_of_difference; auto).
    rewrite <- Heq in Hp. apply elem_of_difference in Hp as [_ Hp].
    apply Hp, elem_of_union_l, elem_of_singleton. reflexivity.
Qed.

Variable real_readlink : list ascii -> option (list ascii).
Variable capacity : nat.
Variable followFinalSymlink : bool.
(** A bound on the strings the buffer can hold without a fault. *)
Variable bound : nat.
Hypothesis capacity_bound : capacity <= bound.

Lemma resolve_link_progress st st' :
  scan_in_bounds bound st ->
  resolve_link real_readlink capacity followFinalSymlink st = Again st' ->
  progress bound st st'.
Proof.
  unfold scan_in_bounds, progress, scan_measure, unvisited, resolve_link, readlink_at.
  intros Hinv H.
  destruct st as [s p v r]. cbn [fullpath pFullpath visited readlink_reports] in *.
  assert (Hprefix : take p s ∈ bounded_paths bound)
    by (apply elem_of_bounded_paths; rewrite length_take; lia).
  destruct (if is_char slash (s !! p) || is_nul (s !! p) && followFinalSymlink
            then real_readlink (take p s) else None) as [target|] eqn:Hlink.
  - destruct (PATH_MAX_nat <=? length (take PATH_MAX_nat target)); [discriminate|].
    destruct (bool_decide (take p s ∈ v)) eqn:Hvis; [discriminate|].
    apply bool_decide_eq_false in Hvis.
    destruct (length (take PATH_MAX_nat target) =? 0); [discriminate|].
    set (rest := if is_char slash (last (take PATH_MAX_nat target)) && is_char slash (s !! p)
                 then drop (S p) s else drop p s) in *.
    destruct (PATH_MAX_nat <? length (take PATH_MAX_nat target) + length rest + 1);
      [discriminate|].
    destruct (is_char slash (head (take PATH_MAX_nat target ++ rest))) eqn:Habs.
    + destruct (capacity <? length (take PATH_MAX_nat target ++ rest) + 1) eqn:Hcap;
        [discriminate|].
      apply Nat.ltb_ge in Hcap.
      inversion H; subst; clear H.
      unfold scan_in_bounds, scan_measure, unvisited. cbn [fullpath pFullpath visited].
      split.
      * destruct (take PATH_MAX_nat target ++ rest); [discriminate|]. cbn in *. lia.
      * right. apply unvisited_insert; assumption.
    + destruct (find_prev_slash s p) as [q|] eqn:Hq; [|discriminate].
      destruct (capacity <? S q + length (take PATH_MAX_nat target ++ rest) + 1) eqn:Hcap;
        [discriminate|].
      apply Nat.ltb_ge in Hcap.
      inversion H; subst; clear H.
      unfold scan_in_bounds, scan_measure, unvisited. cbn [fullpath pFullpath visited].
      apply find_prev_slash_lt in Hq. split.
      * rewrite length_app, length_take. lia.
      * right. apply unvisited_insert; assumption.
  - destruct (is_nul (s !! p)) eqn:Hn; [discriminate|].
    inversion H; subst; clear H.
    unfold scan_in_bounds, scan_measure, unvisited. cbn [fullpath pFullpath visited].
    apply is_nul_false in Hn. split; [lia|]. left. split; [reflexivity|lia].
Qed.

Lemma resolve_body_progress st st' :
  scan_in_bounds bound st ->
  resolve_body real_readlink capacity followFinalSymlink st = Again st' ->
  progress bound st st'.
Proof.
  intros Hinv H. unfold resolve_body in H.
  destruct (is_char slash (fullpath st !! pFullpath st)) eqn:Hslash;
    [|apply resolve_link_progress; assumption].
  apply is_char_Some in Hslash.
  destruct (find_prev_slash (fullpath st) (pFullpath st)) as [q|] eqn:Hq; [|discriminate].
  apply find_prev_slash_lt in Hq. unfold scan_in_bounds in Hinv.
  destruct (pFullpath st - q - 1 =? 0) eqn:E0.
  { inversion H; subst; clear H. apply Nat.eqb_eq in E0.
    unfold progress, scan_in_bounds, scan_measure. cbn [fullpath pFullpath visited].
    rewrite length_shift_left by lia. split; [lia|]. left. split; [reflexivity|lia]. }
  destruct ((pFullpath st - q - 1 =? 1) && is_char dot (fullpath st !! (pFullpath st - 1))) eqn:E1.
  { inversion H; subst; clear H. apply andb_prop in E1 as [E1 _]. apply Nat.eqb_eq in E1.
    unfold progress, scan_in_bounds, scan_measure. cbn [fullpath pFullpath visited].
    rewrite length_shift_left by lia. split; [lia|]. left. split; [reflexivity|lia]. }
  destruct ((pFullpath st - q - 1 =? 2) && is_char dot (fullpath st !! (pFullpath st - 1))
            && is_char dot (fullpath st !! (pFullpath st - 2))) eqn:E2;
    [|apply resolve_link_progress; assumption].
  destruct (if 0 <? q then find_prev_slash (fullpath st) q else Some q) as [q'|] eqn:Hq';
    [|discriminate].
  assert (Hle : q' <= q).
  { destruct (0 <? q).
    - apply find_prev_slash_lt in Hq'. lia.
    - inversion Hq'. lia. }
  inversion H; subst; clear H.
  unfold progress, scan_in_bounds, scan_measure. cbn [fullpath pFullpath visited].
  rewrite length_shift_left by lia. split; [lia|]. left. split; [reflexivity|lia].
Qed.

(** Induction on the strings left to visit, then on what is left of the
    scan. *)
Lemma resolve_loop_halts : forall n m st,
  scan_in_bounds bound st -> unvisited bound st < n -> scan_measure st < m ->
  exists fuel, resolve_loop real_readlink capacity followFinalSymlink fuel st
               <> ResolveOutOfFuel.
Proof.
  induction n as [|n IHn]; [intros; lia|].
  induction m as [|m IHm]; [intros; lia|].
  intros st Hinv Hn Hm.
  destruct (resolve_body real_readlink capacity followFinalSymlink st)
    as [st'| st' | why] eqn:Hbody.
  - destruct (resolve_body_progress st st' Hinv Hbody) as [Hinv' [[Hv Hlt] | Hlt]].
    + destruct (IHm st') as [fuel Hfuel]; [exact Hinv' | | lia |].
      * unfold unvisited in *. rewrite Hv. exact Hn.
      * exists (S fuel). cbn [resolve_loop]. rewrite Hbody. exact Hfuel.
    + destruct (IHn (S (scan_measure st')) st') as [fuel Hfuel]; [exact Hinv' | lia | lia |].
      exists (S fuel). cbn [resolve_loop]. rewrite Hbody. exact Hfuel.
  - exists 1. cbn [resolve_loop]. rewrite Hbody. discriminate.
  - exists 1. cbn [resolve_loop]. rewrite Hbody. discriminate.
Qed.

Lemma resolve_loop_more_fuel fuel : forall st k,
  resolve_loop real_readlink capacity followFinalSymlink fuel st <> ResolveOutOfFuel ->
  resolve_loop real_readlink capacity followFinalSymlink (fuel + k) st
  = resolve_loop real_readlink capacity followFinalSymlink fuel st.
Proof.
  induction fuel as [|fuel IH]; intros st k H; [contradiction H; reflexivity|].
  cbn [resolve_loop Nat.add] in *.
  destruct (resolve_body real_readlink capacity followFinalSymlink st); try reflexivity.
  apply IH, H.
Qed.

Lemma resolve_path_halts_bounded path :
  length path <= bound ->
  exists fuel result,
    result <> ResolveOutOfFuel
    /\ forall fuel', fuel <= fuel' ->
        resolve_path real_readlink capacity followFinalSymlink fuel' path = result.
Proof.
  intros Hlen. unfold resolve_path.
  destruct (is_char slash (head path)) eqn:Habs; cbn [negb].
  - destruct (resolve_loop_halts (S (unvisited bound (mkResolve path 1 ∅ [])))
                (S (scan_measure (mkResolve path 1 ∅ []))) (mkResolve path 1 ∅ []))
      as [fuel Hfuel]; [|lia|lia|].
    + unfold scan_in_bounds. cbn [fullpath pFullpath].
      destruct path; [discriminate|]. cbn in *. lia.
    + exists fuel, (resolve_loop real_readlink capacity followFinalSymlink fuel
                      (mkResolve path 1 ∅ [])).
      split; [exact Hfuel|].
      intros fuel' Hle. replace fuel' with (fuel + (fuel' - fuel)) by lia.
      apply resolve_loop_more_fuel, Hfuel.
  - exists 0, (Resolved path []). split; [discriminate|]. reflexivity.
Qed.
End resolve_path_termination.

(** [resolve_path] halts, whatever [readlink] answers: a run that does not
    fault keeps its string within the caller's array, the strings that fit
    are finitely many, and no prefix is followed twice. *)
Lemma resolve_path_halts real_readlink capacity follow path :
  exists fuel result,
    result <> ResolveOutOfFuel
    /\ forall fuel', (fuel <= fuel')%nat ->
        resolve_path real_readlink capacity follow fuel' path = result.
Proof.
  apply (resolve_path_halts_bounded real_readlink capacity follow
           (capacity + length path)); lia.
Qed.

(** A link whose prefix is in the visited set ends the loop body, with the
    buffer cut at the scan pointer. *)
Lemma resolve_link_revisit real_readlink capacity follow st target :
  readlink_at real_readlink follow st = Some target ->
  (length target < PATH_MAX_nat)%nat ->
  take (pFullpath st) (fullpath st) ∈ visited st ->
  resolve_link real_readlink capacity follow st
  = Stop (mkResolve (take (pFullpath st) (fullpath st)) (pFullpath st)
            (visited st) (readlink_reports st)).
Proof.
  intros Hlink Hlen Hvis. unfold resolve_link. rewrite Hlink.
  rewrite length_take, Nat.min_r by lia.
  destruct (PATH_MAX_nat <=? length target)%nat eqn:E; [apply Nat.leb_le in E; lia|].
  rewrite bool_decide_eq_true_2 by exact Hvis. reflexivity.
Qed.

(** A link whose prefix is new is put in the visited set and reported
    before the scan goes on. *)
Lemma resolve_link_records real_readlink capacity follow st target st' :
  readlink_at real_readlink follow st = Some target ->
  take (pFullpath st) (fullpath st) ∉ visited st ->
  resolve_link real_readlink capacity follow st = Again st' ->
  visited st' = {[take (pFullpath st) (fullpath st)]} ∪ visited st
  /\ readlink_reports st' = readlink_reports st ++ [take (pFullpath st) (fullpath st)].
Proof.
  intros Hlink Hvis H. unfold resolve_link in H. rewrite Hlink in H.
  destruct (PATH_MAX_nat <=? length (take PATH_MAX_nat target))%nat; [discriminate|].
  rewrite bool_decide_eq_false_2 in H by exact Hvis.
  destruct (length (take PATH_MAX_nat target) =? 0)%nat; [discriminate|].
  set (rest := if is_char slash (last (take PATH_MAX_nat target))
                  && is_char slash (fullpath st !! pFullpath st)
               then drop (S (pFullpath st)) (fullpath st)
               else drop (pFullpath st) (fullpath st)) in *.
  destruct (PATH_MAX_nat <? length (take PATH_MAX_nat target) + length rest + 1)%nat;
    [discriminate|].
  destruct (is_char slash (head (take PATH_MAX_nat target ++ rest))).
  - destruct (capacity <? length (take PATH_MAX_nat target ++ rest) + 1)%nat;
      [discriminate|].
    inversion H; subst; clear H. split; reflexivity.
  - destruct (find_prev_slash (fullpath st) (pFullpath st)) as [q|]; [|discriminate].
    destruct (capacity <? S q + length (take PATH_MAX_nat target ++ rest) + 1)%nat;
      [discriminate|].
    inversion H; subst; clear H. split; reflexivity.
Qed.

Lemma resolve_self_link :
  resolve_path self_link 4096 true 4 (chars "/x") = Resolved (chars "/x") [chars "/x"].
Proof. vm_compute. reflexivity. Qed.

Lemma resolve_path_more_fuel real_readlink capacity follow fuel path k :
  resolve_path real_readlink capacity follow fuel path <> ResolveOutOfFuel ->
  resolve_path real_readlink capacity follow (fuel + k) path
  = resolve_path real_readlink capacity follow fuel path.
Proof.
  unfold resolve_path. destruct (negb (is_char slash (head path))); [reflexivity|].
  apply resolve_loop_more_fuel.
Qed.

Lemma resolve_relative_self_link :
  resolve_path relative_self_link 4096 true 6 (chars "/d/x")
  = Resolved (chars "/d/x") [chars "/d/x"].
Proof. vm_compute. reflexivity. Qed.

Lemma resolve_long_link :
  resolve_path long_link 4096 true 2 path_through_long_link
  = MemoryFault readlinkBuf_store.
Proof. vm_compute. reflexivity. Qed.

(** C9, where the code departs from the specification: the path [/l/aaa...]
    of 4002 bytes, shorter than [PATH_MAX], in an array of [PATH_MAX] bytes,
    where [/l] is a symbolic link to a target of 200 bytes.  [resolve_path]
    is to end on every absolute path without crashing.  At the slash after
    [/l] it reads the target into [readlinkBuf] and copies the rest of the
    path, 4000 bytes and the NUL, behind it with [strcpy]: the copy runs past
    the end of [readlinkBuf], which has [PATH_MAX] bytes.  The rest holds as
    specified: the loop never runs for ever, whatever the links are (from
    some number of iterations on the run has one and the same result), and a
    link that leads back to itself, by an absolute or by a relative target,
    is followed once, reported once, and ends the resolution at its second
    visit with the path built so far. *)
Theorem resolve_path_overflows_readlinkBuf :
  (length path_through_long_link < PATH_MAX_nat)%nat
  /\ long_link (chars "/l") = Some long_target
  /\ length long_target = 200%nat
  /\ (forall k,
        resolve_path long_link 4096 true (2 + k) path_through_long_link
        = MemoryFault readlinkBuf_store)
  /\ (forall real_readlink capacity follow path,
        exists fuel result,
          result <> ResolveOutOfFuel
          /\ forall fuel', (fuel <= fuel')%nat ->
              resolve_path real_readlink capacity follow fuel' path = result)
  /\ (forall k,
        resolve_path self_link 4096 true (4 + k) (chars "/x")
        = Resolved (chars "/x") [chars "/x"])
  /\ (forall k,
        resolve_path relative_self_link 4096 true (6 + k) (chars "/d/x")
        = Resolved (chars "/d/x") [chars "/d/x"]).
Proof.
  split; [vm_compute; lia|].
  split; [reflexivity|].
  split; [reflexivity|].
  split.
  { intros k. rewrite resolve_path_more_fuel; rewrite resolve_long_link;
      [reflexivity | discriminate]. }
  split.
  { intros real_readlink capacity follow path.
    exact (resolve_path_halts real_readlink capacity follow path). }
  split.
  - intros k. rewrite resolve_path_more_fuel; rewrite resolve_self_link;
      [reflexivity | discriminate].
  - intros k. rewrite resolve_path_more_fuel; rewrite resolve_relative_self_link;
      [reflexivity | discriminate].
Qed.

(** * Further properties of the observer and of the tracer *)

(** Closes [Forall plain_component] for components given character by
    character. *)
Ltac plain_components :=
  repeat constructor; try discriminate;
  intros H; repeat (apply elem_of_cons in H as [H|H]; [discriminate H|]);
  apply elem_of_nil in H; exact H.

(** ** The access cache over sequences of calls *)

(** The cases in which [IsCacheHit] answers false and leaves the cache as it
    is: after disposal, with a second path, for fork, exec and exit events,
    and when the lock is not acquired in time. *)
Lemma IsCacheHit_refuses env e p q o :
  disposed_ o = true \/ q <> EmptyString \/ never_cached e = true
  \/ try_lock_for env = false ->
  IsCacheHit env e p q o = (false, o).
Proof.
  intros H. unfold IsCacheHit.
  destruct (disposed_ o) eqn:Hd; [reflexivity|].
  destruct q as [|c q]; simpl.
  - destruct e; try reflexivity; simpl;
      destruct (try_lock_for env) eqn:Hl; try reflexivity;
      destruct H as [H|[H|[H|H]]]; try discriminate; contradiction.
  - reflexivity.
Qed.

Lemma IsCacheHit_disposed env e p q o :
  disposed_ (IsCacheHit env e p q o).2 = disposed_ o.
Proof.
  unfold IsCacheHit.
  destruct (disposed_ o || (0 <? String.length q)%nat
            || bool_decide (e = ES_EVENT_TYPE_NOTIFY_FORK)
            || bool_decide (e = ES_EVENT_TYPE_NOTIFY_EXEC)
            || bool_decide (e = ES_EVENT_TYPE_NOTIFY_EXIT)); [reflexivity|].
  destruct (negb (try_lock_for env)); [reflexivity|].
  destruct (cache_ o !! cache_key e); reflexivity.
Qed.

(** A call never removes a path from the cache. *)
Lemma IsCacheHit_keeps env e p q o key x :
  cached o key x -> cached (IsCacheHit env e p q o).2 key x.
Proof.
  unfold cached, IsCacheHit. intros Hx.
  destruct (disposed_ o || (0 <? String.length q)%nat
            || bool_decide (e = ES_EVENT_TYPE_NOTIFY_FORK)
            || bool_decide (e = ES_EVENT_TYPE_NOTIFY_EXEC)
            || bool_decide (e = ES_EVENT_TYPE_NOTIFY_EXIT)); [exact Hx|].
  destruct (negb (try_lock_for env)); [exact Hx|].
  destruct (cache_ o !! cache_key e) as [set|] eqn:Hk; cbn [snd set_cache cache_].
  - destruct (decide (cache_key e = key)) as [<-|Hne].
    + rewrite lookup_insert_eq. rewrite Hk in Hx. simpl in *.
      apply elem_of_union. right. exact Hx.
    + rewrite lookup_insert_ne by exact Hne. exact Hx.
  - destruct (decide (cache_key e = key)) as [<-|Hne].
    + rewrite Hk in Hx. simpl in Hx. apply elem_of_empty in Hx. contradiction.
    + rewrite lookup_insert_ne by exact Hne. exact Hx.
Qed.

(** What a call adds to the cache is the pair it was asked about. *)
Lemma IsCacheHit_adds env e p q o key x :
  cached (IsCacheHit env e p q o).2 key x ->
  cached o key x
  \/ (key = cache_key e /\ x = p /\ q = EmptyString /\ never_cached e = false).
Proof.
  unfold cached, IsCacheHit. intros Hx.
  destruct (disposed_ o); [left; exact Hx|].
  destruct q as [|c q]; [|left; exact Hx].
  assert (Hgate : bool_decide (e = ES_EVENT_TYPE_NOTIFY_FORK)
                  || bool_decide (e = ES_EVENT_TYPE_NOTIFY_EXEC)
                  || bool_decide (e = ES_EVENT_TYPE_NOTIFY_EXIT) = never_cached e)
    by (destruct e; reflexivity).
  cbn [String.length Nat.ltb Nat.leb orb] in Hx.
  rewrite Hgate in Hx.
  destruct (never_cached e) eqn:Hnever; [left; exact Hx|].
  destruct (negb (try_lock_for env)); [left; exact Hx|].
  destruct (cache_ o !! cache_key e) as [set|] eqn:Hk; cbn [snd set_cache cache_] in Hx.
  - destruct (decide (cache_key e = key)) as [<-|Hne].
    + rewrite lookup_insert_eq in Hx. simpl in Hx. rewrite Hk. simpl.
      apply elem_of_union in Hx as [Hx|Hx]; [|left; exact Hx].
      apply elem_of_singleton in Hx. right. auto.
    + rewrite lookup_insert_ne in Hx by exact Hne. left. exact Hx.
  - destruct (decide (cache_key e = key)) as [<-|Hne].
    + rewrite lookup_insert_eq in Hx. simpl in Hx.
      apply elem_of_singleton in Hx. right. auto.
    + rewrite lookup_insert_ne in Hx by exact Hne. left. exact Hx.
Qed.

(** A hit is given only for a pair that is in the cache, and only to a call
    without a second path. *)
Lemma IsCacheHit_hit env e p q o :
  (IsCacheHit env e p q o).1 = true ->
  q = EmptyString /\ never_cached e = false /\ cached o (cache_key e) p.
Proof.
  unfold cached, IsCacheHit. intros Hx.
  destruct (disposed_ o); [discriminate Hx|].
  destruct q as [|c q]; [|discriminate Hx].
  assert (Hgate : bool_decide (e = ES_EVENT_TYPE_NOTIFY_FORK)
                  || bool_decide (e = ES_EVENT_TYPE_NOTIFY_EXEC)
                  || bool_decide (e = ES_EVENT_TYPE_NOTIFY_EXIT) = never_cached e)
    by (destruct e; reflexivity).
  cbn [String.length Nat.ltb Nat.leb orb] in Hx.
  rewrite Hgate in Hx.
  destruct (never_cached e) eqn:Hnever; [discriminate Hx|].
  destruct (negb (try_lock_for env)); [discriminate Hx|].
  destruct (cache_ o !! cache_key e) as [set|] eqn:Hk; [|discriminate Hx].
  cbn [fst] in Hx. apply bool_decide_eq_true in Hx. auto.
Qed.

Lemma IsCacheHit_calls_keeps env calls : forall o key x,
  cached o key x -> cached (IsCacheHit_calls env calls o) key x.
Proof.
  induction calls as [|c calls IH]; intros o key x Hx; [exact Hx|].
  apply IH, IsCacheHit_keeps, Hx.
Qed.

Lemma IsCacheHit_calls_disposed env calls : forall o,
  disposed_ (IsCacheHit_calls env calls o) = disposed_ o.
Proof.
  induction calls as [|c calls IH]; intros o; [reflexivity|].
  change (disposed_ (IsCacheHit_calls env calls (IsCacheHit env c.1.1 c.1.2 c.2 o).2)
          = disposed_ o).
  rewrite IH. apply IsCacheHit_disposed.
Qed.

Lemma IsCacheHit_calls_adds env calls : forall o key x,
  cached (IsCacheHit_calls env calls o) key x ->
  cached o key x
  \/ exists c, c ∈ calls /\ key = cache_key c.1.1 /\ x = c.1.2
               /\ c.2 = EmptyString /\ never_cached c.1.1 = false.
Proof.
  induction calls as [|c calls IH]; intros o key x Hx; [left; exact Hx|].
  change (cached (IsCacheHit_calls env calls (IsCacheHit env c.1.1 c.1.2 c.2 o).2) key x)
    in Hx.
  apply IH in Hx as [Hx | (c' & Hin & Hc')].
  - apply IsCacheHit_adds in Hx as [Hx | (Hk & Hp & Hq & Hn)]; [left; exact Hx|].
    right. exists c. split; [apply list_elem_of_here | auto].
  - right. exists c'. split; [apply list_elem_of_further, Hin | exact Hc'].
Qed.

(** Once a path has been looked up for an event, every later look-up of it
    for an event with the same key is a hit, whatever was looked up in
    between: the cache has no eviction. *)
Theorem IsCacheHit_never_evicts env e1 e2 p calls o :
  disposed_ o = false -> try_lock_for env = true ->
  never_cached e1 = false -> never_cached e2 = false ->
  cache_key e1 = cache_key e2 ->
  (IsCacheHit env e2 p EmptyString
     (IsCacheHit_calls env calls (IsCacheHit env e1 p EmptyString o).2)).1 = true.
Proof.
  intros Hd Hl H1 H2 Hk.
  rewrite (IsCacheHit_cacheable env e2).
  - cbn [fst]. apply bool_decide_eq_true.
    apply (IsCacheHit_calls_keeps env calls _ (cache_key e2) p).
    unfold cached. rewrite (IsCacheHit_cacheable env e1) by assumption.
    cbn [snd set_cache cache_]. rewrite Hk, lookup_insert_eq. simpl.
    apply elem_of_union. left. apply elem_of_singleton. reflexivity.
  - rewrite IsCacheHit_calls_disposed, IsCacheHit_disposed. exact Hd.
  - exact Hl.
  - exact H2.
Qed.

(** A write to [/f], a stat of [/g], then a truncation of [/f]. *)
Lemma IsCacheHit_never_evicts_witness :
  (IsCacheHit quiet_env ES_EVENT_TYPE_NOTIFY_TRUNCATE "/f" EmptyString
     (IsCacheHit_calls quiet_env [(ES_EVENT_TYPE_NOTIFY_STAT, "/g"%string, EmptyString)]
        (IsCacheHit quiet_env ES_EVENT_TYPE_NOTIFY_WRITE "/f" EmptyString
           fresh_observer).2)).1 = true.
Proof. apply IsCacheHit_never_evicts; reflexivity. Defined.

(** Starting from an empty cache, a hit means that an earlier call asked
    about the same path with an event of the same key: no access is held
    back from the policy engine unless one like it went before. *)
Theorem IsCacheHit_hit_follows_a_miss env calls e p q o :
  cache_ o = ∅ ->
  (IsCacheHit env e p q (IsCacheHit_calls env calls o)).1 = true ->
  q = EmptyString
  /\ exists c, c ∈ calls /\ cache_key c.1.1 = cache_key e /\ c.1.2 = p
               /\ c.2 = EmptyString /\ never_cached c.1.1 = false.
Proof.
  intros Hempty Hhit.
  apply IsCacheHit_hit in Hhit as (Hq & _ & Hc). split; [exact Hq|].
  apply IsCacheHit_calls_adds in Hc as [Hc | (c & Hin & Hk & Hp & Hc2 & Hn)].
  - unfold cached in Hc. rewrite Hempty, lookup_empty in Hc. simpl in Hc.
    apply elem_of_empty in Hc. contradiction.
  - exists c. auto.
Qed.

(** Two accesses of [/f]. *)
Lemma IsCacheHit_hit_follows_a_miss_witness :
  EmptyString = EmptyString
  /\ exists c : cache_call,
       c ∈ [(ES_EVENT_TYPE_NOTIFY_ACCESS, "/f"%string, EmptyString)]
       /\ cache_key c.1.1 = cache_key ES_EVENT_TYPE_NOTIFY_ACCESS /\ c.1.2 = "/f"%string
       /\ c.2 = EmptyString /\ never_cached c.1.1 = false.
Proof.
  apply (IsCacheHit_hit_follows_a_miss quiet_env
           [(ES_EVENT_TYPE_NOTIFY_ACCESS, "/f"%string, EmptyString)]
           ES_EVENT_TYPE_NOTIFY_ACCESS "/f" EmptyString fresh_observer);
    vm_compute; reflexivity.
Defined.

(** ** One policy check per key and path *)

Lemma create_access_internal_deduplicated env syscallName e p mode o :
  disposed_ o = false -> try_lock_for env = true ->
  deduplicated o ->
  let o' := (create_access_internal env syscallName e p None mode true o).2 in
  disposed_ o' = false /\ deduplicated o'.
Proof.
  intros Hd Hl [Hnd Hin]. cbv zeta.
  unfold create_access_internal.
  destruct (never_cached e) eqn:Hnever.
  - (* fork, exec, exit: the cache is passed by *)
    rewrite IsCacheHit_refuses by auto.
    set (m := if mode =? 0 then get_mode env p else mode).
    destruct (is_non_file m); [split; [exact Hd | split; assumption]|].
    unfold create_access_event.
    destruct (IsEnabled env); [|split; [exact Hd | split; assumption]].
    destruct (CheckAccessAndBuildReport env _) as [res grp].
    cbn [snd disposed_]. split; [exact Hd|]. split.
    + cbn [checked]. rewrite List.filter_app, map_app. cbn [List.filter].
      unfold cacheable at 2. cbn [GetEventType]. rewrite Hnever. cbn [negb List.map].
      rewrite app_nil_r. exact Hnd.
    + cbn [checked cache_]. intros ev Hev Hc. apply elem_of_app in Hev as [Hev|Hev].
      * apply Hin; assumption.
      * apply list_elem_of_singleton in Hev. subst ev.
        unfold cacheable in Hc. cbn [GetEventType] in Hc. rewrite Hnever in Hc. discriminate.
  - rewrite IsCacheHit_cacheable by assumption.
    set (o1 := set_cache _ o).
    assert (Hkeep : forall key x, cached o key x -> cached o1 key x).
    { intros key x Hx. subst o1. unfold cached in *. cbn [set_cache cache_].
      destruct (decide (cache_key e = key)) as [<-|Hne].
      - rewrite lookup_insert_eq. simpl. apply elem_of_union. right. exact Hx.
      - rewrite lookup_insert_ne by exact Hne. exact Hx. }
    assert (Hnew : cached o1 (cache_key e) p).
    { subst o1. unfold cached. cbn [set_cache cache_]. rewrite lookup_insert_eq. simpl.
      apply elem_of_union. left. apply elem_of_singleton. reflexivity. }
    assert (Hsame : checked o1 = checked o /\ disposed_ o1 = disposed_ o) by (split; reflexivity).
    destruct Hsame as [Hchecked Hdisposed].
    destruct (bool_decide (p ∈ default ∅ (cache_ o !! cache_key e))) eqn:Hhit.
    + cbn [snd]. split; [rewrite Hdisposed; exact Hd|]. split.
      * rewrite Hchecked. exact Hnd.
      * rewrite Hchecked. intros ev Hev Hc. apply Hkeep, Hin; assumption.
    + apply bool_decide_eq_false in Hhit.
      set (m := if mode =? 0 then get_mode env p else mode).
      destruct (is_non_file m).
      { cbn [snd]. split; [rewrite Hdisposed; exact Hd|]. split.
        - rewrite Hchecked. exact Hnd.
        - rewrite Hchecked. intros ev Hev Hc. apply Hkeep, Hin; assumption. }
      unfold create_access_event.
      destruct (IsEnabled env).
      2:{ cbn [snd]. split; [rewrite Hdisposed; exact Hd|]. split.
          - rewrite Hchecked. exact Hnd.
          - rewrite Hchecked. intros ev Hev Hc. apply Hkeep, Hin; assumption. }
      destruct (CheckAccessAndBuildReport env _) as [res grp].
      cbn [snd disposed_]. split; [rewrite Hdisposed; exact Hd|]. split.
      * cbn [checked]. rewrite Hchecked, List.filter_app, map_app. cbn [List.filter].
        unfold cacheable at 2. cbn [GetEventType]. rewrite Hnever. cbn [negb List.map].
        apply NoDup_app. split; [exact Hnd|]. split; [|apply NoDup_singleton].
        intros x Hx Hx'. apply list_elem_of_singleton in Hx'. subst x.
        apply list_elem_of_In, in_map_iff in Hx as (ev & Hentry & Hev).
        apply filter_In in Hev as [Hev Hc].
        unfold cache_entry in Hentry. cbn [GetEventType GetSrcPath] in Hentry.
        inversion Hentry as [[Hk Hp]].
        apply Hhit. pose proof (Hin ev ltac:(apply list_elem_of_In; exact Hev) Hc) as Hcached.
        unfold cached in Hcached. rewrite Hk, Hp in Hcached. exact Hcached.
      * cbn [checked cache_]. rewrite Hchecked.
        intros ev Hev Hc. apply elem_of_app in Hev as [Hev|Hev].
        -- apply (Hkeep _ _ (Hin ev Hev Hc)).
        -- apply list_elem_of_singleton in Hev. subst ev. exact Hnew.
Qed.

(** The cache removes repetitions.  In any sequence of accesses created
    with the cache consulted (and without a second path), when the lock is
    acquired each time, no two of the cacheable events that reach the policy
    engine have the same cache key and the same path: an access is checked
    and reported once per key and path. *)
Theorem policy_checks_are_not_repeated env syscallName calls :
  try_lock_for env = true ->
  NoDup (List.map cache_entry
           (List.filter cacheable
              (checked (create_access_calls env syscallName calls fresh_observer)))).
Proof.
  intros Hl.
  assert (Hgen : forall o, disposed_ o = false -> deduplicated o ->
                           deduplicated (create_access_calls env syscallName calls o)).
  { induction calls as [|c calls IH]; intros o Hd Hinv; [exact Hinv|].
    destruct (create_access_internal_deduplicated env syscallName c.1.1 c.1.2 c.2 o Hd Hl Hinv)
      as [Hd' Hinv'].
    exact (IH _ Hd' Hinv'). }
  apply Hgen; [reflexivity|]. split; [constructor|].
  intros ev Hev. apply elem_of_nil in Hev. contradiction.
Qed.

(** Two stats of [/f] and an access of [/g]. *)
Lemma policy_checks_are_not_repeated_witness :
  NoDup (List.map cache_entry
           (List.filter cacheable
              (checked (create_access_calls quiet_env "stat"
                          [(ES_EVENT_TYPE_NOTIFY_STAT, "/f"%string, 0);
                           (ES_EVENT_TYPE_NOTIFY_STAT, "/f"%string, 0);
                           (ES_EVENT_TYPE_NOTIFY_ACCESS, "/g"%string, 0)]
                          fresh_observer)))).
Proof. exact (policy_checks_are_not_repeated quiet_env "stat" _ eq_refl). Defined.

(** ** What reaches the report sink *)

Lemma Send_returns env buf bufsiz b ws :
  Send env buf bufsiz = Returns b ws ->
  b = true /\ ws = [mkWire buf.1 buf.2 bufsiz] /\ bufsiz <= Linux.PIPE_BUF.
Proof.
  unfold Send. intros H.
  destruct (negb (real_open_found env)); [discriminate|].
  destruct (bufsiz >? Linux.PIPE_BUF) eqn:E; [discriminate|].
  destruct (real_open_result env =? -1); [discriminate|].
  destruct (to_uint64 (real_write_result env bufsiz) <? bufsiz); [discriminate|].
  inversion H; subst. rewrite Z.gtb_ltb in E. apply Z.ltb_ge in E. auto.
Qed.

Lemma to_uint64_nonneg z : 0 <= to_uint64 z.
Proof. unfold to_uint64. apply Z.mod_pos_bound. lia. Qed.

(** A [SendReport] that returns has returned true after at most one write,
    of at most [PIPE_BUF] bytes, whose text is the path of the report or a
    prefix of it; for [kOpProcessTreeCompleted] nothing is written. *)
Lemma SendReport_returns BuildReport env report isDebugMessage b ws :
  SendReport BuildReport env report isDebugMessage = Returns b ws ->
  b = true
  /\ (length ws <= 1)%nat
  /\ Forall (fun w => 0 <= wire_bufsiz w <= Linux.PIPE_BUF
                      /\ exists n, wire_path w = substring 0 n (path report)) ws
  /\ (operation report = kOpProcessTreeCompleted -> ws = []).
Proof.
  unfold SendReport. intros H.
  destruct (bool_decide (operation report = kOpProcessTreeCompleted)) eqn:Hop.
  - inversion H; subst. repeat split; auto.
  - apply bool_decide_eq_false in Hop.
    assert (Hsend : forall k text n,
              (exists m, text = substring 0 m (path report)) ->
              Send env (k, text) (to_uint64 n) = Returns b ws ->
              b = true /\ (length ws <= 1)%nat
              /\ Forall (fun w => 0 <= wire_bufsiz w <= Linux.PIPE_BUF
                                  /\ exists n, wire_path w = substring 0 n (path report)) ws
              /\ (operation report = kOpProcessTreeCompleted -> ws = [])).
    { intros k text n Htext Hs. apply Send_returns in Hs as (-> & -> & Hle).
      split; [reflexivity|]. split; [cbn; lia|]. split.
      - constructor; [|constructor]. cbn [wire_bufsiz wire_path fst snd].
        split; [split; [apply to_uint64_nonneg | exact Hle] | exact Htext].
      - intros; contradiction. }
    destruct (BuildReport (Linux.PIPE_BUF - 4) report (path report) >=? Linux.PIPE_BUF - 4).
    + destruct (negb isDebugMessage); [discriminate|].
      destruct (Linux.PATH_MAX - (BuildReport (Linux.PIPE_BUF - 4) report (path report)
                                  - (Linux.PIPE_BUF - 4)) <=? 0); [discriminate|].
      eapply Hsend; [|exact H]. unfold strncpy_path. eauto.
    + eapply Hsend; [|exact H]. exists (String.length (path report)).
      clear. induction (path report) as [|c s IH]; [reflexivity|].
      cbn [String.length substring]. rewrite <- IH. reflexivity.
Qed.

(** Sending a report group: when the call returns it has returned true, it
    has made at most one write for each member whose [shouldReport] is set,
    and no write carried more than [PIPE_BUF] bytes, the size up to which a
    write to the pipe is atomic. *)
Theorem SendReportGroup_writes BuildReport isDebugMessage_default env group b ws :
  SendReportGroup BuildReport isDebugMessage_default env group = Returns b ws ->
  b = true
  /\ (length ws <= (if shouldReport (firstReport group) then 1 else 0)
                   + (if shouldReport (secondReport group) then 1 else 0))%nat
  /\ Forall (fun w => 0 <= wire_bufsiz w <= Linux.PIPE_BUF) ws.
Proof.
  unfold SendReportGroup. intros H.
  assert (Hweak : forall r ws',
            Forall (fun w => 0 <= wire_bufsiz w <= Linux.PIPE_BUF
                             /\ exists n, wire_path w = substring 0 n (path r)) ws' ->
            Forall (fun w => 0 <= wire_bufsiz w <= Linux.PIPE_BUF) ws').
  { intros r ws' Hall. eapply Forall_impl; [exact Hall|]. intros w [Hw _]. exact Hw. }
  destruct (shouldReport (firstReport group)); destruct (shouldReport (secondReport group)).
  all: repeat match type of H with
       | context [SendReport ?B ?e ?r ?d] =>
           let E := fresh "E" in
           destruct (SendReport B e r d) as [? ?| |] eqn:E; try discriminate;
           apply SendReport_returns in E as (-> & ? & ?%Hweak & _)
       end; inversion H; subst; clear H; repeat split; auto;
    rewrite ?length_app, ?app_nil_r; cbn [length]; try lia;
    try apply Forall_app; auto.
Qed.

(** A group of two reports of a few bytes each, and a sink that takes all
    it is given. *)
Lemma SendReportGroup_writes_witness :
  true = true
  /\ (length [mkWire 22 "/a" 26; mkWire 22 "/b" 26] <= 1 + 1)%nat
  /\ Forall (fun w => 0 <= wire_bufsiz w <= Linux.PIPE_BUF)
            [mkWire 22 "/a" 26; mkWire 22 "/b" 26].
Proof.
  exact (SendReportGroup_writes (header_and_path 20) false (sink_writing (fun n => n))
           {| firstReport := access_report "/a"; secondReport := access_report "/b" |}
           true [mkWire 22 "/a" 26; mkWire 22 "/b" 26] eq_refl).
Defined.

(** ** LogDebug *)





(** ** The exit notification of the tracer loop *)

Lemma reports_do_not_resume pid es :
  Forall (fun e => is_report e = true) es -> Forall (fun e => resumes pid e = false) es.
Proof.
  intros H. eapply Forall_impl; [exact H|].
  intros e He. destruct e; try discriminate He; reflexivity.
Qed.

Lemma loop_body_notifications m_bxl env w s :
  match loop_body m_bxl env w s with
  | Done ctl s' =>
      exitnotifications (effects s') = exitnotifications (effects s)
      /\ (ctl = Break -> m_traceeTable s' = [])
  | NotReturned c s' =>
      returns m_bxl (effects s') c = false
      /\ exitnotifications (effects s') = exitnotifications (effects s)
  | Exit_ _ s' =>
      exitnotifications (effects s') = exitnotifications (effects s)
  end.
Proof.
  assert (Hexit :
    match AllTraceesHaveExited m_bxl env (set_traceePid (w_pid w) s) with
    | Done r s' =>
        exitnotifications (effects s') = exitnotifications (effects s)
        /\ (r = true -> m_traceeTable s' = [])
    | NotReturned c s' =>
        returns m_bxl (effects s') c = false
        /\ exitnotifications (effects s') = exitnotifications (effects s)
    | Exit_ _ _ => False
    end).
  { pose proof (AllTraceesHaveExited_spec m_bxl env (set_traceePid (w_pid w) s)) as Hspec.
    destruct (AllTraceesHaveExited m_bxl env (set_traceePid (w_pid w) s)) as [r s1|c s1|];
      [| |exact Hspec].
    - destruct Hspec as (_ & Hiff & Heff & _). split; [|apply Hiff].
      rewrite Heff, exitnotifications_app. cbn [set_traceePid effects].
      destruct r; cbn; lia.
    - destruct Hspec as (Hret & _ & es & Heff & Hes). split; [exact Hret|].
      rewrite Heff, exitnotifications_app, (exitnotifications_reports es Hes).
      cbn [set_traceePid effects]. lia. }
  assert (Hchild : forall sc,
    match HandleChildProcess_outcome m_bxl env sc (to_int32 (w_eventmsg w))
            (set_traceePid (w_pid w) s) with
    | Done _ s' => exitnotifications (effects s') = exitnotifications (effects s)
    | NotReturned c s' =>
        returns m_bxl (effects s') c = false
        /\ exitnotifications (effects s') = exitnotifications (effects s)
    | Exit_ _ _ => False
    end).
  { intros sc.
    pose proof (HandleChildProcess_outcome_spec m_bxl env sc (to_int32 (w_eventmsg w))
                  (set_traceePid (w_pid w) s)) as Hspec.
    destruct (HandleChildProcess_outcome m_bxl env sc (to_int32 (w_eventmsg w))
                (set_traceePid (w_pid w) s)) as [[] s1|c s1|]; [| |exact Hspec].
    - subst s1.
      destruct (HandleChildProcess_table env sc (to_int32 (w_eventmsg w))
                  (set_traceePid (w_pid w) s)) as (x & _ & ->).
      reflexivity.
    - destruct Hspec as (Hret & es & Heff & Hes). split; [exact Hret|].
      rewrite Heff, exitnotifications_app, (exitnotifications_reports es Hes).
      cbn [set_traceePid effects]. lia. }
  unfold loop_body, tracer_bind, get, request, modify, tracer_ret, _exit.
  destruct (Linux.WIFEXITED (w_status w)).
  { tracer_step; [|auto].
    destruct (AllTraceesHaveExited m_bxl env (set_traceePid (w_pid w) s)) as [r s1|c s1|];
      [|exact Hexit|destruct Hexit].
    destruct Hexit as [Hn Hempty]. split; [exact Hn|].
    destruct r; [auto | discriminate]. }
  destruct (Linux.WIFSIGNALED (w_status w)).
  { tracer_step; [|auto].
    destruct (AllTraceesHaveExited m_bxl env (set_traceePid (w_pid w) s)) as [r s1|c s1|];
      [|exact Hexit|destruct Hexit].
    destruct Hexit as [Hn Hempty]. split; [exact Hn|].
    destruct r; [auto | discriminate]. }
  destruct (negb (Linux.WIFSTOPPED (w_status w))).
  { tracer_step; [reflexivity | auto]. }
  destruct (is_event (w_status w) Linux.PTRACE_EVENT_CLONE).
  { specialize (Hchild "clone"%string).
    destruct (HandleChildProcess_outcome m_bxl env "clone" _ _) as [[] s1|c s1|];
      [split; [exact Hchild | discriminate] | exact Hchild | destruct Hchild]. }
  destruct (is_event (w_status w) Linux.PTRACE_EVENT_FORK).
  { specialize (Hchild "fork"%string).
    destruct (HandleChildProcess_outcome m_bxl env "fork" _ _) as [[] s1|c s1|];
      [split; [exact Hchild | discriminate] | exact Hchild | destruct Hchild]. }
  destruct (is_event (w_status w) Linux.PTRACE_EVENT_VFORK).
  { specialize (Hchild "vfork"%string).
    destruct (HandleChildProcess_outcome m_bxl env "vfork" _ _) as [[] s1|c s1|];
      [split; [exact Hchild | discriminate] | exact Hchild | destruct Hchild]. }
  destruct (is_event (w_status w) Linux.PTRACE_EVENT_EXIT).
  { tracer_step; [|auto].
    destruct (AllTraceesHaveExited m_bxl env (set_traceePid (w_pid w) s)) as [r s1|c s1|];
      [|exact Hexit|destruct Hexit].
    destruct Hexit as [Hn Hempty]. cbv beta iota.
    rewrite exitnotifications_emit. cbn [is_exitnotification emit m_traceeTable].
    split; [lia|]. destruct r; [auto | discriminate]. }
  destruct (is_event (w_status w) Linux.PTRACE_EVENT_SECCOMP).
  { tracer_step.
    - rewrite !exitnotifications_emit.
      cbn [is_exitnotification set_traceePid effects]. split; [lia | discriminate].
    - auto. }
  destruct (Linux.WIFSTOPPED (w_status w) && _);
    rewrite exitnotifications_emit; cbn [is_exitnotification set_traceePid effects];
    (split; [lia | discriminate]).
Qed.

(** Over any sequence of wait results, and whichever calls into the
    observer return, the exit notification is put on the message queue at
    most once, and only after the loop has ended with an empty registry.  A
    run that returns has an empty registry and has sent it; a run that waits
    for a tracee or left through [_exit] has not; a run that ended inside a
    call that does not return has sent it only when that call is the debug
    message after [mq_send]. *)
Theorem exit_notification_only_when_registry_empty m_bxl env ws : forall s,
  match main_loop m_bxl env ws s with
  | Finished s' =>
      m_traceeTable s' = []
      /\ exitnotifications (effects s') = S (exitnotifications (effects s))
  | Waiting s' | Exited _ s' =>
      exitnotifications (effects s') = exitnotifications (effects s)
  | InCall c s' =>
      returns m_bxl (effects s') c = false
      /\ (exitnotifications (effects s') = exitnotifications (effects s)
          \/ (c = Debug "[PTrace] Exit notification result '%d', errno '%d'"
              /\ m_traceeTable s' = []
              /\ exitnotifications (effects s') = S (exitnotifications (effects s))))
  end.
Proof.
  induction ws as [|w ws IH]; intros s; cbn [main_loop]; [reflexivity|].
  pose proof (loop_body_notifications m_bxl env w s) as Hb.
  destruct (loop_body m_bxl env w s) as [[|] s1|c s1|code s1].
  - destruct Hb as [Hn _]. specialize (IH s1).
    destruct (main_loop m_bxl env ws s1); rewrite <- Hn; exact IH.
  - destruct Hb as [Hn Ht]. specialize (Ht eq_refl).
    unfold notify_daemon, tracer_bind, request, modify.
    tracer_step; cbn [ended emit m_traceeTable effects].
    + split; [exact Ht|]. rewrite exitnotifications_app, Hn. cbn. lia.
    + split; [exact Hret|]. right. split; [reflexivity|]. split; [exact Ht|].
      rewrite exitnotifications_app, Hn. cbn. lia.
  - destruct Hb as [Hret Hn]. split; [exact Hret | left; exact Hn].
  - exact Hb.
Qed.

(** ** ReadArgumentString with a length *)

Lemma read_word_counted n : forall w i nt len stored csl,
  0 <= csl < len -> len <= Linux.PATH_MAX -> Z.of_nat (length stored) = csl ->
  exists stored' csl' fin,
    read_word n w i nt len stored csl = WordDone stored' csl' fin
    /\ Z.of_nat (length stored') = csl'
    /\ 0 <= csl' <= len
    /\ (fin = false -> csl' < len).
Proof.
  induction n as [|n IH]; intros w i nt len stored csl Hcsl Hlen Hst; cbn [read_word].
  - exists stored, csl, false. split; [reflexivity|]. split; [exact Hst|].
    split; [lia | intros _; lia].
  - assert (Hin : in_argument csl = true).
    { unfold in_argument. apply andb_true_intro. split; [apply Z.leb_le | apply Z.leb_le]; lia. }
    rewrite Hin. cbn [negb].
    destruct ((nt && (byte_of_long w i =? 0)) || ((len >? 0) && (csl + 1 =? len))) eqn:Hc.
    + exists (byte_of_long w i :: stored), (csl + 1), true.
      split; [reflexivity|]. split; [cbn [length]; lia|]. split; [lia | discriminate].
    + apply orb_false_elim in Hc as [_ Hc].
      assert (Hpos : (len >? 0) = true) by (rewrite Z.gtb_ltb; apply Z.ltb_lt; lia).
      rewrite Hpos in Hc. cbn in Hc. apply Z.eqb_neq in Hc.
      apply IH; [lia | lia | cbn [length]; lia].
Qed.

Lemma read_words_counted fuel : forall t addr nt len stored csl,
  0 <= csl < len -> len <= Linux.PATH_MAX -> Z.of_nat (length stored) = csl ->
  read_words fuel t addr nt len stored csl = ReadOutOfFuel
  \/ exists bytes, read_words fuel t addr nt len stored csl = ReadDone bytes
                   /\ Z.of_nat (length bytes) <= len.
Proof.
  induction fuel as [|fuel IH]; intros t addr nt len stored csl Hcsl Hlen Hst;
    cbn [read_words]; [left; reflexivity|].
  assert (Hin : forall c, 0 <= c <= len -> in_argument c = true).
  { intros c Hc. unfold in_argument. apply andb_true_intro.
    split; apply Z.leb_le; lia. }
  destruct (peektext t addr =? -1).
  - rewrite Hin by lia. right. exists (rev stored). split; [reflexivity|].
    rewrite length_rev. lia.
  - destruct (read_word_counted 8 (peektext t addr) 0 nt len stored csl Hcsl Hlen Hst)
      as (stored' & csl' & fin & -> & Hst' & Hcsl' & Hfin).
    destruct fin.
    + rewrite Hin by lia. right. exists (rev stored'). split; [reflexivity|].
      rewrite length_rev. lia.
    + apply IH; [specialize (Hfin eq_refl); lia | exact Hlen | exact Hst'].
Qed.

(** With a length between 1 and [PATH_MAX], [ReadArgumentString] returns,
    every store is inside [argument], and at most [length] bytes are read,
    whatever the memory of the tracee holds. *)
Theorem ReadArgumentString_with_length_in_bounds t argumentIndex nullTerminated len :
  0 < len <= Linux.PATH_MAX ->
  exists bytes,
    ReadArgumentString t argumentIndex nullTerminated len = ReadDone bytes
    /\ Z.of_nat (length bytes) <= len.
Proof.
  intros Hlen.
  pose proof (ReadArgumentString_total t argumentIndex nullTerminated len) as Htotal.
  unfold ReadArgumentString in *.
  destruct (read_words_counted (Z.to_nat (Linux.PATH_MAX + 2)) t
              (to_uint64 (peekuser t (GetArgumentAddr argumentIndex)))
              nullTerminated len [] 0) as [Hout | Hdone];
    [lia | lia | reflexivity | contradiction | exact Hdone].
Qed.

(** Sixteen bytes of a memory that holds no NUL. *)
Lemma ReadArgumentString_with_length_in_bounds_witness :
  exists bytes,
    ReadArgumentString (tracee_with_string 8192 (fun _ => AAAAAAAA)) 1 false 16
    = ReadDone bytes
    /\ Z.of_nat (length bytes) <= 16.
Proof.
  apply (ReadArgumentString_with_length_in_bounds
           (tracee_with_string 8192 (fun _ => AAAAAAAA)) 1 false 16).
  unfold Linux.PATH_MAX. lia.
Defined.

(** ** Invariants of resolve_path *)

Section resolve_invariants.
Local Open Scope nat_scope.
Variable real_readlink : list ascii -> option (list ascii).
Variable capacity : nat.
Variable followFinalSymlink : bool.

Lemma find_prev_slash_found s p :
  is_char slash (s !! 0) = true -> 1 <= p -> exists q, find_prev_slash s p = Some q.
Proof.
  intros H0 Hp. induction p as [|p IH]; [lia|]. cbn [find_prev_slash].
  destruct (is_char slash (s !! p)) eqn:E; [eauto|].
  destruct p as [|p]; [congruence|]. apply IH. lia.
Qed.

Lemma lookup_0_take_app (s t : list ascii) k :
  1 <= k -> (take k s ++ t) !! 0 = (s ++ t) !! 0.
Proof. intros Hk. destruct s; destruct k; try lia; reflexivity. Qed.

Lemma is_char_0_take_app (s t : list ascii) k :
  1 <= k -> is_char slash (s !! 0) = true -> is_char slash ((take k s ++ t) !! 0) = true.
Proof.
  intros Hk H. rewrite lookup_0_take_app by exact Hk.
  destruct s; [discriminate | exact H].
Qed.

Lemma resolve_link_invariant st :
  resolve_invariant st ->
  match resolve_link real_readlink capacity followFinalSymlink st with
  | Again st' => resolve_invariant st'
  | Stop st' =>
      is_char slash (fullpath st' !! 0) = true /\ NoDup (readlink_reports st')
  | Faulted why => why <> scan_before_buffer
  end.
Proof.
  intros (Hhead & Hp & Hnd & Hiff). unfold resolve_link.
  destruct st as [s p v r]. cbn [fullpath pFullpath visited readlink_reports] in *.
  destruct (readlink_at real_readlink followFinalSymlink (mkResolve s p v r)) as [target|].
  - destruct (PATH_MAX_nat <=? length (take PATH_MAX_nat target)); [discriminate|].
    destruct (bool_decide (take p s ∈ v)) eqn:Hvis.
    { cbn [fullpath readlink_reports]. split; [|exact Hnd].
      rewrite <- (app_nil_r (take p s)). apply is_char_0_take_app; [lia | exact Hhead]. }
    apply bool_decide_eq_false in Hvis.
    destruct (length (take PATH_MAX_nat target) =? 0); [discriminate|].
    set (rest := if is_char slash (last (take PATH_MAX_nat target)) && is_char slash (s !! p)
                 then drop (S p) s else drop p s).
    destruct (PATH_MAX_nat <? length (take PATH_MAX_nat target) + length rest + 1);
      [discriminate|].
    assert (Hnd' : NoDup (r ++ [take p s])).
    { apply NoDup_app. split; [exact Hnd|]. split.
      - intros x Hx Hx'. apply list_elem_of_singleton in Hx'. subst x.
        apply Hvis, Hiff, Hx.
      - apply NoDup_singleton. }
    assert (Hiff' : forall x, x ∈ r ++ [take p s] <-> x ∈ ({[take p s]} ∪ v : gset (list ascii))).
    { intros x. rewrite elem_of_app, list_elem_of_singleton, elem_of_union, elem_of_singleton, Hiff.
      tauto. }
    destruct (is_char slash (head (take PATH_MAX_nat target ++ rest))) eqn:Habs.
    + destruct (capacity <? length (take PATH_MAX_nat target ++ rest) + 1); [discriminate|].
      unfold resolve_invariant. cbn [fullpath pFullpath visited readlink_reports].
      rewrite head_lookup in Habs. split; [exact Habs|]. split; [|auto].
      destruct (take PATH_MAX_nat target ++ rest); [discriminate|]. cbn. lia.
    + destruct (find_prev_slash_found s p Hhead) as [q Hq]; [lia|]. rewrite Hq.
      destruct (capacity <? S q + length (take PATH_MAX_nat target ++ rest) + 1);
        [discriminate|].
      unfold resolve_invariant. cbn [fullpath pFullpath visited readlink_reports].
      assert (q < p).
      { clear -Hq. revert Hq. induction p as [|p IH]; cbn; [discriminate|].
        destruct (is_char slash (s !! p)); [intros [= <-]; lia | intros H; apply IH in H; lia]. }
      split; [apply is_char_0_take_app; [lia | exact Hhead]|].
      split; [rewrite length_app, length_take; lia | auto].
  - destruct (is_nul (s !! p)) eqn:Hn.
    + cbn [fullpath readlink_reports]. auto.
    + unfold resolve_invariant. cbn [fullpath pFullpath visited readlink_reports].
      assert (p < length s).
      { destruct (s !! p) eqn:E; [|discriminate]. eapply lookup_lt_Some, E. }
      split; [exact Hhead|]. split; [lia | auto].
Qed.

Lemma resolve_body_invariant st :
  resolve_invariant st ->
  match resolve_body real_readlink capacity followFinalSymlink st with
  | Again st' => resolve_invariant st'
  | Stop st' =>
      is_char slash (fullpath st' !! 0) = true /\ NoDup (readlink_reports st')
  | Faulted why => why <> scan_before_buffer
  end.
Proof.
  intros Hinv. pose proof Hinv as (Hhead & Hp & Hnd & Hiff). unfold resolve_body.
  destruct (is_char slash (fullpath st !! pFullpath st)) eqn:Hslash;
    [|apply resolve_link_invariant, Hinv].
  assert (Hlt : pFullpath st < length (fullpath st)).
  { destruct (fullpath st !! pFullpath st) eqn:E; [|discriminate]. eapply lookup_lt_Some, E. }
  destruct (find_prev_slash_found (fullpath st) (pFullpath st) Hhead) as [q Hq]; [lia|].
  rewrite Hq.
  assert (Hqp : q < pFullpath st).
  { clear -Hq. revert Hq. generalize (pFullpath st). intros p.
    induction p as [|p IH]; cbn; [discriminate|].
    destruct (is_char slash (fullpath st !! p)); [intros [= <-]; lia | intros H; apply IH in H; lia]. }
  assert (Hshift : forall n p', 1 <= n <= pFullpath st -> 1 <= p' <= length (fullpath st) - n ->
            resolve_invariant (mkResolve (shift_left (fullpath st) (S (pFullpath st)) n) p'
                                 (visited st) (readlink_reports st))).
  { intros n p' Hn Hp'. unfold resolve_invariant.
    cbn [fullpath pFullpath visited readlink_reports].
    split; [unfold shift_left; apply is_char_0_take_app; [lia | exact Hhead]|].
    split; [|auto]. unfold shift_left.
    rewrite length_app, length_take, length_drop. lia. }
  destruct (pFullpath st - q - 1 =? 0) eqn:E0.
  { apply Nat.eqb_eq in E0. apply Hshift; lia. }
  destruct ((pFullpath st - q - 1 =? 1) && is_char dot (fullpath st !! (pFullpath st - 1))) eqn:E1.
  { apply andb_prop in E1 as [E1 _]. apply Nat.eqb_eq in E1. apply Hshift; lia. }
  destruct ((pFullpath st - q - 1 =? 2) && is_char dot (fullpath st !! (pFullpath st - 1))
            && is_char dot (fullpath st !! (pFullpath st - 2))) eqn:E2;
    [|apply resolve_link_invariant, Hinv].
  destruct (0 <? q) eqn:Hq0.
  - apply Nat.ltb_lt in Hq0.
    destruct (find_prev_slash_found (fullpath st) q Hhead) as [q' Hq']; [lia|].
    rewrite Hq'.
    assert (q' < q).
    { clear -Hq'. revert Hq'. induction q as [|p IH]; cbn; [discriminate|].
      destruct (is_char slash (fullpath st !! p)); [intros [= <-]; lia | intros H; apply IH in H; lia]. }
    apply Hshift; lia.
  - apply Hshift; lia.
Qed.

Lemma resolve_loop_invariant fuel : forall st,
  resolve_invariant st ->
  match resolve_loop real_readlink capacity followFinalSymlink fuel st with
  | Resolved p reports => is_char slash (p !! 0) = true /\ NoDup reports
  | MemoryFault why => why <> scan_before_buffer
  | ResolveOutOfFuel => True
  end.
Proof.
  induction fuel as [|fuel IH]; intros st Hinv; cbn [resolve_loop]; [exact I|].
  pose proof (resolve_body_invariant st Hinv) as Hb.
  destruct (resolve_body real_readlink capacity followFinalSymlink st) as [st'|st'|why].
  - apply IH, Hb.
  - exact Hb.
  - exact Hb.
Qed.

(** An absolute path stays absolute, and a path that is not absolute is
    returned as it is, with no report, no fault and no iteration of the
    loop; every prefix is reported to [_readlink] at most once; and
    [find_prev_slash] never steps below the start of the buffer, since the
    slash at index 0 stops it. *)
Theorem resolve_path_stays_absolute fuel path :
  match resolve_path real_readlink capacity followFinalSymlink fuel path with
  | Resolved p reports =>
      NoDup reports
      /\ is_char slash (head p) = is_char slash (head path)
      /\ (if is_char slash (head path) then True else p = path /\ reports = [])
  | MemoryFault why =>
      is_char slash (head path) = true /\ why <> scan_before_buffer
  | ResolveOutOfFuel => is_char slash (head path) = true
  end.
Proof.
  unfold resolve_path.
  destruct (is_char slash (head path)) eqn:Habs; cbn [negb].
  - assert (Hinv : resolve_invariant (mkResolve path 1 ∅ [])).
    { unfold resolve_invariant. cbn [fullpath pFullpath visited readlink_reports].
      rewrite head_lookup in Habs. split; [exact Habs|].
      split; [destruct path; [discriminate | cbn; lia]|].
      split; [constructor|]. intros x. rewrite elem_of_nil. set_solver. }
    pose proof (resolve_loop_invariant fuel (mkResolve path 1 ∅ []) Hinv) as H.
    destruct (resolve_loop real_readlink capacity followFinalSymlink fuel
                (mkResolve path 1 ∅ [])).
    + rewrite head_lookup. destruct H as [H1 H2]. auto.
    + split; [reflexivity | exact H].
    + reflexivity.
  - split; [constructor|]. split; [exact Habs|]. split; reflexivity.
Qed.
End resolve_invariants.

(** ** Paths that resolve_path leaves as they are *)

Section resolve_canonical_scan.
Local Open Scope nat_scope.
Lemma is_char_true c (o : option ascii) : is_char c o = true <-> o = Some c.
Proof.
  destruct o as [x|]; cbn; [|split; discriminate].
  destruct (Ascii.eqb_spec x c); split; congruence.
Qed.

Lemma is_char_refl c : is_char c (Some c) = true.
Proof. apply Ascii.eqb_refl. Qed.

Lemma find_prev_slash_component (a c t : list ascii) :
  slash ∉ c ->
  find_prev_slash (a ++ slash :: c ++ t) (length a + 1 + length c)%nat = Some (length a).
Proof.
  revert t. induction c as [|x c IH] using rev_ind; intros t Hc.
  - cbn [length app]. replace (length a + 1 + 0) with (S (length a)) by lia.
    cbn [find_prev_slash]. rewrite list_lookup_middle by reflexivity.
    rewrite is_char_refl. reflexivity.
  - rewrite length_app. cbn [length].
    replace (length a + 1 + (length c + 1)) with (S (length a + 1 + length c)) by lia.
    cbn [find_prev_slash].
    replace (a ++ slash :: (c ++ [x]) ++ t) with ((a ++ slash :: c) ++ x :: t)
      by (rewrite <- !app_assoc; reflexivity).
    rewrite list_lookup_middle by (rewrite length_app; cbn; lia).
    assert (Hx : is_char slash (Some x) = false).
    { destruct (is_char slash (Some x)) eqn:E; [|reflexivity].
      apply is_char_true in E. inversion E; subst. exfalso. apply Hc. set_solver. }
    rewrite Hx.
    replace ((a ++ slash :: c) ++ x :: t) with (a ++ slash :: c ++ (x :: t))
      by (rewrite <- !app_assoc; reflexivity).
    apply IH. set_solver.
Qed.

End resolve_canonical_scan.

Section resolve_canonical.
Local Open Scope nat_scope.
Variable real_readlink : list ascii -> option (list ascii).
Variable capacity : nat.
Variable followFinalSymlink : bool.


Lemma resolve_body_char s p v r x :
  s !! p = Some x -> x <> slash ->
  resolve_body real_readlink capacity followFinalSymlink (mkResolve s p v r) = Again (mkResolve s (S p) v r).
Proof.
  intros Hx Hne. unfold resolve_body, resolve_link, readlink_at.
  cbn [fullpath pFullpath visited readlink_reports]. rewrite Hx.
  assert (Hs : is_char slash (Some x) = false).
  { destruct (is_char slash (Some x)) eqn:E; [|reflexivity].
    apply is_char_true in E. congruence. }
  rewrite Hs. reflexivity.
Qed.

Lemma resolve_body_end s v r :
  real_readlink (take (length s) s) = None ->
  resolve_body real_readlink capacity followFinalSymlink (mkResolve s (length s) v r) = Stop (mkResolve s (length s) v r).
Proof.
  intros Hl. unfold resolve_body, resolve_link, readlink_at.
  cbn [fullpath pFullpath visited readlink_reports].
  rewrite (lookup_ge_None_2 s (length s)) by lia. cbn [is_char is_nul orb andb].
  rewrite Hl. destruct followFinalSymlink; reflexivity.
Qed.

Lemma resolve_body_plain_slash a c t v r :
  plain_component c ->
  real_readlink (take (length a + 1 + length c) (a ++ slash :: c ++ slash :: t)) = None ->
  resolve_body real_readlink capacity followFinalSymlink (mkResolve (a ++ slash :: c ++ slash :: t) (length a + 1 + length c) v r)
  = Again (mkResolve (a ++ slash :: c ++ slash :: t) (S (length a + 1 + length c)) v r).
Proof.
  intros (Hne & Hslash & Hdot & Hdots) Hl.
  set (s := a ++ slash :: c ++ slash :: t). set (p := length a + 1 + length c).
  assert (Hp : s !! p = Some slash).
  { subst s p. replace (a ++ slash :: c ++ slash :: t) with ((a ++ slash :: c) ++ slash :: t)
      by (rewrite <- !app_assoc; reflexivity).
    apply list_lookup_middle. rewrite length_app. cbn. lia. }
  assert (Hat : forall i, i < length c -> s !! (length a + 1 + i) = c !! i).
  { intros i Hi. subst s. rewrite lookup_app_r by lia.
    replace (length a + 1 + i - length a) with (S i) by lia. cbn.
    apply lookup_app_l. exact Hi. }
  assert (H0 : length c <> 0) by (destruct c; [contradiction | cbn; lia]).
  assert (H1 : length c = 1 -> is_char dot (s !! (p - 1)) = false).
  { intros Hlen. destruct c as [|x [|? ?]]; try discriminate Hlen.
    subst p. cbn [length]. replace (length a + 1 + 1 - 1) with (length a + 1 + 0) by lia.
    rewrite (Hat 0) by (cbn; lia). change ([x] !! 0) with (Some x).
    destruct (is_char dot (Some x)) eqn:E; [|reflexivity].
    apply is_char_true in E. inversion E; subst. contradiction. }
  assert (H2 : length c = 2 ->
               is_char dot (s !! (p - 1)) && is_char dot (s !! (p - 2)) = false).
  { intros Hlen. destruct c as [|x [|y [|? ?]]]; try discriminate Hlen.
    subst p. cbn [length].
    replace (length a + 1 + 2 - 1) with (length a + 1 + 1) by lia.
    replace (length a + 1 + 2 - 2) with (length a + 1 + 0) by lia.
    rewrite (Hat 1), (Hat 0) by (cbn; lia).
    change ([x; y] !! 1) with (Some y). change ([x; y] !! 0) with (Some x).
    destruct (is_char dot (Some y)) eqn:Ey; [|reflexivity].
    destruct (is_char dot (Some x)) eqn:Ex; [|reflexivity].
    apply is_char_true in Ey, Ex. inversion Ey; inversion Ex; subst. contradiction. }
  assert (Hlink : resolve_link real_readlink capacity followFinalSymlink (mkResolve s p v r)
                  = Again (mkResolve s (S p) v r)).
  { unfold resolve_link, readlink_at. cbn [fullpath pFullpath visited readlink_reports].
    rewrite Hp, is_char_refl. cbn [orb]. fold s p in Hl. rewrite Hl. reflexivity. }
  assert (Hprev : find_prev_slash s p = Some (length a))
    by (apply find_prev_slash_component; exact Hslash).
  unfold resolve_body. cbn [fullpath pFullpath visited readlink_reports].
  rewrite Hp, is_char_refl, Hprev.
  replace (p - length a - 1) with (length c) by (subst p; lia).
  destruct (Nat.eqb_spec (length c) 0) as [E0|_]; [contradiction|].
  destruct (Nat.eqb_spec (length c) 1) as [E1|_].
  { rewrite (H1 E1). cbn [andb].
    destruct (Nat.eqb_spec (length c) 2) as [E2|_]; [lia|]. cbn [andb]. exact Hlink. }
  cbn [andb].
  destruct (Nat.eqb_spec (length c) 2) as [E2|_].
  { cbn [andb]. rewrite (H2 E2). exact Hlink. }
  cbn [andb]. exact Hlink.
Qed.

Lemma resolve_loop_unfold fuel st :
  resolve_loop real_readlink capacity followFinalSymlink (S fuel) st =
  match resolve_body real_readlink capacity followFinalSymlink st with
  | Again st' => resolve_loop real_readlink capacity followFinalSymlink fuel st'
  | Stop st' => Resolved (fullpath st') (readlink_reports st')
  | Faulted why => MemoryFault why
  end.
Proof. reflexivity. Qed.

Lemma resolve_loop_canonical n : forall s a c1 c2 comps v r,
  s = a ++ slash :: c1 ++ c2 ++ join_components comps ->
  length c2 + length (join_components comps) = n ->
  plain_component (c1 ++ c2) -> Forall plain_component comps ->
  (forall k, real_readlink (take k s) = None) ->
  resolve_loop real_readlink capacity followFinalSymlink (S n) (mkResolve s (length a + 1 + length c1) v r) = Resolved s r.
Proof.
  induction n as [n IH] using lt_wf_ind.
  intros s a c1 c2 comps v r Hs Hn Hplain Hcomps Hlinks.
  rewrite resolve_loop_unfold.
  destruct c2 as [|x c2].
  - rewrite app_nil_r in Hplain. destruct comps as [|c comps].
    + (* the end of the string *)
      assert (Hlen : length a + 1 + length c1 = length s).
      { rewrite Hs. cbn [join_components List.map concat app].
        rewrite app_nil_r, length_app. cbn. lia. }
      rewrite Hlen, resolve_body_end by apply Hlinks. reflexivity.
    + (* a slash after a plain component *)
      assert (Hs' : s = a ++ slash :: c1 ++ slash :: (c ++ join_components comps))
        by (rewrite Hs; reflexivity).
      assert (Hstep := resolve_body_plain_slash a c1 (c ++ join_components comps) v r Hplain).
      rewrite <- Hs' in Hstep. rewrite Hstep by apply Hlinks.
      inversion Hcomps as [|? ? Hc Hrest]; subst c comps.
      assert (Hlen : length (join_components (x :: l))
                     = S (length x + length (join_components l))).
      { cbn [join_components List.map concat app length]. rewrite length_app. reflexivity. }
      cbn [length] in Hn. rewrite Hlen in Hn. destruct n as [|n]; [lia|].
      replace (S (length a + 1 + length c1))
        with (length (a ++ slash :: c1) + 1 + length (@nil ascii))
        by (rewrite length_app; cbn; lia).
      apply (IH n) with (c2 := x) (comps := l); [lia | | lia | exact Hc | exact Hrest | exact Hlinks].
      rewrite Hs'. rewrite <- app_assoc. reflexivity.
  - (* inside a component *)
    assert (Hx : s !! (length a + 1 + length c1) = Some x).
    { rewrite Hs. replace (a ++ slash :: c1 ++ (x :: c2) ++ join_components comps)
        with ((a ++ slash :: c1) ++ x :: (c2 ++ join_components comps))
        by (rewrite <- app_assoc; reflexivity).
      apply list_lookup_middle. rewrite length_app. cbn. lia. }
    assert (Hne : x <> slash).
    { intros ->. destruct Hplain as (_ & Hsl & _). apply Hsl. set_solver. }
    rewrite (resolve_body_char s _ v r x Hx Hne).
    cbn [length] in Hn. destruct n as [|n]; [lia|].
    replace (S (length a + 1 + length c1)) with (length a + 1 + length (c1 ++ [x]))
      by (rewrite length_app; cbn; lia).
    apply (IH n) with (c2 := c2) (comps := comps);
      [lia | | lia | | exact Hcomps | exact Hlinks].
    + rewrite Hs, <- !app_assoc. reflexivity.
    + rewrite <- app_assoc. exact Hplain.
Qed.

(** The loop on a path made of plain components none of whose prefixes is
    a symbolic link. *)
Lemma resolve_loop_plain_components comps fuel :
  comps <> [] -> Forall plain_component comps ->
  (forall k, real_readlink (take k (join_components comps)) = None) ->
  length (join_components comps) <= fuel ->
  resolve_loop real_readlink capacity followFinalSymlink fuel
    (mkResolve (join_components comps) 1 ∅ [])
  = Resolved (join_components comps) [].
Proof.
  intros Hne Hall Hlinks Hfuel.
  destruct comps as [|c comps]; [contradiction|].
  inversion Hall as [|? ? Hc Hrest]; subst.
  assert (Hlen : length (join_components (c :: comps))
                 = S (length c + length (join_components comps))).
  { cbn [join_components List.map concat app length]. rewrite length_app. reflexivity. }
  assert (Hrun := resolve_loop_canonical (length c + length (join_components comps))
                    (join_components (c :: comps)) [] [] c comps ∅ [] eq_refl eq_refl
                    Hc Hrest Hlinks).
  cbn [app length] in Hrun. change (0 + 1 + 0) with 1 in Hrun.
  replace fuel with (S (length c + length (join_components comps))
                     + (fuel - S (length c + length (join_components comps)))) by lia.
  rewrite resolve_loop_more_fuel; [exact Hrun | rewrite Hrun; discriminate].
Qed.

Lemma join_components_head c comps :
  is_char slash (head (join_components (c :: comps))) = true.
Proof. cbn [join_components List.map concat app head]. apply is_char_refl. Qed.

(** A path made of plain components, none of whose prefixes is a symbolic
    link, is returned as it is, with no [_readlink] report, after as many
    iterations as it has characters. *)
Theorem resolve_path_canonical_unchanged comps fuel :
  comps <> [] -> Forall plain_component comps ->
  (forall k, real_readlink (take k (join_components comps)) = None) ->
  length (join_components comps) <= fuel ->
  resolve_path real_readlink capacity followFinalSymlink fuel (join_components comps)
  = Resolved (join_components comps) [].
Proof.
  intros Hne Hall Hlinks Hfuel. unfold resolve_path.
  destruct comps as [|c comps]; [contradiction|].
  rewrite join_components_head. cbn [negb].
  apply resolve_loop_plain_components; assumption.
Qed.
End resolve_canonical.

(** [/usr/lib] in a file system without symbolic links. *)
Lemma resolve_path_canonical_unchanged_witness :
  resolve_path no_links 4096 true 8 (join_components [chars "usr"; chars "lib"])
  = Resolved (join_components [chars "usr"; chars "lib"]) [].
Proof.
  apply resolve_path_canonical_unchanged.
  - discriminate.
  - vm_compute. plain_components.
  - reflexivity.
  - vm_compute. lia.
Defined.

(** ** Dot segments *)

Section resolve_collapses.
Local Open Scope nat_scope.
Variable capacity : nat.
Variable followFinalSymlink : bool.

Lemma join_components_snoc done c :
  join_components (done ++ [c]) = join_components done ++ slash :: c.
Proof.
  unfold join_components. rewrite map_app, concat_app. cbn. rewrite app_nil_r. reflexivity.
Qed.

Lemma resolve_link_no_links s p v r :
  is_char slash (s !! p) = true ->
  resolve_link no_links capacity followFinalSymlink (mkResolve s p v r)
  = Again (mkResolve s (S p) v r).
Proof.
  intros Hp. unfold resolve_link, readlink_at, no_links.
  cbn [fullpath pFullpath visited readlink_reports].
  destruct (is_char slash (s !! p) || is_nul (s !! p) && followFinalSymlink);
    destruct (s !! p); try discriminate; reflexivity.
Qed.

Lemma shift_left_at (a b rest : list ascii) x :
  shift_left (a ++ b ++ x :: rest) (S (length a + length b)) (S (length b)) = a ++ rest.
Proof.
  unfold shift_left.
  replace (S (length a + length b) - S (length b)) with (length a) by lia.
  rewrite take_app_length.
  replace (a ++ b ++ x :: rest) with ((a ++ b ++ [x]) ++ rest)
    by (rewrite <- !app_assoc; reflexivity).
  replace (S (length a + length b)) with (length (a ++ b ++ [x]))
    by (rewrite !length_app; cbn; lia).
  rewrite drop_app_length. reflexivity.
Qed.

Lemma resolve_body_slash done cur c rest v r :
  Forall (fun d => slash ∉ d) done -> slash ∉ cur ->
  let s := join_components done ++ slash :: cur ++ slash :: c ++ rest in
  let p := length (join_components done) + 1 + length cur in
  resolve_body no_links capacity followFinalSymlink (mkResolve s p v r)
  = Again (mkResolve (join_components (collapse done cur) ++ slash :: c ++ rest)
                     (length (join_components (collapse done cur)) + 1) v r).
Proof.
  intros Hdone Hcur s p.
  assert (Hp : s !! p = Some slash).
  { subst s p. replace (join_components done ++ slash :: cur ++ slash :: c ++ rest)
      with ((join_components done ++ slash :: cur) ++ slash :: c ++ rest)
      by (rewrite <- !app_assoc; reflexivity).
    apply list_lookup_middle. rewrite length_app. cbn. lia. }
  assert (Hat : forall i, i < length cur -> s !! (length (join_components done) + 1 + i) = cur !! i).
  { intros i Hi. subst s. rewrite lookup_app_r by lia.
    replace (length (join_components done) + 1 + i - length (join_components done))
      with (S i) by lia. cbn.
    apply lookup_app_l. exact Hi. }
  assert (Hprev : find_prev_slash s p = Some (length (join_components done)))
    by (apply find_prev_slash_component; exact Hcur).
  unfold resolve_body. cbn [fullpath pFullpath visited readlink_reports].
  rewrite Hp, is_char_refl, Hprev.
  replace (p - length (join_components done) - 1) with (length cur) by (subst p; lia).
  unfold collapse.
  destruct cur as [|x [|y [|z cur]]].
  - (* an empty component *)
    cbn [length Nat.eqb]. rewrite bool_decide_eq_true_2 by reflexivity. cbn [orb].
    f_equal. f_equal; [|subst p; cbn; lia].
    subst s p. cbn [length app]. rewrite Nat.add_0_r.
    replace (join_components done ++ slash :: slash :: c ++ rest)
      with ((join_components done ++ [slash]) ++ [] ++ slash :: c ++ rest)
      by (rewrite <- !app_assoc; reflexivity).
    replace (S (length (join_components done) + 1))
      with (S (length (join_components done ++ [slash]) + length (@nil ascii)))
      by (rewrite length_app; cbn; lia).
    rewrite shift_left_at. rewrite <- app_assoc. reflexivity.
  - cbn [length Nat.eqb andb].
    replace (p - 1) with (length (join_components done) + 1 + 0) by (subst p; cbn; lia).
    rewrite (Hat 0) by (cbn; lia). change ([x] !! 0) with (Some x).
    destruct (is_char dot (Some x)) eqn:Hx.
    + apply is_char_true in Hx. inversion Hx; subst x.
      rewrite (bool_decide_eq_true_2 ([dot] = [dot])) by reflexivity. rewrite orb_true_r.
      f_equal. f_equal; [|lia].
      subst s p.
      replace (join_components done ++ slash :: [dot] ++ slash :: c ++ rest)
        with ((join_components done ++ [slash]) ++ [dot] ++ slash :: c ++ rest)
        by (rewrite <- !app_assoc; reflexivity).
      replace (S (length (join_components done) + 1 + length [dot]))
        with (S (length (join_components done ++ [slash]) + length [dot]))
        by (rewrite length_app; cbn; lia).
      change 2 with (S (length [dot])).
      rewrite shift_left_at. rewrite <- app_assoc. reflexivity.
    + assert (Hne : x <> dot) by (intros ->; rewrite is_char_refl in Hx; discriminate).
      rewrite bool_decide_eq_false_2 by discriminate.
      rewrite bool_decide_eq_false_2 by congruence.
      rewrite bool_decide_eq_false_2 by discriminate. cbn [orb].
      rewrite resolve_link_no_links by (cbn [fullpath pFullpath]; rewrite Hp; apply is_char_refl).
      f_equal. f_equal.
      * rewrite join_components_snoc. subst s. rewrite <- app_assoc. reflexivity.
      * rewrite join_components_snoc, length_app. subst p. cbn. lia.
  - cbn [length Nat.eqb andb].
    replace (p - 1) with (length (join_components done) + 1 + 1) by (subst p; cbn; lia).
    replace (p - 2) with (length (join_components done) + 1 + 0) by (subst p; cbn; lia).
    rewrite (Hat 1), (Hat 0) by (cbn; lia).
    change ([x; y] !! 1) with (Some y). change ([x; y] !! 0) with (Some x).
    destruct (is_char dot (Some y) && is_char dot (Some x)) eqn:Hxy.
    + apply andb_prop in Hxy as [Hy Hx]. apply is_char_true in Hx, Hy.
      inversion Hx; inversion Hy; subst x y.
      rewrite bool_decide_eq_false_2 by discriminate.
      rewrite bool_decide_eq_false_2 by discriminate.
      rewrite bool_decide_eq_true_2 by reflexivity. cbn [orb].
      destruct done as [|d0 done0] using rev_ind.
      * (* at the root *)
        cbn [join_components List.map concat length Nat.ltb Nat.leb removelast app].
        subst s p. reflexivity.
      * clear IHdone0. rewrite removelast_last.
        apply Forall_app in Hdone as [Hdone0 Hd0]. inversion Hd0; subst.
        assert (Hpos : (0 <? length (join_components (done0 ++ [d0]))) = true).
        { apply Nat.ltb_lt. rewrite join_components_snoc, length_app. cbn. lia. }
        rewrite Hpos.
        assert (Hprev2 : find_prev_slash s (length (join_components (done0 ++ [d0])))
                         = Some (length (join_components done0))).
        { subst s. rewrite join_components_snoc.
          replace (length (join_components done0 ++ slash :: d0))
            with (length (join_components done0) + 1 + length d0)
            by (rewrite length_app; cbn; lia).
          rewrite <- app_assoc. cbn [app].
          apply find_prev_slash_component. assumption. }
        rewrite Hprev2. f_equal. f_equal; [|lia].
        subst s p. rewrite join_components_snoc.
        replace ((join_components done0 ++ slash :: d0) ++ slash :: [dot; dot] ++ slash :: c ++ rest)
          with ((join_components done0 ++ [slash]) ++ (d0 ++ slash :: [dot; dot])
                ++ slash :: c ++ rest)
          by (rewrite <- !app_assoc; cbn; rewrite <- ?app_assoc; reflexivity).
        replace (S (length (join_components done0 ++ slash :: d0) + 1 + length [dot; dot]))
          with (S (length (join_components done0 ++ [slash]) + length (d0 ++ slash :: [dot; dot])))
          by (rewrite !length_app; cbn; lia).
        replace (length (join_components done0 ++ slash :: d0) + 1 + length [dot; dot]
                 - length (join_components done0))
          with (S (length (d0 ++ slash :: [dot; dot])))
          by (rewrite !length_app; cbn; lia).
        rewrite shift_left_at. rewrite <- app_assoc. reflexivity.
    + assert (Hne : [x; y] <> [dot; dot]).
      { intros [= -> ->]. rewrite !is_char_refl in Hxy. discriminate. }
      rewrite bool_decide_eq_false_2 by discriminate.
      rewrite bool_decide_eq_false_2 by discriminate.
      rewrite bool_decide_eq_false_2 by exact Hne. cbn [orb].
      rewrite resolve_link_no_links by (cbn [fullpath pFullpath]; rewrite Hp; apply is_char_refl).
      f_equal. f_equal.
      * rewrite join_components_snoc. subst s. rewrite <- app_assoc. reflexivity.
      * rewrite join_components_snoc, length_app. subst p. cbn. lia.
  - cbn [length Nat.eqb andb].
    rewrite bool_decide_eq_false_2 by discriminate.
    rewrite bool_decide_eq_false_2 by discriminate.
    rewrite bool_decide_eq_false_2 by discriminate. cbn [orb].
    rewrite resolve_link_no_links by (cbn [fullpath pFullpath]; rewrite Hp; apply is_char_refl).
    f_equal. f_equal.
    + rewrite join_components_snoc. subst s. rewrite <- app_assoc. reflexivity.
    + rewrite join_components_snoc, length_app. subst p. cbn [length]. lia.
Qed.

Lemma collapse_slash_free done c :
  Forall (fun d => slash ∉ d) done -> slash ∉ c ->
  Forall (fun d => slash ∉ d) (collapse done c).
Proof.
  intros Hdone Hc. unfold collapse.
  destruct (bool_decide (c = []) || bool_decide (c = [dot])); [exact Hdone|].
  destruct (bool_decide (c = [dot; dot])).
  - destruct done as [|d done] using rev_ind; [constructor|].
    rewrite removelast_last. apply Forall_app in Hdone as [Hdone _]. exact Hdone.
  - apply Forall_app. split; [exact Hdone | repeat constructor; exact Hc].
Qed.

Lemma resolve_loop_collapses n : forall done cur0 cur1 more v r,
  Forall (fun d => slash ∉ d) done -> slash ∉ cur0 ++ cur1 ->
  Forall (fun d => slash ∉ d) more ->
  length cur1 + length (join_components more) = n ->
  resolve_loop no_links capacity followFinalSymlink (S n)
    (mkResolve (join_components done ++ slash :: cur0 ++ cur1 ++ join_components more)
               (length (join_components done) + 1 + length cur0) v r)
  = Resolved (collapsed done (cur0 ++ cur1) more) r.
Proof.
  induction n as [n IH] using lt_wf_ind.
  intros done cur0 cur1 more v r Hdone Hcur Hmore Hn.
  rewrite resolve_loop_unfold.
  destruct cur1 as [|x cur1].
  - rewrite app_nil_r in Hcur. rewrite app_nil_r. cbn [app].
    destruct more as [|c more].
    + cbn [join_components List.map concat collapsed]. rewrite app_nil_r.
      replace (length (join_components done) + 1 + length cur0)
        with (length (join_components done ++ slash :: cur0))
        by (rewrite length_app; cbn; lia).
      rewrite resolve_body_end by reflexivity. reflexivity.
    + change (join_components (c :: more)) with (slash :: c ++ join_components more).
      pose proof (resolve_body_slash done cur0 c (join_components more) v r Hdone Hcur)
        as Hstep. cbv zeta in Hstep. rewrite Hstep.
      pose proof (Forall_inv Hmore) as Hc. pose proof (Forall_inv_tail Hmore) as Hrest.
      assert (Hlen : length (join_components (c :: more))
                     = S (length c + length (join_components more))).
      { cbn [join_components List.map concat app length]. rewrite length_app. reflexivity. }
      cbn [length] in Hn. rewrite Hlen in Hn. destruct n as [|n]; [lia|].
      cbn [collapsed].
      pose proof (IH n ltac:(lia) (collapse done cur0) [] c more v r
                    (collapse_slash_free done cur0 Hdone Hcur) Hc Hrest ltac:(lia)) as Hrun.
      cbn [app length] in Hrun. rewrite Nat.add_0_r in Hrun. exact Hrun.
  - assert (Hx : (join_components done ++ slash :: cur0 ++ (x :: cur1) ++ join_components more)
                 !! (length (join_components done) + 1 + length cur0) = Some x).
    { replace (join_components done ++ slash :: cur0 ++ (x :: cur1) ++ join_components more)
        with ((join_components done ++ slash :: cur0) ++ x :: (cur1 ++ join_components more))
        by (rewrite <- app_assoc; reflexivity).
      apply list_lookup_middle. rewrite length_app. cbn. lia. }
    assert (Hne : x <> slash).
    { intros ->. apply Hcur. apply elem_of_app. right. apply list_elem_of_here. }
    rewrite (resolve_body_char _ _ _ _ _ v r x Hx Hne).
    cbn [length] in Hn. destruct n as [|n]; [lia|].
    pose proof (IH n ltac:(lia) done (cur0 ++ [x]) cur1 more v r Hdone) as Hrun.
    rewrite <- !app_assoc in Hrun. cbn [app] in Hrun.
    rewrite length_app in Hrun. cbn [length] in Hrun.
    replace (S (length (join_components done) + 1 + length cur0))
      with (length (join_components done) + 1 + (length cur0 + 1)) by lia.
    apply Hrun; [exact Hcur | exact Hmore | lia].
Qed.

Lemma collapsed_fold comps : forall done c0 c,
  collapsed done c0 (comps ++ [c])
  = join_components (fold_left collapse (c0 :: comps) done) ++ slash :: c.
Proof.
  induction comps as [|a comps IH]; intros done c0 c; [reflexivity|].
  cbn [app collapsed]. rewrite IH. reflexivity.
Qed.

(** What [resolve_path] does to the dot segments of a path without
    symbolic links: going from left to right, an empty component and [.] are
    dropped and [..] drops the component before it (none at the root); the
    last component is left as it is, whatever it is, since a component is
    only looked at when the slash after it is reached. *)
Theorem resolve_path_collapses_dot_segments comps c fuel :
  Forall (fun d => slash ∉ d) (comps ++ [c]) ->
  length (join_components (comps ++ [c])) <= fuel ->
  resolve_path no_links capacity followFinalSymlink fuel (join_components (comps ++ [c]))
  = Resolved (join_components (fold_left collapse comps []) ++ slash :: c) [].
Proof.
  intros Hall Hfuel.
  assert (Hrun : forall c0 more,
            comps ++ [c] = c0 :: more ->
            resolve_path no_links capacity followFinalSymlink fuel (join_components (c0 :: more))
            = Resolved (collapsed [] c0 more) []).
  { intros c0 more Heq. rewrite Heq in Hall, Hfuel.
    unfold resolve_path. rewrite join_components_head. cbn [negb].
    pose proof (Forall_inv Hall) as Hc0. pose proof (Forall_inv_tail Hall) as Hmore.
    pose proof (resolve_loop_collapses (length c0 + length (join_components more))
                  [] [] c0 more ∅ [] ltac:(constructor) Hc0 Hmore eq_refl) as Hloop.
    cbn [app length join_components List.map concat] in Hloop.
    change (concat (List.map (cons slash) more)) with (join_components more) in Hloop.
    change (0 + 1 + 0) with 1 in Hloop.
    assert (Hlen : length (join_components (c0 :: more))
                   = S (length c0 + length (join_components more))).
    { cbn [join_components List.map concat app length]. rewrite length_app. reflexivity. }
    replace fuel with (S (length c0 + length (join_components more))
                       + (fuel - S (length c0 + length (join_components more)))) by lia.
    change (join_components (c0 :: more)) with (slash :: c0 ++ join_components more).
    rewrite resolve_loop_more_fuel; [exact Hloop | rewrite Hloop; discriminate]. }
  destruct comps as [|c0 comps]; cbn [app].
  - rewrite (Hrun c []) by reflexivity. reflexivity.
  - rewrite (Hrun c0 (comps ++ [c])) by reflexivity. rewrite collapsed_fold. reflexivity.
Qed.
End resolve_collapses.

(** [/a/./b/../c//d/..] becomes [/a/c/d/..]. *)
Lemma resolve_path_collapses_dot_segments_witness :
  resolve_path no_links 4096 true 40
    (join_components ([chars "a"; chars "."; chars "b"; chars ".."; chars "c"; [];
                       chars "d"] ++ [chars ".."]))
  = Resolved (chars "/a/c/d/..") [].
Proof.
  apply (resolve_path_collapses_dot_segments 4096 true
           [chars "a"; chars "."; chars "b"; chars ".."; chars "c"; []; chars "d"]
           (chars "..") 40).
  - vm_compute. repeat constructor;
      intros H; repeat (apply elem_of_cons in H as [H|H]; [discriminate H|]);
      apply elem_of_nil in H; exact H.
  - vm_compute. lia.
Defined.

(** ** Forced and statically linked processes *)

Lemma string_app_cons x (a b : string) : (String x a ++ b)%string = String x (a ++ b).
Proof. reflexivity. Qed.

Lemma string_app_assoc (a b c : string) : ((a ++ b) ++ c = a ++ (b ++ c))%string.
Proof.
  induction a as [|x a IH]; [reflexivity|].
  rewrite !string_app_cons, IH. reflexivity.
Qed.

Lemma string_app_nil_r (a : string) : (a ++ "")%string = a.
Proof.
  induction a as [|x a IH]; [reflexivity|]. rewrite string_app_cons, IH. reflexivity.
Qed.

Lemma list_ascii_of_string_app (a b : string) :
  list_ascii_of_string (a ++ b) = list_ascii_of_string a ++ list_ascii_of_string b.
Proof.
  induction a as [|x a IH]; [reflexivity|].
  rewrite string_app_cons. cbn [list_ascii_of_string app]. rewrite IH. reflexivity.
Qed.

Lemma split_names_spec rest : forall current names,
  without_semicolon current ->
  exists pieces,
    split_names rest current names = names ++ pieces
    /\ pieces <> []
    /\ String.concat ";" pieces = (current ++ rest)%string
    /\ Forall without_semicolon pieces
    /\ length pieces = S (semicolons rest).
Proof.
  induction rest as [|c rest IH]; intros current names Hcur; cbn [split_names].
  - exists [current]. split; [reflexivity|]. split; [discriminate|].
    split; [cbn; rewrite string_app_nil_r; reflexivity|].
    split; [repeat constructor; exact Hcur | reflexivity].
  - destruct (Ascii.eqb_spec c semicolon) as [->|Hne].
    + destruct (IH EmptyString (names ++ [current])) as (pieces & Heq & Hnil & Hcat & Hall & Hlen).
      { unfold without_semicolon. cbn. apply not_elem_of_nil. }
      exists (current :: pieces). rewrite Heq, <- app_assoc.
      split; [reflexivity|]. split; [discriminate|]. split; [|split].
      * destruct pieces as [|p pieces]; [contradiction|].
        change (String.concat ";" (current :: p :: pieces))
          with (current ++ ";" ++ String.concat ";" (p :: pieces))%string.
        rewrite Hcat. reflexivity.
      * constructor; assumption.
      * unfold semicolons. cbn [length list_ascii_of_string].
        rewrite filter_cons_True by reflexivity.
        cbn [length]. rewrite Hlen. reflexivity.
    + destruct (IH (current ++ String c EmptyString)%string names)
        as (pieces & Heq & Hnil & Hcat & Hall & Hlen).
      { unfold without_semicolon in *. rewrite list_ascii_of_string_app. cbn.
        intros Hin. apply elem_of_app in Hin as [Hin|Hin]; [contradiction|].
        apply list_elem_of_singleton in Hin. congruence. }
      exists pieces. split; [exact Heq|]. split; [exact Hnil|]. split; [|split].
      * rewrite Hcat, string_app_assoc. reflexivity.
      * exact Hall.
      * unfold semicolons. cbn [list_ascii_of_string].
        rewrite filter_cons_False by congruence. exact Hlen.
Qed.

(** The list the constructor builds from the environment variable is the
    value cut at its semicolons: joined again with semicolons the names give
    the value back, no name holds a semicolon, and there is one name more
    than there are semicolons (none for an empty value). *)
Theorem forced_names_round_trip (value : string) :
  let names := forcedPTraceProcessNames_ (Some value) in
  String.concat ";" names = value
  /\ Forall without_semicolon names
  /\ length names = match value with
                    | EmptyString => 0%nat
                    | _ => S (semicolons value)
                    end.
Proof.
  cbv zeta. destruct value as [|c value].
  - split; [reflexivity|]. split; [constructor | reflexivity].
  - unfold forcedPTraceProcessNames_.
    destruct (split_names_spec (String c value) EmptyString [])
      as (pieces & Heq & _ & Hcat & Hall & Hlen).
    { unfold without_semicolon. cbn. apply not_elem_of_nil. }
    rewrite Heq. cbn [app]. split; [exact Hcat|]. split; [exact Hall | exact Hlen].
Qed.

Lemma find_process_app key cache more e :
  find_process key cache = Some e -> find_process key (cache ++ more) = Some e.
Proof.
  unfold find_process. induction cache as [|x cache IH]; [discriminate|].
  cbn [List.find app]. destruct (String.eqb x.1 key); [trivial | exact IH].
Qed.

Lemma find_process_last key cache b :
  find_process key cache = None ->
  find_process key (cache ++ [(key, b)]) = Some (key, b).
Proof.
  unfold find_process. induction cache as [|x cache IH]; intros H.
  - cbn. rewrite String.eqb_refl. reflexivity.
  - cbn [List.find app] in *. destruct (String.eqb x.1 key); [discriminate | auto].
Qed.

Section statically_linked_properties.
Variable BuildReport : Z -> AccessReport -> string -> Z.
Variable isDebugMessage_default : bool.
Variable RequestedAccess_Read FileAccessStatus_Allowed ReportLevel_Report : Z.

(** The answer for an executable is remembered with its modification time.
    A call that gets past the flags and the forced names adds at most one
    entry to the cache; and as long as the modification time is the same, a
    later call gives the same answer from the cache, whatever was added in
    between: [is_statically_linked] is not asked again and no report is
    sent. *)
Theorem statically_linked_answer_is_remembered env sink pid rootPid pipId path cache
    answer cache1 written :
  unconditionally_enabled env = false -> enabled env = true ->
  IsPTraceForced env path = false ->
  check_and_report_statically_linked_process BuildReport
    isDebugMessage_default RequestedAccess_Read FileAccessStatus_Allowed
    ReportLevel_Report env sink pid rootPid pipId path cache = Answered answer cache1 written ->
  (exists added, cache1 = cache ++ added /\ (length added <= 1)%nat)
  /\ forall env' sink' pid' more,
       unconditionally_enabled env' = false -> enabled env' = true ->
       IsPTraceForced env' path = false ->
       st_mtim_tv_sec env' path = st_mtim_tv_sec env path ->
       check_and_report_statically_linked_process BuildReport
    isDebugMessage_default RequestedAccess_Read FileAccessStatus_Allowed
    ReportLevel_Report env' sink' pid' rootPid pipId path (cache1 ++ more)
       = Answered answer (cache1 ++ more) [].
Proof.
  intros Hu He Hf Hcall.
  unfold check_and_report_statically_linked_process in Hcall.
  rewrite Hu, He, Hf in Hcall. cbn [negb] in Hcall.
  assert (Hfound : find_process (process_key env path) cache1
                   = Some (process_key env path, answer)
                   \/ exists e, find_process (process_key env path) cache1 = Some e
                                /\ e.2 = answer).
  { destruct (find_process (process_key env path) cache) as [e|] eqn:Hfind.
    - inversion Hcall; subst. right. eauto.
    - left. destruct (is_statically_linked env path).
      + destruct (SendReport _ _ _ _); inversion Hcall; subst.
        apply find_process_last, Hfind.
      + inversion Hcall; subst. apply find_process_last, Hfind. }
  split.
  - destruct (find_process (process_key env path) cache) as [e|].
    + inversion Hcall; subst. exists []. rewrite app_nil_r. split; [reflexivity | cbn; lia].
    + destruct (is_statically_linked env path).
      * destruct (SendReport _ _ _ _); inversion Hcall; subst.
        eexists. split; [reflexivity | cbn; lia].
      * inversion Hcall; subst. eexists. split; [reflexivity | cbn; lia].
  - intros env' sink' pid' more Hu' He' Hf' Hmtime.
    unfold check_and_report_statically_linked_process.
    rewrite Hu', He', Hf'. cbn [negb].
    assert (Hkey : process_key env' path = process_key env path)
      by (unfold process_key; rewrite Hmtime; reflexivity).
    rewrite Hkey.
    destruct Hfound as [Hfound | (e & Hfound & <-)];
      rewrite (find_process_app _ _ more _ Hfound); reflexivity.
Qed.
End statically_linked_properties.

(** An executable found statically linked, asked about again when the check
    itself would now say otherwise. *)
Lemma statically_linked_answer_is_remembered_witness :
  check_and_report_statically_linked_process (header_and_path 20) false 1 0 1
    (busybox_env false) (sink_writing (fun n => n)) 4002 4001 7 "/bin/busybox"
    ([("1700000000:/bin/busybox"%string, true)] ++ [])
  = Answered true ([("1700000000:/bin/busybox"%string, true)] ++ []) [].
Proof.
  assert (Hcall :
    check_and_report_statically_linked_process (header_and_path 20) false 1 0 1
      (busybox_env true) (sink_writing (fun n => n)) 4001 4001 7 "/bin/busybox" []
    = Answered true [("1700000000:/bin/busybox"%string, true)]
        [mkWire 32 "/bin/busybox" 36]) by (vm_compute; reflexivity).
  exact (proj2 (statically_linked_answer_is_remembered (header_and_path 20) false 1 0 1
                  (busybox_env true) (sink_writing (fun n => n)) 4001 4001 7
                  "/bin/busybox" [] true _ _ eq_refl eq_refl eq_refl Hcall)
           (busybox_env false) (sink_writing (fun n => n)) 4002 []
           eq_refl eq_refl eq_refl eq_refl).
Defined.

(** ** EnumerateDirectory and renames *)

Lemma under_refl root : under root root.
Proof. exists EmptyString. symmetry. apply string_app_nil_r. Qed.

Lemma under_child root cur name :
  under root cur -> under root (cur ++ "/" ++ name)%string.
Proof.
  intros [suffix ->]. exists (suffix ++ "/" ++ name)%string.
  apply string_app_assoc.
Qed.

Lemma under_suffixes root files :
  Forall (under root) files ->
  exists suffixes, files = List.map (String.append root) suffixes.
Proof.
  induction 1 as [|f files [suffix ->] _ [suffixes ->]].
  - exists []. reflexivity.
  - exists (suffix :: suffixes). reflexivity.
Qed.

Lemma read_entries_under recursive root cur entries : forall stack files,
  under root cur -> Forall (under root) stack -> Forall (under root) files ->
  let r := read_entries recursive cur entries stack files in
  Forall (under root) r.1 /\ Forall (under root) r.2
  /\ exists more, r.2 = files ++ more.
Proof.
  unfold read_entries.
  induction entries as [|ent entries IH]; intros stack files Hcur Hstack Hfiles; cbn [fold_left].
  - split; [exact Hstack|]. split; [exact Hfiles|]. exists []. symmetry. apply app_nil_r.
  - destruct (String.eqb (d_name ent) "." || String.eqb (d_name ent) "..").
    + apply IH; assumption.
    + pose proof (under_child root cur (d_name ent) Hcur) as Hchild.
      destruct (IH (if is_DT_DIR ent && recursive
                    then (cur ++ "/" ++ d_name ent)%string :: stack else stack)
                   (files ++ [(cur ++ "/" ++ d_name ent)%string]) Hcur)
        as (H1 & H2 & more & Hmore).
      * destruct (is_DT_DIR ent && recursive); [constructor|]; assumption.
      * apply Forall_app. split; [assumption | repeat constructor; assumption].
      * split; [exact H1|]. split; [exact H2|].
        exists ((cur ++ "/" ++ d_name ent)%string :: more).
        rewrite Hmore, <- app_assoc. reflexivity.
Qed.

Lemma enumerate_loop_under real_opendir recursive root fuel : forall stack files ok result,
  Forall (under root) stack -> Forall (under root) files ->
  enumerate_loop real_opendir fuel recursive stack files = Some (ok, result) ->
  Forall (under root) result /\ exists more, result = files ++ more.
Proof.
  induction fuel as [|fuel IH]; intros stack files ok result Hstack Hfiles Hrun;
    cbn [enumerate_loop] in Hrun; [discriminate|].
  destruct stack as [|cur stack].
  - inversion Hrun; subst. split; [exact Hfiles|]. exists []. symmetry. apply app_nil_r.
  - inversion Hstack as [|? ? Hcur Hrest]; subst.
    destruct (real_opendir cur) as [entries|].
    + pose proof (read_entries_under recursive root cur entries stack files Hcur Hrest Hfiles)
        as Hread. cbv zeta in Hread.
      destruct (read_entries recursive cur entries stack files) as [stack' files'].
      cbn [fst snd] in Hread. destruct Hread as (H1 & H2 & more & ->).
      destruct (IH _ _ _ _ H1 H2 Hrun) as (Hall & more' & ->).
      split; [exact Hall|]. exists (more ++ more'). rewrite app_assoc. reflexivity.
    + inversion Hrun; subst. split; [exact Hfiles|]. exists []. symmetry. apply app_nil_r.
Qed.

Lemma EnumerateDirectory_suffixes real_opendir fuel rootDirectory recursive
    ok filesAndDirectories :
  EnumerateDirectory real_opendir fuel rootDirectory recursive
  = Some (ok, filesAndDirectories) ->
  exists suffixes,
    filesAndDirectories = List.map (String.append rootDirectory) (EmptyString :: suffixes).
Proof.
  unfold EnumerateDirectory. intros Hrun.
  apply (enumerate_loop_under real_opendir recursive rootDirectory) in Hrun
    as (Hall & more & ->).
  - apply Forall_app in Hall as [_ Hmore].
    destruct (under_suffixes _ _ Hmore) as [suffixes ->].
    exists suffixes. cbn [List.map app]. rewrite string_app_nil_r. reflexivity.
  - repeat constructor. apply under_refl.
  - repeat constructor. apply under_refl.
Qed.

Lemma read_entries_not_recursive cur entries : forall stack files,
  read_entries false cur entries stack files
  = (stack, files ++ List.map (fun ent => (cur ++ "/" ++ d_name ent)%string)
                              (List.filter (fun ent => negb (is_dots ent)) entries)).
Proof.
  unfold read_entries, is_dots.
  induction entries as [|ent entries IH]; intros stack files; cbn [fold_left List.filter List.map].
  - rewrite app_nil_r. reflexivity.
  - destruct (String.eqb (d_name ent) "." || String.eqb (d_name ent) ".."); cbn [negb].
    + apply IH.
    + rewrite andb_false_r, IH. cbn [List.map]. rewrite <- app_assoc. reflexivity.
Qed.

(** Every path [EnumerateDirectory] lists is the root directory followed by
    some text, and the root itself comes first.  Without recursion the call
    returns after opening the root alone: the list is the root and its
    entries other than [.] and [..], in the order [readdir] gives them, and
    the call fails only when the root cannot be opened. *)
Theorem EnumerateDirectory_lists_under_the_root real_opendir rootDirectory :
  (forall fuel recursive,
     match EnumerateDirectory real_opendir fuel rootDirectory recursive with
     | Some (_, filesAndDirectories) =>
         exists suffixes,
           filesAndDirectories
           = List.map (String.append rootDirectory) (EmptyString :: suffixes)
     | None => True
     end)
  /\ (forall fuel, (2 <= fuel)%nat ->
      EnumerateDirectory real_opendir fuel rootDirectory false
      = Some match real_opendir rootDirectory with
             | Some entries =>
                 (true,
                  rootDirectory
                  :: List.map (fun ent => (rootDirectory ++ "/" ++ d_name ent)%string)
                              (List.filter (fun ent => negb (is_dots ent)) entries))
             | None => (false, [rootDirectory])
             end).
Proof.
  split.
  - intros fuel recursive.
    destruct (EnumerateDirectory real_opendir fuel rootDirectory recursive)
      as [[ok files]|] eqn:Hrun; [|exact I].
    eapply EnumerateDirectory_suffixes, Hrun.
  - intros fuel Hfuel. unfold EnumerateDirectory.
    destruct fuel as [|[|fuel]]; [lia | lia |]. cbn [enumerate_loop].
    destruct (real_opendir rootDirectory) as [entries|]; [|reflexivity].
    rewrite read_entries_not_recursive. reflexivity.
Qed.

(** [/out] and what is below it, depth first, the directory pushed last
    being read first. *)
Example EnumerateDirectory_out_tree :
  EnumerateDirectory out_tree 5 "/out" true
  = Some (true, ["/out"; "/out/a.o"; "/out/sub"; "/out/sub/b.o"]%string).
Proof. reflexivity. Qed.

Lemma string_length_app (a b : string) :
  String.length (a ++ b) = (String.length a + String.length b)%nat.
Proof.
  induction a as [|x a IH]; [reflexivity|].
  rewrite string_app_cons. cbn [String.length]. rewrite IH. reflexivity.
Qed.

Lemma substring_all (s : string) : substring 0 (String.length s) s = s.
Proof. induction s as [|c s IH]; [reflexivity|]. cbn [String.length substring]. rewrite IH. reflexivity. Qed.

Lemma substring_app_drop (a b : string) :
  substring (String.length a) (String.length b) (a ++ b) = b.
Proof.
  induction a as [|x a IH]; [apply substring_all|].
  rewrite string_app_cons. cbn [String.length substring]. exact IH.
Qed.

Lemma replace_prefix_app oldStr newStr suffix :
  replace_prefix (String.length oldStr) newStr (oldStr ++ suffix) = (newStr ++ suffix)%string.
Proof.
  unfold replace_prefix. rewrite string_length_app.
  replace (String.length oldStr + String.length suffix - String.length oldStr)%nat
    with (String.length suffix) by lia.
  rewrite substring_app_drop. reflexivity.
Qed.

Lemma report_renamed_effects get_mode env syscall oldStr newStr s suffix :
  report_renamed get_mode env syscall oldStr newStr s (oldStr ++ suffix)
  = mkPTraceSandbox (m_traceePid s) (m_traceeTable s)
      (effects s ++ rename_reports get_mode env syscall oldStr newStr (m_traceePid s) suffix).
Proof.
  unfold report_renamed, rename_reports.
  rewrite replace_prefix_app, ReportOpen_create_or_open.
  change (c_true (Z.land Linux.O_CREAT (Z.lor Linux.O_CREAT Linux.O_TRUNC))) with true.
  rewrite andb_true_r. unfold emit. cbn [m_traceePid m_traceeTable effects].
  rewrite <- app_assoc. reflexivity.
Qed.

Lemma fold_report_renamed get_mode env syscall oldStr newStr suffixes : forall s,
  fold_left (report_renamed get_mode env syscall oldStr newStr)
            (List.map (String.append oldStr) suffixes) s
  = mkPTraceSandbox (m_traceePid s) (m_traceeTable s)
      (effects s ++ flat_map (rename_reports get_mode env syscall oldStr newStr (m_traceePid s))
                             suffixes).
Proof.
  induction suffixes as [|x suffixes IH]; intros s; cbn [List.map fold_left flat_map].
  - rewrite app_nil_r. destruct s; reflexivity.
  - rewrite report_renamed_effects, IH. cbn [m_traceePid m_traceeTable effects].
    rewrite <- app_assoc. reflexivity.
Qed.

(** What a rename reports.  For a source that is not a directory: the
    unlink of the source and the creation (the open, when it exists) of the
    destination.  For a directory: that pair for the directory and for
    everything enumerated under it, each destination being the new path
    followed by what follows the old path in the source; and nothing at all
    when a directory under the source cannot be opened. *)
Theorem HandleRenameGeneric_reports real_opendir fuel get_mode env syscall oldStr newStr s :
  let reports := rename_reports get_mode env syscall oldStr newStr (m_traceePid s) in
  let reported suffixes :=
    Some (mkPTraceSandbox (m_traceePid s) (m_traceeTable s)
            (effects s ++ flat_map reports suffixes)) in
  if Linux.S_ISDIR (get_mode oldStr) then
    match EnumerateDirectory real_opendir fuel oldStr true with
    | Some (true, filesAndDirectories) =>
        exists suffixes,
          filesAndDirectories = List.map (String.append oldStr) (EmptyString :: suffixes)
          /\ HandleRenameGeneric real_opendir fuel get_mode env syscall oldStr newStr s
             = reported (EmptyString :: suffixes)
    | Some (false, _) =>
        HandleRenameGeneric real_opendir fuel get_mode env syscall oldStr newStr s = Some s
    | None =>
        HandleRenameGeneric real_opendir fuel get_mode env syscall oldStr newStr s = None
    end
  else
    HandleRenameGeneric real_opendir fuel get_mode env syscall oldStr newStr s
    = reported [EmptyString].
Proof.
  cbv zeta. unfold HandleRenameGeneric.
  destruct (Linux.S_ISDIR (get_mode oldStr)).
  - destruct (EnumerateDirectory real_opendir fuel oldStr true) as [[ok files]|] eqn:Hrun;
      [|reflexivity].
    destruct ok; [|reflexivity].
    apply EnumerateDirectory_suffixes in Hrun as [suffixes ->].
    exists suffixes. split; [reflexivity|]. rewrite fold_report_renamed. reflexivity.
  - pose proof (report_renamed_effects get_mode env syscall oldStr newStr s EmptyString) as H.
    unfold report_renamed in H. rewrite !string_app_nil_r in H.
    unfold replace_prefix in H. rewrite Nat.sub_diag in H.
    cbn [flat_map]. rewrite app_nil_r. 
    assert (Hsub : substring (String.length oldStr) 0 oldStr = EmptyString).
    { clear. induction oldStr as [|c o IH]; [reflexivity|]. cbn. exact IH. }
    rewrite Hsub, string_app_nil_r in H. f_equal. exact H.
Qed.

(** ** The seccomp filter *)

Lemma run_TRACE_SYSCALL numbers : forall A data,
  BPF.run (flat_map Seccomp.TRACE_SYSCALL numbers
           ++ [BPF.BPF_STMT (BPF.BPF_RET + BPF.BPF_K) BPF.SECCOMP_RET_ALLOW]) 0 A data
  = Some (if existsb (Z.eqb A) numbers then BPF.SECCOMP_RET_TRACE
          else BPF.SECCOMP_RET_ALLOW).
Proof.
  induction numbers as [|n numbers IH]; intros A data; [reflexivity|].
  cbn [flat_map Seccomp.TRACE_SYSCALL app existsb].
  cbn [BPF.run BPF.code BPF.BPF_JUMP BPF.BPF_STMT BPF.k BPF.jt BPF.jf].
  change (BPF.BPF_JMP + BPF.BPF_JEQ + BPF.BPF_K =? BPF.BPF_LD + BPF.BPF_W + BPF.BPF_ABS)
    with false.
  change (BPF.BPF_JMP + BPF.BPF_JEQ + BPF.BPF_K =? BPF.BPF_JMP + BPF.BPF_JEQ + BPF.BPF_K)
    with true.
  cbv iota.
  destruct (A =? n); cbn [orb].
  - reflexivity.
  - change (Z.to_nat 1) with 1%nat. cbn [BPF.run]. apply IH.
Qed.

Lemma filter_traced :
  Seccomp.filter
  = BPF.BPF_STMT (BPF.BPF_LD + BPF.BPF_W + BPF.BPF_ABS) BPF.offsetof_nr
    :: flat_map Seccomp.TRACE_SYSCALL Seccomp.traced
       ++ [BPF.BPF_STMT (BPF.BPF_RET + BPF.BPF_K) BPF.SECCOMP_RET_ALLOW].
Proof. reflexivity. Qed.

Lemma HandleSysCallGeneric_traced n :
  match Seccomp.HandleSysCallGeneric n with Some _ => true | None => false end
  = existsb (Z.eqb n) Seccomp.traced.
Proof.
  unfold Seccomp.HandleSysCallGeneric, Seccomp.traced, Seccomp.CHECK_AND_CALL_HANDLER.
  cbn [existsb].
  repeat match goal with
         | |- context [n =? ?c] => destruct (n =? c); [reflexivity|]
         end.
  reflexivity.
Qed.

Lemma to_uint32_eqb_int32 v n :
  0 <= n < 2147483648 -> (to_uint32 v =? n) = (to_int32 v =? n).
Proof.
  intros Hn. unfold to_int32. fold (to_uint32 v).
  assert (0 <= to_uint32 v < 4294967296) by (unfold to_uint32; apply Z.mod_pos_bound; lia).
  change (2 ^ 31) with 2147483648. change (2 ^ 32) with 4294967296.
  destruct (Z.ltb_spec (to_uint32 v) 2147483648); [reflexivity|].
  destruct (Z.eqb_spec (to_uint32 v) n);
    destruct (Z.eqb_spec (to_uint32 v - 4294967296) n); lia.
Qed.

Lemma existsb_traced_int32 v :
  existsb (Z.eqb (to_uint32 v)) Seccomp.traced = existsb (Z.eqb (to_int32 v)) Seccomp.traced.
Proof.
  unfold Seccomp.traced. cbn [existsb].
  repeat (rewrite (to_uint32_eqb_int32 v) by (vm_compute; split; [discriminate | reflexivity])).
  reflexivity.
Qed.

(** The filter and the dispatch agree.  For every system call number the
    filter answers [SECCOMP_RET_TRACE], which stops the tracee for the
    tracer, exactly when the [switch] of [HandleSysCallGeneric] has a handler
    for the number, and [SECCOMP_RET_ALLOW] otherwise: no call is stopped
    only to be ignored, and no handler is out of reach.  The number is an
    [int]; the filter reads it as an unsigned word. *)
Theorem seccomp_filter_matches_dispatch (data : BPF.seccomp_data) :
  BPF.run Seccomp.filter 0 0 data
  = Some (match Seccomp.HandleSysCallGeneric (to_int32 (BPF.nr data)) with
          | Some _ => BPF.SECCOMP_RET_TRACE
          | None => BPF.SECCOMP_RET_ALLOW
          end).
Proof.
  rewrite filter_traced.
  cbn [BPF.run BPF.code BPF.BPF_STMT BPF.k].
  change (BPF.BPF_LD + BPF.BPF_W + BPF.BPF_ABS =? BPF.BPF_LD + BPF.BPF_W + BPF.BPF_ABS)
    with true.
  cbv iota. change (BPF.load_word data BPF.offsetof_nr) with (Some (to_uint32 (BPF.nr data))).
  cbv iota. rewrite run_TRACE_SYSCALL, existsb_traced_int32, <- HandleSysCallGeneric_traced.
  destruct (Seccomp.HandleSysCallGeneric (to_int32 (BPF.nr data))); reflexivity.
Qed.

(** ** The file descriptor table *)


(** With the table disabled, as the tracer has it, every look-up reads the
    link in [/proc] and the table is left alone. *)
Lemma fd_to_path_disabled MAX_FD real_readlink fd associatedPid st :
  FdTable.fd_to_path MAX_FD real_readlink fd associatedPid (FdTable.disable_fd_table st)
  = match FdTable.read_path_for_fd real_readlink fd PATH_MAX_nat associatedPid with
    | None => FdTable.FdPath [] (FdTable.disable_fd_table st)
    | Some path =>
        if (length path <? PATH_MAX_nat)%nat then FdTable.FdPath path (FdTable.disable_fd_table st)
        else FdTable.PathNotTerminated
    end.
Proof.
  unfold FdTable.fd_to_path. cbn [FdTable.disable_fd_table FdTable.useFdTable_ andb].
  destruct ((fd <? 0) || (fd >=? MAX_FD)); reflexivity.
Qed.

(** A path found for a descriptor is kept in the table and served from it:
    the next look-up of the descriptor returns the same path, whatever the
    descriptor now refers to and whichever process is asked about, until
    [reset_fd_table_entry] empties the entry, after which the link in [/proc]
    is read again.  The entries of the other descriptors are not touched. *)
Theorem fd_to_path_serves_the_table MAX_FD real_readlink fd associatedPid st path st1 :
  FdTable.useFdTable_ st = true -> 0 <= fd < MAX_FD ->
  length (FdTable.fdTable_ st) = Z.to_nat MAX_FD ->
  FdTable.fd_to_path MAX_FD real_readlink fd associatedPid st = FdTable.FdPath path st1 ->
  path <> [] ->
  (forall real_readlink' associatedPid',
     FdTable.fd_to_path MAX_FD real_readlink' fd associatedPid' st1 = FdTable.FdPath path st1)
  /\ (forall real_readlink' associatedPid',
        FdTable.fd_to_path MAX_FD real_readlink' fd associatedPid' (FdTable.reset_fd_table_entry MAX_FD fd st1)
        = match FdTable.read_path_for_fd real_readlink' fd PATH_MAX_nat associatedPid' with
          | None => FdTable.FdPath [] (FdTable.reset_fd_table_entry MAX_FD fd st1)
          | Some path' =>
              if (length path' <? PATH_MAX_nat)%nat
              then FdTable.FdPath path' (FdTable.mkFdState true (<[Z.to_nat fd := path']> (FdTable.fdTable_ st1)))
              else FdTable.PathNotTerminated
          end)
  /\ (forall fd', fd' <> Z.to_nat fd -> FdTable.fdTable_ st1 !! fd' = FdTable.fdTable_ st !! fd')
  /\ length (FdTable.fdTable_ st1) = Z.to_nat MAX_FD.
Proof.
  intros Huse Hfd Hlen Hcall Hpath.
  assert (Hrange : (fd <? 0) || (fd >=? MAX_FD) = false).
  { apply orb_false_intro; [apply Z.ltb_ge | rewrite Z.geb_leb; apply Z.leb_gt]; lia. }
  assert (Hin : (Z.to_nat fd < length (FdTable.fdTable_ st))%nat) by lia.
  assert (Hentry : FdTable.fdTable_ st1 !! Z.to_nat fd = Some path
                   /\ FdTable.useFdTable_ st1 = true
                   /\ (forall fd', fd' <> Z.to_nat fd -> FdTable.fdTable_ st1 !! fd' = FdTable.fdTable_ st !! fd')
                   /\ length (FdTable.fdTable_ st1) = Z.to_nat MAX_FD).
  { unfold FdTable.fd_to_path in Hcall. rewrite Hrange, Huse in Hcall. cbn [andb] in Hcall.
    destruct (FdTable.fdTable_ st !! Z.to_nat fd) as [entry|] eqn:He;
      [|apply lookup_ge_None in He; lia].
    unfold default in Hcall. cbn [from_option] in Hcall. unfold id in Hcall.
    destruct (0 <? length entry)%nat eqn:Hnonempty.
    - inversion Hcall; subst. repeat split; auto.
    - destruct (FdTable.read_path_for_fd real_readlink fd PATH_MAX_nat associatedPid) as [text|].
      + destruct (length text <? PATH_MAX_nat)%nat; [|discriminate].
        inversion Hcall; subst. cbn [FdTable.fdTable_ FdTable.useFdTable_].
        split; [apply list_lookup_insert_eq; exact Hin|]. split; [reflexivity|].
        split; [intros fd' Hne; apply list_lookup_insert_ne; congruence|].
        rewrite length_insert. exact Hlen.
      + inversion Hcall; subst. contradiction. }
  destruct Hentry as (Hentry & Huse1 & Hothers & Hlen1).
  split; [|split; [|split; [exact Hothers | exact Hlen1]]].
  - intros rl' pid'. unfold FdTable.fd_to_path. rewrite Hrange, Huse1, Hentry. unfold default. cbn [andb from_option]. unfold id.
    destruct path; [contradiction | reflexivity].
  - intros rl' pid'. unfold FdTable.fd_to_path, FdTable.reset_fd_table_entry.
    rewrite Hrange.
    assert (Hguard : (0 <=? fd) && (fd <? MAX_FD) = true)
      by (apply andb_true_intro; split; [apply Z.leb_le | apply Z.ltb_lt]; lia).
    rewrite Hguard. cbn [FdTable.useFdTable_ FdTable.fdTable_]. rewrite Huse1. cbn [andb].
    rewrite list_lookup_insert_eq by lia. unfold default. cbn [from_option]. unfold id.
    change (0 <? length (@nil ascii))%nat with false. cbv iota.
    destruct (FdTable.read_path_for_fd rl' fd PATH_MAX_nat pid') as [text|];
      [rewrite list_insert_insert_eq|]; reflexivity.
Qed.

(** Descriptor 3, first read from [/proc] as [/work], then asked about for
    another process when [/proc] has no such link. *)
Lemma fd_to_path_serves_the_table_witness :
  FdTable.fd_to_path 8 no_links 3 77 work_table = FdTable.FdPath (chars "/work") work_table.
Proof.
  assert (Hrange : 0 <= 3 < 8) by lia.
  assert (Hpath : chars "/work" <> []) by discriminate.
  exact (proj1 (fd_to_path_serves_the_table 8 proc_self_fd_3 3 0 empty_table
                  (chars "/work") work_table eq_refl Hrange eq_refl eq_refl Hpath)
           no_links 77).
Defined.

(** ** normalize_path_at *)

Lemma join_components_app a b :
  join_components (a ++ b) = join_components a ++ join_components b.
Proof. unfold join_components. rewrite map_app, concat_app. reflexivity. Qed.

Lemma join_components_relative comps :
  comps <> [] -> join_components comps = slash :: relative_path comps.
Proof. destruct comps; [contradiction | reflexivity]. Qed.

Lemma relative_path_head c comps :
  plain_component c -> is_char slash (head (relative_path (c :: comps))) = false.
Proof.
  intros (Hne & Hslash & _). unfold relative_path.
  cbn [join_components List.map concat app tail].
  destruct c as [|x c]; [contradiction|]. cbn [app head].
  destruct (is_char slash (Some x)) eqn:E; [|reflexivity].
  apply is_char_true in E. inversion E; subst. exfalso. apply Hslash. apply list_elem_of_here.
Qed.

(** A relative path is put after the directory it starts at.  When the
    directory (the working directory for [AT_FDCWD], the path of the
    descriptor otherwise) and the path are made of plain components, the
    whole fits [PATH_MAX] and no prefix of it is a symbolic link, the result
    is the directory, a slash, and the path, and nothing is reported to
    [_readlink]. *)
Theorem normalize_path_at_relative MAX_FD real_readlink getcurrentworkingdirectory
    fuel dirfd dir rel oflags associatedPid st st' :
  starts_at MAX_FD real_readlink getcurrentworkingdirectory dirfd associatedPid st
            (join_components dir) st' ->
  dir <> [] -> rel <> [] -> Forall plain_component (dir ++ rel) ->
  (forall k, real_readlink (take k (join_components (dir ++ rel))) = None) ->
  (length (join_components (dir ++ rel)) < PATH_MAX_nat)%nat ->
  (length (join_components (dir ++ rel)) <= fuel)%nat ->
  normalize_path_at MAX_FD real_readlink getcurrentworkingdirectory fuel dirfd
    (Some (relative_path rel)) oflags associatedPid st
  = NormalizedTo (join_components (dir ++ rel)) [] st'.
Proof.
  intros Hstart Hdir Hrel Hplain Hlinks Hlen Hfuel.
  assert (Hfull : join_components dir ++ slash :: relative_path rel
                  = join_components (dir ++ rel))
    by (rewrite join_components_app, (join_components_relative rel Hrel); reflexivity).
  assert (Hdirlen : (0 < length (join_components dir)
                     /\ length (join_components dir) + 1 <= PATH_MAX_nat)%nat).
  { rewrite join_components_app, length_app in Hlen.
    destruct dir as [|d dir]; [contradiction|].
    cbn [join_components List.map concat app length] in *. lia. }
  unfold normalize_path_at, normalize_fullpath.
  destruct rel as [|r rel]; [contradiction|].
  rewrite relative_path_head
    by (apply Forall_app in Hplain as [_ Hplain]; inversion Hplain; assumption).
  cbn [negb].
  assert (Hfits_dir : (length (join_components dir) + 1 <=? PATH_MAX_nat)%nat = true)
    by (apply Nat.leb_le; lia).
  assert (Hfits : (length (join_components dir ++ slash :: relative_path (r :: rel)) + 1
                   <=? PATH_MAX_nat)%nat = true)
    by (rewrite Hfull; apply Nat.leb_le; lia).
  assert (Hpos : (length (join_components dir) <=? 0)%nat = false)
    by (apply Nat.leb_gt; lia).
  assert (Hresolve : forall follow,
            resolve_path real_readlink PATH_MAX_nat follow fuel
              (join_components dir ++ slash :: relative_path (r :: rel))
            = Resolved (join_components (dir ++ r :: rel)) []).
  { intros follow. rewrite Hfull. unfold resolve_path.
    destruct (dir ++ r :: rel) as [|c comps] eqn:E; [destruct dir; discriminate|].
    rewrite join_components_head. cbn [negb].
    apply resolve_loop_plain_components; [discriminate|assumption..]. }
  unfold starts_at in Hstart.
  destruct (dirfd =? Linux.AT_FDCWD).
  - destruct Hstart as [-> ->]. rewrite Hpos, Hfits, Hresolve. reflexivity.
  - rewrite Hstart, Hfits_dir, Hpos, Hfits, Hresolve. reflexivity.
Qed.

(** [src/a.c] at descriptor 3, which is [/work]. *)
Lemma normalize_path_at_relative_witness :
  normalize_path_at 8 no_links (fun _ => None) 20 3
    (Some (relative_path [chars "src"; chars "a.c"])) 0 0 work_table
  = NormalizedTo (join_components ([chars "work"] ++ [chars "src"; chars "a.c"])) []
      work_table.
Proof.
  apply normalize_path_at_relative.
  - reflexivity.
  - discriminate.
  - discriminate.
  - vm_compute. plain_components.
  - reflexivity.
  - vm_compute. lia.
  - vm_compute. lia.
Defined.

(** ** Reading a string from the tracee *)

Lemma testbit_to_int64 u n : 0 <= n < 64 -> Z.testbit (to_int64 u) n = Z.testbit u n.
Proof.
  intros Hn.
  assert (Hmod : to_int64 u mod 2 ^ 64 = u mod 2 ^ 64).
  { unfold to_int64. cbv zeta. destruct (u mod 2 ^ 64 <? 2 ^ 63).
    - apply Z.mod_mod. lia.
    - replace (u mod 2 ^ 64 - 2 ^ 64) with (u mod 2 ^ 64 + (-1) * 2 ^ 64) by lia.
      rewrite Z.mod_add by lia. apply Z.mod_mod. lia. }
  rewrite <- (Z.mod_pow2_bits_low (to_int64 u) 64 n) by lia.
  rewrite Hmod. apply Z.mod_pow2_bits_low. lia.
Qed.

Lemma byte_of_long_to_int64 u i :
  0 <= i < 8 -> byte_of_long (to_int64 u) i = byte_of_long u i.
Proof.
  intros Hi. unfold byte_of_long. apply Z.bits_inj'. intros n Hn.
  rewrite !Z.land_spec, !Z.shiftr_spec by lia.
  change 255 with (Z.ones 8).
  destruct (Z.ltb_spec n 8).
  - rewrite testbit_to_int64 by lia. reflexivity.
  - rewrite Z.ones_spec_high by lia. rewrite !andb_false_r. reflexivity.
Qed.

Lemma byte_of_le_word bs : forall i,
  Forall (fun b => 0 <= b < 256) bs ->
  byte_of_long (le_word bs) (Z.of_nat i) = nth i bs 0.
Proof.
  induction bs as [|b bs IH]; intros i Hall.
  - unfold byte_of_long. cbn [le_word fold_right]. rewrite Z.shiftr_0_l.
    destruct i; reflexivity.
  - inversion Hall as [|? ? Hb Hrest]; subst. cbn [le_word fold_right]. fold (le_word bs).
    unfold byte_of_long. destruct i as [|i].
    + cbn [nth]. change (8 * Z.of_nat 0) with 0. rewrite Z.shiftr_0_r.
      change 255 with (Z.ones 8). rewrite Z.land_ones by lia. change (2 ^ 8) with 256.
      replace (b + 256 * le_word bs) with (b + le_word bs * 256) by lia.
      rewrite Z.mod_add by lia. apply Z.mod_small. exact Hb.
    + cbn [nth]. rewrite <- (IH i Hrest). unfold byte_of_long.
      replace (8 * Z.of_nat (S i)) with (8 + 8 * Z.of_nat i) by lia.
      rewrite <- Z.shiftr_shiftr by lia. f_equal. f_equal.
      rewrite Z.shiftr_div_pow2 by lia. change (2 ^ 8) with 256.
      replace (b + 256 * le_word bs) with (b + le_word bs * 256) by lia.
      rewrite Z.div_add by lia. rewrite Z.div_small by lia. lia.
Qed.

Section reading_a_string.
Variable pointer : Z.
Variable bytes : list Z.
Hypothesis bytes_of_a_string : Forall (fun b => 1 <= b <= 254) bytes.
Hypothesis string_fits : Z.of_nat (length bytes) < Linux.PATH_MAX.
Hypothesis pointer_range : 0 <= pointer /\ pointer + Z.of_nat (length bytes) + 8 < 2 ^ 64.

Lemma byte_at_range address : 0 <= byte_at pointer bytes address < 256.
Proof.
  unfold byte_at. destruct (address <? pointer); [lia|].
  destruct (nth_in_or_default (Z.to_nat (address - pointer)) bytes 0) as [Hin | ->]; [|lia].
  rewrite Forall_forall in bytes_of_a_string.
  apply list_elem_of_In, bytes_of_a_string in Hin. lia.
Qed.

Lemma byte_at_offset (m : nat) : byte_at pointer bytes (pointer + Z.of_nat m) = nth m bytes 0.
Proof.
  unfold byte_at. destruct (Z.ltb_spec (pointer + Z.of_nat m) pointer); [lia|].
  f_equal. lia.
Qed.

Lemma memory_holding_byte (m i : nat) :
  (i < 8)%nat ->
  byte_of_long (memory_holding pointer bytes (pointer + Z.of_nat m)) (Z.of_nat i)
  = nth (m + i) bytes 0.
Proof.
  intros Hi. unfold memory_holding.
  rewrite byte_of_long_to_int64 by lia.
  rewrite byte_of_le_word by (repeat constructor; apply byte_at_range).
  do 8 (destruct i as [|i]; [cbn [List.map nth];
    rewrite <- byte_at_offset; f_equal; lia|]).
  lia.
Qed.

Lemma memory_holding_not_minus_one (m : nat) :
  (memory_holding pointer bytes (pointer + Z.of_nat m) =? -1) = false.
Proof.
  apply Z.eqb_neq. intros Heq.
  pose proof (memory_holding_byte m 0 ltac:(lia)) as Hbyte.
  rewrite Heq in Hbyte. change (byte_of_long (-1) (Z.of_nat 0)) with 255 in Hbyte.
  rewrite Nat.add_0_r in Hbyte.
  destruct (nth_in_or_default m bytes 0) as [Hin | Hd]; [|lia].
  rewrite Forall_forall in bytes_of_a_string.
  apply list_elem_of_In, bytes_of_a_string in Hin. lia.
Qed.

Lemma in_argument_below (m : nat) :
  (m <= S (length bytes))%nat -> in_argument (Z.of_nat m) = true.
Proof.
  intros Hm. unfold in_argument. apply andb_true_intro.
  split; apply Z.leb_le; lia.
Qed.

Lemma read_word_string (cnt : nat) : forall (i m m0 : nat),
  (i + cnt <= 8)%nat -> (m = m0 + i)%nat -> (m <= length bytes)%nat ->
  read_word cnt (memory_holding pointer bytes (pointer + Z.of_nat m0)) (Z.of_nat i)
            true 0 (rev (take m bytes)) (Z.of_nat m)
  = if (m + cnt <=? length bytes)%nat
    then WordDone (rev (take (m + cnt) bytes)) (Z.of_nat (m + cnt)) false
    else WordDone (0 :: rev bytes) (Z.of_nat (length bytes) + 1) true.
Proof.
  induction cnt as [|cnt IH]; intros i m m0 Hi Hm Hle; cbn [read_word].
  - rewrite Nat.add_0_r. destruct (Nat.leb_spec m (length bytes)); [reflexivity | lia].
  - rewrite in_argument_below by lia. cbn [negb].
    rewrite memory_holding_byte by lia. rewrite <- Hm.
    change (0 >? 0) with false. cbn [andb orb]. rewrite orb_false_r.
    destruct (Nat.eq_dec m (length bytes)) as [->|Hne].
    + rewrite nth_overflow by lia. change (0 =? 0) with true. cbv iota.
      rewrite firstn_all.
      destruct (Nat.leb_spec (length bytes + S cnt) (length bytes)); [lia | reflexivity].
    + assert (Hlt : (m < length bytes)%nat) by lia.
      assert (Hnth : 1 <= nth m bytes 0 <= 254).
      { rewrite Forall_forall in bytes_of_a_string.
        apply bytes_of_a_string, list_elem_of_In, nth_In, Hlt. }
      destruct (Z.eqb_spec (nth m bytes 0) 0) as [E|_]; [lia|].
      replace (nth m bytes 0 :: rev (take m bytes)) with (rev (take (S m) bytes)).
      * replace (Z.of_nat m + 1) with (Z.of_nat (S m)) by lia.
        replace (Z.of_nat i + 1) with (Z.of_nat (S i)) by lia.
        rewrite (IH (S i) (S m) m0) by lia.
        replace (S m + cnt)%nat with (m + S cnt)%nat by lia. reflexivity.
      * destruct (lookup_lt_is_Some_2 bytes m Hlt) as [x Hx].
        rewrite (take_S_r _ _ _ Hx), rev_app_distr. cbn [rev app].
        f_equal. symmetry. apply nth_lookup_Some with (d := 0) in Hx. exact Hx.
Qed.

Lemma read_words_string t (fuel : nat) : forall (m : nat),
  peektext t = memory_holding pointer bytes ->
  (m <= length bytes)%nat -> (length bytes - m < 8 * fuel)%nat ->
  read_words fuel t (pointer + Z.of_nat m) true 0 (rev (take m bytes)) (Z.of_nat m)
  = ReadDone (bytes ++ [0]).
Proof.
  induction fuel as [|fuel IH]; intros m Hmem Hm Hfuel; [lia|].
  cbn [read_words]. rewrite Hmem, memory_holding_not_minus_one.
  pose proof (read_word_string 8 0 m m ltac:(lia) ltac:(lia) Hm) as Hword.
  change (Z.of_nat 0) with 0 in Hword. rewrite Hword. clear Hword.
  destruct (Nat.leb_spec (m + 8) (length bytes)).
  - unfold sizeof_long.
    replace (to_uint64 (pointer + Z.of_nat m + 8)) with (pointer + Z.of_nat (m + 8))
      by (rewrite to_uint64_small by lia; lia).
    apply IH; [exact Hmem | lia | lia].
  - replace (Z.of_nat (length bytes) + 1) with (Z.of_nat (S (length bytes))) by lia.
    rewrite in_argument_below by lia. cbn [rev]. rewrite rev_involutive. reflexivity.
Qed.
End reading_a_string.

(** Reading a path argument gives the path back.  When the memory of the
    tracee holds, at the address in the argument register, a string of fewer
    than [PATH_MAX] bytes and its NUL, [ReadArgumentString] returns those
    bytes and the NUL, wherever the string starts in its first word.  The
    bytes are taken below 255: a word of eight bytes 255 reads as the -1 that
    [PTRACE_PEEKTEXT] returns on failure. *)
Theorem ReadArgumentString_reads_the_string pointer bytes argumentIndex :
  Forall (fun b => 1 <= b <= 254) bytes ->
  Z.of_nat (length bytes) < Linux.PATH_MAX ->
  0 <= pointer /\ pointer + Z.of_nat (length bytes) + 8 < 2 ^ 64 ->
  ReadArgumentString (tracee_with_string pointer (memory_holding pointer bytes))
    argumentIndex true 0
  = ReadDone (bytes ++ [0]).
Proof.
  intros Hbytes Hfits Hpointer. unfold ReadArgumentString.
  cbn [tracee_with_string peekuser]. rewrite to_uint64_small by lia.
  pose proof (read_words_string pointer bytes Hbytes Hfits Hpointer
                (tracee_with_string pointer (memory_holding pointer bytes))
                (Z.to_nat (Linux.PATH_MAX + 2)) 0 eq_refl) as H.
  cbn [take rev Z.of_nat] in H. rewrite Z.add_0_r in H.
  apply H; [lia|]. unfold Linux.PATH_MAX in *. lia.
Qed.

(** The four bytes of [/tmp] at an address that is not a multiple of 8. *)
Lemma ReadArgumentString_reads_the_string_witness :
  ReadArgumentString (tracee_with_string 8193 (memory_holding 8193 [47; 116; 109; 112]))
    1 true 0
  = ReadDone ([47; 116; 109; 112] ++ [0]).
Proof.
  apply ReadArgumentString_reads_the_string.
  - repeat constructor; lia.
  - unfold Linux.PATH_MAX. cbn [length Z.of_nat]. lia.
  - cbn [length]. lia.
Defined.

(** ** Following a symbolic link *)

Section resolve_follows.
Local Open Scope nat_scope.
Variable real_readlink : list ascii -> option (list ascii).
Variable capacity : nat.
Variable followFinalSymlink : bool.






End resolve_follows.


(** ** Resuming a stopped tracee *)

Lemma HandleChildProcess_resumes env syscall newPid s :
  exists es,
    effects (HandleChildProcess env syscall newPid s)
    = effects s ++ es ++ [ptrace_SYSCALL (m_traceePid s) 0].
Proof.
  unfold HandleChildProcess.
  destruct (FindParentProcess s newPid) as [parent|]; cbn [emit set_table effects m_traceePid];
    rewrite <- !app_assoc; eexists [_; _]; reflexivity.
Qed.

(** A tracee that stops is set running again.  For every wait result that
    reports a stop, the iteration of the loop does not leave through
    [_exit]; when the calls it makes into the observer return, it goes on
    (or leaves the loop) and the last request it makes resumes the process
    that stopped: with [PTRACE_CONT] after a seccomp stop, where the system
    call has been handled, and with [PTRACE_SYSCALL] after every other stop.
    When one of those calls does not return, the iteration ends inside it,
    and has made no request that resumes the process. *)
Theorem stopped_tracee_is_resumed m_bxl env w s :
  Linux.WIFEXITED (w_status w) = false -> Linux.WIFSIGNALED (w_status w) = false ->
  Linux.WIFSTOPPED (w_status w) = true ->
  match loop_body m_bxl env w s with
  | Done _ s' =>
      exists es e,
        effects s' = effects s ++ es ++ [e]
        /\ resumes (w_pid w) e = true
        /\ ((e = ptrace_CONT (w_pid w))
            <-> is_event (w_status w) Linux.PTRACE_EVENT_CLONE = false
                /\ is_event (w_status w) Linux.PTRACE_EVENT_FORK = false
                /\ is_event (w_status w) Linux.PTRACE_EVENT_VFORK = false
                /\ is_event (w_status w) Linux.PTRACE_EVENT_EXIT = false
                /\ is_event (w_status w) Linux.PTRACE_EVENT_SECCOMP = true)
  | NotReturned c s' =>
      returns m_bxl (effects s') c = false
      /\ exists es,
           effects s' = effects s ++ es
           /\ Forall (fun e => resumes (w_pid w) e = false) es
  | Exit_ _ _ => False
  end.
Proof.
  intros Hexited Hsignaled Hstopped.
  assert (Hpid : (w_pid w =? w_pid w) = true) by apply Z.eqb_refl.
  assert (Hchild : forall sc,
    match HandleChildProcess_outcome m_bxl env sc (to_int32 (w_eventmsg w))
            (set_traceePid (w_pid w) s) with
    | Done _ s' =>
        exists es e,
          effects s' = effects s ++ es ++ [e]
          /\ resumes (w_pid w) e = true
          /\ e <> ptrace_CONT (w_pid w)
    | NotReturned c s' =>
        returns m_bxl (effects s') c = false
        /\ exists es,
             effects s' = effects s ++ es
             /\ Forall (fun e => resumes (w_pid w) e = false) es
    | Exit_ _ _ => False
    end).
  { intros sc.
    pose proof (HandleChildProcess_outcome_spec m_bxl env sc (to_int32 (w_eventmsg w))
                  (set_traceePid (w_pid w) s)) as Hspec.
    destruct (HandleChildProcess_outcome m_bxl env sc (to_int32 (w_eventmsg w))
                (set_traceePid (w_pid w) s)) as [[] s1|c s1|]; [| |exact Hspec].
    - subst s1.
      destruct (HandleChildProcess_resumes env sc (to_int32 (w_eventmsg w))
                  (set_traceePid (w_pid w) s)) as [es Hes].
      cbn [set_traceePid effects m_traceePid] in Hes.
      exists es, (ptrace_SYSCALL (w_pid w) 0). split; [exact Hes|].
      split; [exact Hpid | discriminate].
    - destruct Hspec as (Hret & es & Heff & Hes). split; [exact Hret|].
      exists es. split; [exact Heff | apply reports_do_not_resume, Hes]. }
  unfold loop_body, tracer_bind, get, request, modify, tracer_ret, _exit.
  rewrite Hexited, Hsignaled, Hstopped. cbn [negb andb].
  destruct (is_event (w_status w) Linux.PTRACE_EVENT_CLONE) eqn:Hclone.
  { specialize (Hchild "clone"%string).
    destruct (HandleChildProcess_outcome m_bxl env "clone" _ _) as [[] s1|c s1|];
      [|exact Hchild|destruct Hchild].
    destruct Hchild as (es & e & H1 & H2 & H3). exists es, e.
    split; [exact H1|]. split; [exact H2|].
    split; [intros Habs; contradiction | intros (Hc & _); discriminate Hc]. }
  destruct (is_event (w_status w) Linux.PTRACE_EVENT_FORK) eqn:Hfork.
  { specialize (Hchild "fork"%string).
    destruct (HandleChildProcess_outcome m_bxl env "fork" _ _) as [[] s1|c s1|];
      [|exact Hchild|destruct Hchild].
    destruct Hchild as (es & e & H1 & H2 & H3). exists es, e.
    split; [exact H1|]. split; [exact H2|].
    split; [intros Habs; contradiction | intros (_ & Hc & _); discriminate Hc]. }
  destruct (is_event (w_status w) Linux.PTRACE_EVENT_VFORK) eqn:Hvfork.
  { specialize (Hchild "vfork"%string).
    destruct (HandleChildProcess_outcome m_bxl env "vfork" _ _) as [[] s1|c s1|];
      [|exact Hchild|destruct Hchild].
    destruct Hchild as (es & e & H1 & H2 & H3). exists es, e.
    split; [exact H1|]. split; [exact H2|].
    split; [intros Habs; contradiction | intros (_ & _ & Hc & _); discriminate Hc]. }
  destruct (is_event (w_status w) Linux.PTRACE_EVENT_EXIT) eqn:Hexit.
  { tracer_step.
    2: { split; [exact Hret|]. exists []. rewrite app_nil_r. auto. }
    pose proof (AllTraceesHaveExited_spec m_bxl env (set_traceePid (w_pid w) s)) as Hspec.
    destruct (AllTraceesHaveExited m_bxl env (set_traceePid (w_pid w) s)) as [r s1|c s1|];
      [| |exact Hspec].
    - destruct Hspec as (_ & _ & Heff & Hsame).
      cbn [set_traceePid effects m_traceePid] in Heff, Hsame.
      cbv beta iota. eexists _, (ptrace_SYSCALL (w_pid w) 0).
      split; [cbn [emit effects]; rewrite Heff, Hsame, <- app_assoc; reflexivity|].
      split; [exact Hpid|].
      split; [discriminate | intros (_ & _ & _ & ? & _); discriminate].
    - destruct Hspec as (Hret & _ & es & Heff & Hes). split; [exact Hret|].
      exists es. split; [exact Heff | apply reports_do_not_resume, Hes]. }
  destruct (is_event (w_status w) Linux.PTRACE_EVENT_SECCOMP) eqn:Hseccomp.
  { tracer_step.
    - eexists [_], (ptrace_CONT (w_pid w)).
      split; [cbn [emit effects set_traceePid m_traceePid]; rewrite <- app_assoc; reflexivity|].
      split; [exact Hpid|]. split; auto.
    - split; [exact Hret|]. exists []. rewrite app_nil_r. auto. }
  destruct (negb (c_true (Z.land (Linux.WSTOPSIG (w_status w)) 128))).
  - eexists [], (ptrace_SYSCALL (w_pid w) _).
    split; [reflexivity|]. split; [exact Hpid|].
    split; [discriminate | intros (_ & _ & _ & _ & ?); discriminate].
  - eexists [], (ptrace_SYSCALL (w_pid w) 0).
    split; [reflexivity|]. split; [exact Hpid|].
    split; [discriminate | intros (_ & _ & _ & _ & ?); discriminate].
Qed.

(** Process 4001 stopped by the delivery of SIGUSR1 (signal 10); every call
    into the observer returns. *)
Lemma stopped_tracee_is_resumed_witness :
  loop_body returning {| getpid := 4000; GetProgramPath := "/usr/bin/tool" |}
    sigusr1_stop (mkPTraceSandbox 4001 [(4001, 1, "/bin/sh"%string)] [])
  = Done Continue (mkPTraceSandbox 4001 [(4001, 1, "/bin/sh"%string)]
                     [ptrace_SYSCALL 4001 10])
  /\ exists es e,
       [ptrace_SYSCALL 4001 10] = [] ++ es ++ [e]
       /\ resumes 4001 e = true
       /\ ((e = ptrace_CONT 4001)
           <-> is_event 2687 Linux.PTRACE_EVENT_CLONE = false
               /\ is_event 2687 Linux.PTRACE_EVENT_FORK = false
               /\ is_event 2687 Linux.PTRACE_EVENT_VFORK = false
               /\ is_event 2687 Linux.PTRACE_EVENT_EXIT = false
               /\ is_event 2687 Linux.PTRACE_EVENT_SECCOMP = true).
Proof.
  split; [reflexivity|].
  exact (stopped_tracee_is_resumed returning
           {| getpid := 4000; GetProgramPath := "/usr/bin/tool" |}
           sigusr1_stop (mkPTraceSandbox 4001 [(4001, 1, "/bin/sh"%string)] [])
           eq_refl eq_refl eq_refl).
Defined.
